(** * Evolution-strategies training loop (es/legacy/train.py, es/utils.py)

    A shallow embedding of the numerical core of the generation loop:
    fitness shaping, antithetic perturbations, sensitivities, the gradient
    estimator, the sigma controller, seed dispatch and checkpoint resume.

    Floating-point tensors are flattened to lists of scalars.  The scalar
    type is an interface ([Scalar]) with two instances:
    - [R]: exact real arithmetic, used for the algebraic statements
      (the source's formulas read as equations between real numbers);
    - [xfloat]: the reals extended with the IEEE special values
      [+inf], [-inf] and [NaN], used where the source tests [isnan] /
      [isinf].  Rounding, overflow and signed zeros are not modelled.

    In the real instance a tensor division by zero has no meaning (the
    value of [x / 0] is a convention of the library): the statements over
    [R] are made for runs without such a division, see [noise_is_real]. *)

From Stdlib Require Import Reals Lra Lia ZArith Sorting.Sorted.
From Stdlib Require Import Ascii String.
From stdpp Require Import base list strings pretty.


(** ** Python exceptions and the error monad *)

Inductive exn : Type :=
  | ZeroDivisionError
  | AssertionError
  | IndexError
  | AttributeError
  | ValueError
  | RuntimeError.

Inductive result (A : Type) : Type :=
  | Ok (a : A)
  | Raise (e : exn).
Arguments Ok {A} a.
Arguments Raise {A} e.

#[export] Instance result_ret : MRet result := fun _ a => Ok a.
#[export] Instance result_bind : MBind result := fun _ _ k m =>
  match m with
  | Ok a => k a
  | Raise e => Raise e
  end.

Definition assert (b : bool) : result unit :=
  if b then Ok tt else Raise AssertionError.

(** [l[i]] on a Python list. *)
Definition getitem {A : Type} (l : list A) (i : nat) : result A :=
  match l !! i with
  | Some a => Ok a
  | None => Raise IndexError
  end.

(** ** Scalars *)

Class Scalar (T : Type) : Type := {
  of_Z : Z -> T;
  (** the decimal literal [m / d], e.g. [frac 12 10] for [1.2] *)
  frac : Z -> Z -> T;
  add : T -> T -> T;
  sub : T -> T -> T;
  mul : T -> T -> T;
  div : T -> T -> T;
  neg : T -> T;
  sqrt : T -> T;
  exp : T -> T;
  log : T -> T;
  max : T -> T -> T;
  (** [ltb x y] is the comparison [x < y] *)
  ltb : T -> T -> bool;
  is_zero : T -> bool;
  isnan : T -> bool;
  isinf : T -> bool;
}.

Section Tensors.
Context {T : Type} `{Scalar T}.

Definition of_nat (n : nat) : T := of_Z (Z.of_nat n).
Definition zero : T := of_Z 0.
Definition one : T := of_Z 1.
Definition pow2 (x : T) : T := mul x x.

(** Python's [a / b] on Python numbers raises on a zero divisor. *)
Definition py_div (a b : T) : result T :=
  if is_zero b then Raise ZeroDivisionError else Ok (div a b).

(** A tensor is the flat list of its elements. *)
Local Abbreviation tensor := (list T).

Definition tzeros (n : nat) : tensor := replicate n zero.
Definition tadd (a b : tensor) : tensor := zip_with add a b.
Definition tsub (a b : tensor) : tensor := zip_with sub a b.
Definition tdiv (a b : tensor) : tensor := zip_with div a b.
Definition tscale (c : T) (a : tensor) : tensor := map (mul c) a.
Definition tdiv_scalar (a : tensor) (c : T) : tensor := map (fun x => div x c) a.
Definition tsub_scalar (a : tensor) (c : T) : tensor := map (fun x => sub x c) a.
Definition tneg (a : tensor) : tensor := map neg a.
Definition tpow2 (a : tensor) : tensor := map pow2 a.
Definition tsqrt (a : tensor) : tensor := map sqrt a.
Definition tsum (a : tensor) : T := foldl add zero a.
Definition tany (p : T -> bool) (a : tensor) : bool := existsb p a.

(** [a.max()]: undefined on a tensor without elements. *)
Definition tmax (a : tensor) : result T :=
  match a with
  | [] => Raise RuntimeError
  | x :: a' => Ok (foldl max x a')
  end.

(** [a.std()]: the unbiased sample standard deviation. *)
Definition tmean (a : tensor) : T := div (tsum a) (of_nat (length a)).
Definition tstd (a : tensor) : T :=
  sqrt (div (tsum (tpow2 (tsub_scalar a (tmean a))))
            (of_Z (Z.of_nat (length a) - 1))).

(** [a[a < c] = v] and [a[a > c] = v]: masked assignment. *)
Definition set_where_lt (c v : T) (a : tensor) : tensor :=
  map (fun x => if ltb x c then v else x) a.
Definition set_where_gt (c v : T) (a : tensor) : tensor :=
  map (fun x => if ltb c x then v else x) a.

(** ** [np.argsort]

    A stable insertion sort of the indices by key.  (NumPy's default
    sort does not promise an order among equal keys; the statements below
    hold for every order of ties.)  NumPy orders the keys by [<] and puts
    NaN after every number: [key_ltb x y] is its comparison. *)
Definition key_ltb (x y : T) : bool :=
  ltb x y || (isnan y && negb (isnan x)).

Fixpoint insert_key (p : nat * T) (l : list (nat * T)) : list (nat * T) :=
  match l with
  | [] => [p]
  | q :: l' => if key_ltb q.2 p.2 then q :: insert_key p l' else p :: q :: l'
  end.

Definition sort_keys (l : list (nat * T)) : list (nat * T) :=
  foldr insert_key [] l.

Definition argsort (a : tensor) : list nat :=
  (sort_keys (imap pair a)).*1.

(** ** [fitness_shaping] *)

(** [np.max([0, np.log(n/2+1) - np.log(k+1)])] *)
Definition utility (n k : nat) : T :=
  max zero (sub (log (add (div (of_nat n) (of_Z 2)) one))
                (log (of_nat (k + 1)))).

(** The loop [for k in range(n): u[sorted_indices[k]] = ...]. *)
Fixpoint assign_utilities (n : nat) (sorted_indices : list nat)
    (ks : list nat) (u : tensor) : result tensor :=
  match ks with
  | [] => Ok u
  | k :: ks' =>
      i ← getitem sorted_indices k;
      (if decide (i < length u)
       then assign_utilities n sorted_indices ks' (<[i := utility n k]> u)
       else Raise IndexError)
  end.

Definition fitness_shaping (returns : tensor) : result tensor :=
  let n := length returns in
  let sorted_indices := argsort (tneg returns) in
  u ← assign_utilities n sorted_indices (seq 0 n) (tzeros n);
  let normalized := tdiv_scalar u (tsum u) in
  inv_n ← (if decide (n = 0) then Raise ZeroDivisionError
           else Ok (div (of_Z 1) (of_nat n)));
  Ok (tsub_scalar normalized inv_n).

End Tensors.

(** ** The real-number instance *)

Definition Rltb (x y : R) : bool := if Rlt_dec x y then true else false.
Definition Reqb (x y : R) : bool := if Req_dec_T x y then true else false.

#[export] Instance R_scalar : Scalar R := {|
  of_Z := IZR;
  frac := fun m d => (IZR m / IZR d)%R;
  add := Rplus;
  sub := Rminus;
  mul := Rmult;
  div := Rdiv;
  neg := Ropp;
  sqrt := R_sqrt.sqrt;
  exp := Rtrigo_def.exp;
  log := ln;
  max := Rmax;
  ltb := Rltb;
  is_zero := fun x => Reqb x 0;
  isnan := fun _ => false;
  isinf := fun _ => false;
|}.

#[export] Instance R_inhabited : Inhabited R := populate 0%R.

(** ** Reals extended with the IEEE special values *)

Inductive xfloat : Type :=
  | Fin (x : R)
  | PInf
  | NInf
  | NaN.

(** The product of the infinity of the given sign with the finite [x]:
    an infinity, or [NaN] when [x] is zero. *)
Definition signed_inf (positive : bool) (x : R) : xfloat :=
  if Req_dec_T x 0 then NaN
  else if Rlt_dec 0 x then (if positive then PInf else NInf)
  else (if positive then NInf else PInf).

Definition xneg (a : xfloat) : xfloat :=
  match a with
  | Fin x => Fin (- x)
  | PInf => NInf
  | NInf => PInf
  | NaN => NaN
  end.

Definition xadd (a b : xfloat) : xfloat :=
  match a, b with
  | NaN, _ | _, NaN => NaN
  | Fin x, Fin y => Fin (x + y)
  | PInf, NInf | NInf, PInf => NaN
  | PInf, _ | _, PInf => PInf
  | NInf, _ | _, NInf => NInf
  end.

Definition xsub (a b : xfloat) : xfloat := xadd a (xneg b).

Definition xmul (a b : xfloat) : xfloat :=
  match a, b with
  | NaN, _ | _, NaN => NaN
  | Fin x, Fin y => Fin (x * y)
  | Fin x, PInf | PInf, Fin x => signed_inf true x
  | Fin x, NInf | NInf, Fin x => signed_inf false x
  | PInf, PInf | NInf, NInf => PInf
  | PInf, NInf | NInf, PInf => NInf
  end.

Definition xdiv (a b : xfloat) : xfloat :=
  match a, b with
  | NaN, _ | _, NaN => NaN
  | Fin x, Fin y => if Req_dec_T y 0 then signed_inf true x else Fin (x / y)
  | Fin _, _ => Fin 0
  | PInf, Fin y => if Rlt_dec y 0 then NInf else PInf
  | NInf, Fin y => if Rlt_dec y 0 then PInf else NInf
  | _, _ => NaN
  end.

Definition xsqrt (a : xfloat) : xfloat :=
  match a with
  | Fin x => if Rlt_dec x 0 then NaN else Fin (R_sqrt.sqrt x)
  | PInf => PInf
  | _ => NaN
  end.

Definition xexp (a : xfloat) : xfloat :=
  match a with
  | Fin x => Fin (Rtrigo_def.exp x)
  | PInf => PInf
  | NInf => Fin 0
  | NaN => NaN
  end.

Definition xlog (a : xfloat) : xfloat :=
  match a with
  | Fin x => if Rlt_dec x 0 then NaN
             else if Req_dec_T x 0 then NInf else Fin (ln x)
  | PInf => PInf
  | _ => NaN
  end.

Definition xltb (a b : xfloat) : bool :=
  match a, b with
  | NaN, _ | _, NaN => false
  | Fin x, Fin y => Rltb x y
  | NInf, (Fin _ | PInf) => true
  | Fin _, PInf => true
  | _, _ => false
  end.

Definition xmax (a b : xfloat) : xfloat :=
  match a, b with
  | NaN, _ | _, NaN => NaN
  | _, _ => if xltb a b then b else a
  end.

Definition xis_zero (a : xfloat) : bool :=
  match a with
  | Fin x => Reqb x 0
  | _ => false
  end.

Definition xisnan (a : xfloat) : bool :=
  match a with
  | NaN => true
  | _ => false
  end.

Definition xisinf (a : xfloat) : bool :=
  match a with
  | PInf | NInf => true
  | _ => false
  end.

#[export] Instance xfloat_scalar : Scalar xfloat := {|
  of_Z := fun z => Fin (IZR z);
  frac := fun m d => Fin (IZR m / IZR d);
  add := xadd;
  sub := xsub;
  mul := xmul;
  div := xdiv;
  neg := xneg;
  sqrt := xsqrt;
  exp := xexp;
  log := xlog;
  max := xmax;
  ltb := xltb;
  is_zero := xis_zero;
  isnan := xisnan;
  isinf := xisinf;
|}.

(** ** Models, arguments and random generators *)

(** A parameter tensor with its gradient buffer ([param.data], [param.grad.data]). *)
Record param (T : Type) : Type := Param {
  data : list T;
  grad : list T;
}.
Arguments Param {T} data grad.
Arguments data {T} p.
Arguments grad {T} p.

(** [parent_model.parameters()], in order. *)
Abbreviation model T := (list (param T)).

(** The fields of [args] read or written by the training loop.  [beta] is
    [None] when [args] has no attribute of that name. *)
Record Args (T : Type) : Type := MkArgs {
  agents : nat;
  sigma : T;
  beta : option T;
  safe_mutation : bool;
  optimize_sigma : bool;
  max_generations : nat;
}.
Arguments MkArgs {T} agents sigma beta safe_mutation optimize_sigma max_generations.
Arguments agents {T} a.
Arguments sigma {T} a.
Arguments beta {T} a.
Arguments safe_mutation {T} a.
Arguments optimize_sigma {T} a.
Arguments max_generations {T} a.

Definition set_sigma {T : Type} (a : Args T) (s : T) : Args T :=
  MkArgs (agents a) s (beta a) (safe_mutation a) (optimize_sigma a)
         (max_generations a).
Definition set_beta {T : Type} (a : Args T) (b : T) : Args T :=
  MkArgs (agents a) (sigma a) (Some b) (safe_mutation a) (optimize_sigma a)
         (max_generations a).

(** torch's global generator: [torch.manual_seed] and one standard-normal
    draw.  The generator is a deterministic function of its seed. *)
Class TorchRNG (T : Type) : Type := {
  rng : Type;
  manual_seed : Z -> rng;
  randn : rng -> T * rng;
}.

(** numpy's global generator: [np.random.randint(high)]. *)
Class NumpyRNG : Type := {
  np_rng : Type;
  randint : Z -> np_rng -> Z * np_rng;
}.

Section Perturbation.
Context {T : Type} `{Scalar T} `{TorchRNG T}.

(** [model.es_parameters()] belongs to the model classes, not to the
    training loop: it is taken as a parameter, the positions within
    [parameters()] of the tensors it yields. *)
Variable es_parameters : list nat.

(** [eps.normal_(0, 1)] on a fresh tensor of [n] elements. *)
Fixpoint normal_ (n : nat) (st : rng) : list T * rng :=
  match n with
  | 0 => ([], st)
  | S n' =>
      let '(x, st1) := randn st in
      let '(xs, st2) := normal_ n' st1 in
      (x :: xs, st2)
  end.

Definition get_pertubation (args : Args T) (p : param T) (st : rng)
    : list T * rng :=
  let '(eps, st') := normal_ (length (data p)) st in
  if safe_mutation args then
    let eps := tdiv eps (grad p) in
    let eps := tdiv_scalar eps (tstd eps) in
    (eps, st')
  else (eps, st').

(** [model_class(...)] followed by [load_state_dict] and [zero_grad]: a copy
    of the parent's tensors with cleared gradients. *)
Definition copy_model (parent_model : model T) : model T :=
  map (fun p => Param (data p) (tzeros (length (data p)))) parent_model.

Definition no_nan_inf (a : list T) : result unit :=
  _ ← assert (negb (tany isnan a));
  assert (negb (tany isinf a)).

(** The loop over [zip(model1.es_parameters(), model2.es_parameters(),
    parent_model.es_parameters())]. *)
Fixpoint perturb_loop (args : Args T) (parent_model : model T)
    (es : list nat) (st : rng) (model1 model2 : model T)
    : result (model T * model T) :=
  match es with
  | [] => Ok (model1, model2)
  | i :: es' =>
      pp ← getitem parent_model i;
      let '(eps, st') := get_pertubation args pp st in
      let step := tscale (sigma args) eps in
      let model1 := alter (fun p => Param (tadd (data p) step) (grad p)) i model1 in
      let model2 := alter (fun p => Param (tsub (data p) step) (grad p)) i model2 in
      param1 ← getitem model1 i;
      param2 ← getitem model2 i;
      _ ← no_nan_inf (data param1);
      _ ← no_nan_inf (data param2);
      perturb_loop args parent_model es' st' model1 model2
  end.

Definition perturb_model (args : Args T) (parent_model : model T)
    (random_seed : Z) : result (model T * model T) :=
  let model1 := copy_model parent_model in
  let model2 := copy_model parent_model in
  perturb_loop args parent_model es_parameters (manual_seed random_seed)
               model1 model2.

(** ** [compute_sensitivities]

    [dy_dw idx pid] is the gradient left in parameter [pid] by
    [outputs.backward] for output unit [idx] (the forward and backward
    passes belong to the model, not to the training loop). *)
Section Sensitivities.
Variable dy_dw : nat -> nat -> list T.

(** The inner loop [for pid, param in enumerate(parent_model.parameters())]. *)
Fixpoint accumulate_params (idx pid : nat) (params : model T)
    (sensitivities : list (list T)) : result (list (list T)) :=
  match params with
  | [] => Ok sensitivities
  | _ :: rest =>
      let sens := tpow2 (dy_dw idx pid) in
      if decide (idx = 0) then
        accumulate_params idx (S pid) rest (sensitivities ++ [sens])
      else
        old ← getitem sensitivities pid;
        accumulate_params idx (S pid) rest (<[pid := tadd old sens]> sensitivities)
  end.

(** The outer loop [for idx in range(n_outputs)]. *)
Fixpoint accumulate_outputs (idxs : list nat) (params : model T)
    (sensitivities : list (list T)) : result (list (list T)) :=
  match idxs with
  | [] => Ok sensitivities
  | idx :: idxs' =>
      sensitivities ← accumulate_params idx 0 params sensitivities;
      accumulate_outputs idxs' params sensitivities
  end.

Definition normalize (s : list T) : result (list T) :=
  m ← tmax s;
  Ok (tdiv_scalar s m).

(** The two masked assignments of the "numerical considerations" block. *)
Definition numerical (s : list T) : list T :=
  set_where_gt (of_Z 100000) (of_Z 100000)
    (set_where_lt (frac 1 100000) (of_Z 1) s).

(** The loop that stores the sensitivities as gradients. *)
Fixpoint set_sensitivities (pid : nat) (params : model T)
    (sensitivities : list (list T)) : result (model T) :=
  match params with
  | [] => Ok []
  | p :: rest =>
      s ← getitem sensitivities pid;
      _ ← no_nan_inf s;
      rest' ← set_sensitivities (S pid) rest sensitivities;
      Ok (Param (data p) s :: rest')
  end.

Definition compute_sensitivities (n_outputs : nat) (parent_model : model T)
    : result (model T) :=
  sensitivities ← accumulate_outputs (seq 0 n_outputs) parent_model [];
  let sensitivities := map tsqrt sensitivities in
  sensitivities ← mapM normalize sensitivities;
  let sensitivities := map numerical sensitivities in
  set_sensitivities 0 parent_model sensitivities.

End Sensitivities.
End Perturbation.

(** ** [compute_gradients] *)

Section Gradients.
Context {T : Type} `{Scalar T} `{TorchRNG T}.

(** The inner loop [for layer, param in enumerate(parent_model.parameters())]
    of one agent: [retrn] is its shaped return, [multiplier] its antithetic
    sign, [st] the generator seeded with its seed. *)
Fixpoint layer_loop (args : Args T) (retrn multiplier : T) (layer : nat)
    (params : model T) (st : rng) (weight_gradients : list (list T))
    (beta_gradient : T) : result (list (list T) * T) :=
  match params with
  | [] => Ok (weight_gradients, beta_gradient)
  | param :: rest =>
      let '(eps, st') := get_pertubation args param st in
      old ← getitem weight_gradients layer;
      c ← py_div one (mul (of_nat (agents args)) (pow2 (sigma args)));
      let weight_gradients :=
        <[layer := tadd old (tscale c (tscale (mul retrn multiplier) eps))]>
          weight_gradients in
      beta_gradient ←
        (if optimize_sigma args then
           match beta args with
           | Some b =>
               Ok (add beta_gradient
                     (mul (mul (div one (mul (of_nat (agents args)) (exp b)))
                               retrn)
                          (sub (tsum (tpow2 eps)) one)))
           | None => Raise AttributeError
           end
         else Ok beta_gradient);
      layer_loop args retrn multiplier (S layer) rest st'
                 weight_gradients beta_gradient
  end.

(** The outer loop [for i in range(args.agents)]. *)
Fixpoint agent_loop (args : Args T) (params : model T)
    (shaped_returns : list T) (random_seeds : list Z)
    (is_anti_list : list bool) (agent_ids : list nat)
    (weight_gradients : list (list T)) (beta_gradient : T)
    : result (list (list T) * T) :=
  match agent_ids with
  | [] => Ok (weight_gradients, beta_gradient)
  | i :: agent_ids' =>
      is_anti ← getitem is_anti_list i;
      let multiplier := if is_anti : bool then of_Z (-1) else of_Z 1 in
      retrn ← getitem shaped_returns i;
      seed ← getitem random_seeds i;
      '(weight_gradients, beta_gradient) ←
        layer_loop args retrn multiplier 0 params (manual_seed seed)
                   weight_gradients beta_gradient;
      agent_loop args params shaped_returns random_seeds is_anti_list
                 agent_ids' weight_gradients beta_gradient
  end.

(** The loop that stores [- weight_gradients[layer]] on each parameter. *)
Fixpoint set_gradients (layer : nat) (params : model T)
    (weight_gradients : list (list T)) : result (model T) :=
  match params with
  | [] => Ok []
  | p :: rest =>
      g ← getitem weight_gradients layer;
      let g := tneg g in
      _ ← assert (negb (tany isnan g));
      _ ← assert (negb (tany isinf g));
      rest' ← set_gradients (S layer) rest weight_gradients;
      Ok (Param (data p) g :: rest')
  end.

(** [args.beta.grad = - beta_gradient] with its assertion. *)
Definition set_beta_gradient (args : Args T) (beta_gradient : T)
    : result (option T) :=
  if optimize_sigma args then
    match beta args with
    | Some _ =>
        let g := neg beta_gradient in
        _ ← assert (negb (isnan g));
        Ok (Some g)
    | None => Raise AttributeError
    end
  else Ok None.

(** The result is the model with the new gradients and, when sigma is
    optimized, [args.beta.grad]. *)
Definition compute_gradients (args : Args T) (parent_model : model T)
    (returns : list T) (random_seeds : list Z) (is_anti_list : list bool)
    : result (model T * option T) :=
  let batch_size := length returns in
  _ ← assert (bool_decide (batch_size = agents args));
  _ ← assert (bool_decide (length random_seeds = batch_size));
  shaped_returns ← fitness_shaping returns;
  let weight_gradients :=
    map (fun p => tzeros (length (data p))) parent_model in
  let beta_gradient := zero in
  '(weight_gradients, beta_gradient) ←
    agent_loop args parent_model shaped_returns random_seeds is_anti_list
               (seq 0 (agents args)) weight_gradients beta_gradient;
  parent_model ← set_gradients 0 parent_model weight_gradients;
  beta_grad ← set_beta_gradient args beta_gradient;
  Ok (parent_model, beta_grad).

End Gradients.

(** ** The sigma controller and the update step of [train_loop] *)

(** [optimizer.step()]: the parameter updater, an external collaborator.  It
    maps the model (with gradients) to the updated model and, where [beta]
    is one of its parameters, [beta] and [beta.grad] to the new [beta]. *)
Class Optimizer (T : Type) : Type := {
  optimizer : Type;
  step_model : optimizer -> model T -> optimizer * model T;
  step_beta : optimizer -> T -> T -> T;
}.

Section Update.
Context {T : Type} `{Scalar T} `{TorchRNG T} `{Optimizer T}.

(** The block under [if hasattr(args, 'beta')]. *)
Definition sigma_controller (args : Args T) : Args T :=
  match beta args with
  | Some b =>
      let new_sigma := sqrt (mul (frac 5 10) (exp b)) in
      let args :=
        if ltb (mul (sigma args) (frac 12 10)) new_sigma then
          set_sigma args (mul (sigma args) (frac 12 10))
        else if ltb new_sigma (mul (sigma args) (frac 8 10)) then
          set_sigma args (mul (sigma args) (frac 8 10))
        else set_sigma args new_sigma in
      set_beta args (log (mul (of_Z 2) (pow2 (sigma args))))
  | None => args
  end.

(** [compute_gradients], [optimizer.step()] and the sigma controller, as
    one generation of [train_loop] runs them. *)
Definition update_step (args : Args T) (parent_model : model T)
    (opt : optimizer) (returns : list T) (random_seeds : list Z)
    (is_anti_list : list bool) : result (Args T * model T * optimizer) :=
  '(parent_model, beta_grad) ←
    compute_gradients args parent_model returns random_seeds is_anti_list;
  let '(opt', parent_model) := step_model opt parent_model in
  let args :=
    match beta args, beta_grad with
    | Some b, Some g => set_beta args (step_beta opt b g)
    | _, _ => args
    end in
  Ok (sigma_controller args, parent_model, opt').

End Update.

(** ** Statistics, checkpoints and the start of [train_loop] *)

(** The [stats] dictionary: one list per key, appended once per generation. *)
Record Stats (T : Type) : Type := MkStats {
  st_generations : list nat;
  st_episodes : list nat;
  st_observations : list nat;
  st_walltimes : list T;
  st_return_avg : list T;
  st_return_var : list T;
  st_return_max : list T;
  st_return_min : list T;
  st_return_unp : list T;
  st_unp_rank : list nat;
  st_sigma : list T;
  st_lr : list T;
  st_start_time : T;
}.
Arguments MkStats {T}.
Arguments st_generations {T} s.
Arguments st_episodes {T} s.
Arguments st_observations {T} s.
Arguments st_return_unp {T} s.
Arguments st_sigma {T} s.

(** What [save_checkpoint] writes: the latest and the best model and
    optimizer state, and the statistics. *)
Record Checkpoint (T O : Type) : Type := MkCheckpoint {
  model_state_dict : model T;
  optimizer_state_dict : O;
  best_model_state_dict : option (model T);
  best_optimizer_state_dict : option O;
  stats_pkl : Stats T;
}.
Arguments MkCheckpoint {T O}.
Arguments model_state_dict {T O} c.
Arguments optimizer_state_dict {T O} c.
Arguments best_model_state_dict {T O} c.
Arguments best_optimizer_state_dict {T O} c.
Arguments stats_pkl {T O} c.

(** The iteration variables of [train_loop] before the first generation. *)
Record LoopVars (T O : Type) : Type := MkLoopVars {
  n_episodes : nat;
  n_observations : nat;
  start_generation : nat;
  max_unperturbed_return : T;
  best_model_stdct : option (model T);
  best_optimizer_stdct : option O;
}.
Arguments MkLoopVars {T O}.
Arguments n_episodes {T O} l.
Arguments n_observations {T O} l.
Arguments start_generation {T O} l.
Arguments max_unperturbed_return {T O} l.
Arguments best_model_stdct {T O} l.
Arguments best_optimizer_stdct {T O} l.

Section Resume.
Context {T : Type} `{Scalar T} {O : Type}.

(** [l[-1]] *)
Definition last_item {A : Type} (l : list A) : result A :=
  match last l with
  | Some a => Ok a
  | None => Raise IndexError
  end.

(** [np.max(l)] *)
Definition np_max (l : list T) : result T :=
  match l with
  | [] => Raise ValueError
  | x :: l' => Ok (foldl max x l')
  end.

Definition save_checkpoint (parent_model : model T) (opt : O)
    (best_model_stdct : option (model T)) (best_optimizer_stdct : option O)
    (stats : Stats T) : Checkpoint T O :=
  MkCheckpoint parent_model opt best_model_stdct best_optimizer_stdct stats.

(** [load_checkpoint]: [torch.load] hands back what [save_checkpoint]
    stored, the latest or the best state (the best one may be [None]);
    [lr_scheduler.last_epoch] needs the last generation; then
    [load_state_dict] fails on a state that is [None]. *)
Definition load_checkpoint (ck : Checkpoint T O) (load_best : bool)
    : result (model T * O * Stats T) :=
  let '(model_stdct, optimizer_stdct) :=
    if load_best
    then (best_model_state_dict ck, best_optimizer_state_dict ck)
    else (Some (model_state_dict ck), Some (optimizer_state_dict ck)) in
  let stats := stats_pkl ck in
  _ ← last_item (st_generations stats);
  m ← match model_stdct with
      | Some m => Ok m
      | None => Raise AttributeError
      end;
  o ← match optimizer_stdct with
      | Some o => Ok o
      | None => Raise AttributeError
      end;
  Ok (m, o, stats).

(** The start of [train_loop], up to the evaluation of the parent model:
    fresh statistics when [stats] is [None], the last recorded values
    otherwise. *)
Definition train_loop_init (args : Args T) (stats : option (Stats T))
    (now : T) : result (Args T * Stats T * LoopVars T O) :=
  '(args, stats, n_episodes, n_observations, start_generation,
    max_unperturbed_return) ←
    match stats with
    | None =>
        Ok (args, MkStats [] [] [] [] [] [] [] [] [] [] [] [] now,
            0, 0, 0, neg (of_Z 100000000))
    | Some stats =>
        n_episodes ← last_item (st_episodes stats);
        n_observations ← last_item (st_observations stats);
        last_generation ← last_item (st_generations stats);
        s ← last_item (st_sigma stats);
        max_unperturbed_return ← np_max (st_return_unp stats);
        Ok (set_sigma args s, stats, n_episodes, n_observations,
            last_generation + 1, max_unperturbed_return)
    end;
  let best_model_stdct := None in
  let best_optimizer_stdct := None in
  Ok (args, stats,
      MkLoopVars n_episodes n_observations start_generation
                 max_unperturbed_return best_model_stdct best_optimizer_stdct).

(** Restoring a checkpoint and starting [train_loop] from its statistics. *)
Definition resume (args : Args T) (ck : Checkpoint T O) (load_best : bool)
    (now : T) : result (Args T * Stats T * LoopVars T O) :=
  '(_, _, stats) ← load_checkpoint ck load_best;
  train_loop_init args (Some stats) now.

End Resume.

(** ** Seeds and dispatch of one generation *)

Inductive seed_arg : Type :=
  | Seed (z : Z)
  | dummy_seed.

Inductive neg_arg : Type :=
  | Neg (is_negative : bool)
  | dummy_neg.

(** The arguments of one worker process:
    [(args, model, seed, return_queue, env, is_negative)]. *)
Record job (T : Type) : Type := MkJob {
  job_model : model T;
  job_seed : seed_arg;
  job_neg : neg_arg;
  collect_inputs : bool;
}.
Arguments MkJob {T}.
Arguments job_model {T} j.
Arguments job_seed {T} j.
Arguments job_neg {T} j.
Arguments collect_inputs {T} j.

Section Dispatch.
Context {T : Type} `{Scalar T} `{TorchRNG T} `{NumpyRNG}.
Variable es_parameters : list nat.

(** The loop [for j in range(int(args.agents/2))]: [n] iterations left. *)
Fixpoint generate_pairs (n : nat) (args : Args T) (parent_model : model T)
    (st : np_rng) (seeds : list Z) (models : list (model T))
    : result (np_rng * list Z * list (model T)) :=
  match n with
  | 0 => Ok (st, seeds, models)
  | S n' =>
      let '(random_seed, st) := randint (2 ^ 30) st in
      '(model1, model2) ← perturb_model es_parameters args parent_model random_seed;
      generate_pairs n' args parent_model st
        (seeds ++ [random_seed; random_seed]) (models ++ [model1; model2])
  end.

(** The loop [while models:] and the assertion [len(seeds) == 0] after it.
    [models.pop()] and [seeds.pop()] take the last elements, so the loop
    walks both lists from their ends: the arguments are the reversed
    lists. *)
Fixpoint start_workers (rev_models : list (model T)) (rev_seeds : list Z)
    (is_negative : bool) (processes : list (job T)) : result (list (job T)) :=
  match rev_models with
  | [] =>
      _ ← assert (bool_decide (length rev_seeds = 0));
      Ok processes
  | perturbed_model :: rev_models' =>
      match rev_seeds with
      | [] => Raise IndexError
      | seed :: rev_seeds' =>
          start_workers rev_models' rev_seeds' (negb is_negative)
            (processes ++ [MkJob perturbed_model (Seed seed) (Neg is_negative) false])
      end
  end.

(** One generation's perturbations and worker processes, the unperturbed
    evaluation last. *)
Definition dispatch (args : Args T) (parent_model : model T) (st : np_rng)
    : result (np_rng * list (job T)) :=
  '(st, seeds, models) ←
    generate_pairs (agents args / 2) args parent_model st [] [];
  _ ← assert (bool_decide (length seeds = length models));
  let is_negative := true in
  processes ← start_workers (rev models) (rev seeds) is_negative [];
  Ok (st, processes ++ [MkJob parent_model dummy_seed dummy_neg true]).

End Dispatch.

(** * The rest of the generation loop *)

(** ** Comparisons and minima

    [x >= y] and [min], beside the operations of [Scalar]. *)
Class ScalarOrder (T : Type) : Type := {
  (** [geb x y] is the comparison [x >= y] *)
  geb : T -> T -> bool;
  fmin : T -> T -> T;
}.

Definition Rgeb (x y : R) : bool := if Rle_dec y x then true else false.

#[export] Instance R_order : ScalarOrder R := {|
  geb := Rgeb;
  fmin := Rmin;
|}.

(** Comparisons with [NaN] are false; [min] propagates [NaN], as [max]. *)
Definition xgeb (a b : xfloat) : bool :=
  match a, b with
  | NaN, _ | _, NaN => false
  | Fin x, Fin y => Rgeb x y
  | PInf, _ => true
  | _, NInf => true
  | _, _ => false
  end.

Definition xmin (a b : xfloat) : xfloat :=
  match a, b with
  | NaN, _ | _, NaN => NaN
  | _, _ => if xltb b a then b else a
  end.

#[export] Instance xfloat_order : ScalarOrder xfloat := {|
  geb := xgeb;
  fmin := xmin;
|}.

(** ** [unperturbed_rank] *)

Section Rank.
Context {T : Type} `{Scalar T}.

(** [(returns > unperturbed_return).sum()] *)
Definition count_greater (returns : list T) (unperturbed_return : T) : nat :=
  sum_list (map (fun r => if ltb unperturbed_return r then 1 else 0) returns).

Definition unperturbed_rank (returns : list T) (unperturbed_return : T)
    : string * nat :=
  let nth_place := count_greater returns unperturbed_return + 1 in
  let rank_diag :=
    pretty nth_place +:+ " out of " +:+ pretty (length returns + 1) in
  (rank_diag, nth_place).

End Rank.

(** ** The outputs of the workers *)

(** What a worker puts on the return queue: the keys of [out] the loop
    reads. *)
Record output (T : Type) : Type := MkOutput {
  out_seed : seed_arg;
  out_return : T;
  out_is_anti : neg_arg;
  out_n_observations : nat;
}.
Arguments MkOutput {T}.
Arguments out_seed {T} o.
Arguments out_return {T} o.
Arguments out_is_anti {T} o.
Arguments out_n_observations {T} o.

#[export] Instance seed_arg_eq_dec : EqDecision seed_arg.
Proof. solve_decision. Defined.

(** [l.index(x)]: the first position of [x]. *)
Fixpoint index {A : Type} `{EqDecision A} (x : A) (l : list A) : result nat :=
  match l with
  | [] => Raise ValueError
  | y :: l' => if decide (y = x) then Ok 0 else i ← index x l'; Ok (S i)
  end.

(** [l.pop(i)]: the element at position [i] and the list without it. *)
Definition pop {A : Type} (l : list A) (i : nat) : result (A * list A) :=
  match l !! i with
  | Some a => Ok (a, delete i l)
  | None => Raise IndexError
  end.

(** The block "Split into parts" of [train_loop]: the output of the
    unperturbed model is taken out of the four lists. *)
Definition split_outputs {T : Type} (raw_output : list (output T))
    : result (output T * list seed_arg * list T * list neg_arg * list nat) :=
  let seeds := map out_seed raw_output in
  let returns := map out_return raw_output in
  let is_anti_list := map out_is_anti raw_output in
  let i_observations := map out_n_observations raw_output in
  unperturbed_index ← index dummy_seed seeds;
  '(unperturbed_out, raw_output) ← pop raw_output unperturbed_index;
  _ ← assert (bool_decide (out_seed unperturbed_out = dummy_seed));
  '(_, seeds) ← pop seeds unperturbed_index;
  '(_, returns) ← pop returns unperturbed_index;
  '(_, is_anti_list) ← pop is_anti_list unperturbed_index;
  '(_, i_observations) ← pop i_observations unperturbed_index;
  Ok (unperturbed_out, seeds, returns, is_anti_list, i_observations).

(** ** Best model and statistics of one generation *)

Arguments st_walltimes {T} s.
Arguments st_return_avg {T} s.
Arguments st_return_var {T} s.
Arguments st_return_max {T} s.
Arguments st_return_min {T} s.
Arguments st_unp_rank {T} s.
Arguments st_lr {T} s.
Arguments st_start_time {T} s.

Section Bookkeeping.
Context {T : Type} `{Scalar T} `{ScalarOrder T} {O : Type}.

(** [a.var()]: the mean of the squared deviations from the mean. *)
Definition np_var (a : list T) : T :=
  tmean (tpow2 (tsub_scalar a (tmean a))).

(** [a.min()] *)
Definition np_min (l : list T) : result T :=
  match l with
  | [] => Raise ValueError
  | x :: l' => Ok (foldl fmin x l')
  end.

(** [stats['lr'].append(get_lr(optimizer))] for an optimizer with one
    parameter group. *)
Definition append_lr (stats : Stats T) (lr : T) : Stats T :=
  MkStats (st_generations stats) (st_episodes stats) (st_observations stats)
          (st_walltimes stats) (st_return_avg stats) (st_return_var stats)
          (st_return_max stats) (st_return_min stats) (st_return_unp stats)
          (st_unp_rank stats) (st_sigma stats) (st_lr stats ++ [lr])
          (st_start_time stats).

(** The block "Keep track of best model".  [state_dict()] hands out the
    tensors of the model, not copies: the snapshot is recorded as the model
    it refers to when it is taken. *)
Definition keep_best (parent_model : model T) (opt : O)
    (unperturbed_return : T) (vars : LoopVars T O) : LoopVars T O :=
  if geb unperturbed_return (max_unperturbed_return vars) then
    MkLoopVars (n_episodes vars) (n_observations vars) (start_generation vars)
               unperturbed_return (Some parent_model) (Some opt)
  else vars.

(** The block "Store statistics": [now] is [time.time()]. *)
Definition store_statistics (args : Args T) (stats : Stats T)
    (vars : LoopVars T O) (n_generation : nat) (returns : list T)
    (i_observations : list nat) (unperturbed_return : T) (rank : nat)
    (now : T) : result (Stats T * LoopVars T O) :=
  let n_episodes := n_episodes vars + length returns in
  let n_observations := n_observations vars + sum_list i_observations in
  let return_avg := tmean returns in
  let return_var := np_var returns in
  return_max ← np_max returns;
  return_min ← np_min returns;
  Ok (MkStats (st_generations stats ++ [n_generation])
              (st_episodes stats ++ [n_episodes])
              (st_observations stats ++ [n_observations])
              (st_walltimes stats ++ [sub now (st_start_time stats)])
              (st_return_avg stats ++ [return_avg])
              (st_return_var stats ++ [return_var])
              (st_return_max stats ++ [return_max])
              (st_return_min stats ++ [return_min])
              (st_return_unp stats ++ [unperturbed_return])
              (st_unp_rank stats ++ [rank])
              (st_sigma stats ++ [sigma args])
              (st_lr stats)
              (st_start_time stats),
      MkLoopVars n_episodes n_observations (start_generation vars)
                 (max_unperturbed_return vars) (best_model_stdct vars)
                 (best_optimizer_stdct vars)).

(** The end of one generation of [train_loop], from the rank of the
    unperturbed model to the stored statistics. *)
Definition end_of_generation (args : Args T) (parent_model : model T)
    (opt : O) (stats : Stats T) (vars : LoopVars T O) (n_generation : nat)
    (returns : list T) (i_observations : list nat) (unperturbed_return : T)
    (now : T) : result (Stats T * LoopVars T O) :=
  let '(rank_diag, rank) := unperturbed_rank returns unperturbed_return in
  let vars := keep_best parent_model opt unperturbed_return vars in
  store_statistics args stats vars n_generation returns i_observations
                   unperturbed_return rank now.

End Bookkeeping.

(** ** [get_lr] and the learning rate [print_iter] shows *)

(** A learning rate as [get_lr] returns it: one number, or the list of the
    groups' rates. *)
Inductive lr_value (T : Type) : Type :=
  | LrFloat (lr : T)
  | LrList (lrs : list T).
Arguments LrFloat {T} lr.
Arguments LrList {T} lrs.

(** [param_groups] holds the ['lr'] entry of each parameter group. *)
Definition get_lr {T : Type} (param_groups : list T) : lr_value T :=
  let lr := param_groups in
  if decide (length lr = 1) then
    match lr with
    | x :: _ => LrFloat x
    | [] => LrList lr
    end
  else LrList lr.

(** The first statement of [print_iter]:
    [stats['lr'][-1] if type(stats['lr'][-1]) is not list else stats['lr'][-1][0]]. *)
Definition print_iter_lr {T : Type} (lrs : list (lr_value T)) : result T :=
  last ← last_item lrs;
  match last with
  | LrFloat lr => Ok lr
  | LrList l => getitem l 0
  end.

(** ** The checkpoint directory of [load_checkpoint] *)

(** [s.split(sep)] for a separator of one character.  The result is never
    empty: the first branch of the inner match is there for totality. *)
Fixpoint split (sep : ascii) (s : string) : list string :=
  match s with
  | EmptyString => [EmptyString]
  | String c s' =>
      if Ascii.eqb c sep then EmptyString :: split sep s'
      else match split sep s' with
           | [] => [String c EmptyString]
           | x :: xs => String c x :: xs
           end
  end.

(** [sep.join(l)] *)
Fixpoint join (sep : string) (l : list string) : string :=
  match l with
  | [] => EmptyString
  | x :: l' =>
      match l' with
      | [] => x
      | _ :: _ => x +:+ sep +:+ join sep l'
      end
  end.

(** [file_path+'/'+'/'.join([i for i in restore_dir.split('/')
                              if i not in file_path.split('/')])] *)
Definition chkpt_dir (restore_dir file_path : string) : string :=
  file_path +:+ "/" +:+
  join "/" (List.filter (fun i => bool_decide (i ∉ split "/"%char file_path))
                        (split "/"%char restore_dir)).

(** * Notions used to state the properties *)

(** ** Real sums and the closed form of fitness shaping *)

(** The sum of a list of reals, written as a right fold. *)
Definition Rsum (l : list R) : R := foldr Rplus 0%R l.

(** The utility of rank [k] among [n] returns, as a real number. *)
Definition rank_utility (n k : nat) : R :=
  Rmax 0 (ln (INR n / 2 + 1) - ln (INR k + 1)).

(** The sum of the utilities of all ranks. *)
Definition utility_total (n : nat) : R :=
  Rsum (map (rank_utility n) (seq 0 n)).

(** The centered rank weight: normalized utility minus [1/n]. *)
Definition shaped_weight (n k : nat) : R :=
  (rank_utility n k / utility_total n - 1 / INR n)%R.

(** The order [argsort] sorts the (index, key) pairs by. *)
Definition key_le (p q : nat * R) : Prop := (p.2 <= q.2)%R.

(** ** Per-sample noise and the two estimators *)

Section Noise.
Context {T : Type} `{Scalar T} `{TorchRNG T}.

(** The noise tensors one agent draws, one per parameter tensor, from a
    generator state: the draws of the inner loop of [compute_gradients]. *)
Fixpoint sample_noise (args : Args T) (params : model T) (st : rng)
    : list (list T) :=
  match params with
  | [] => []
  | p :: rest =>
      let '(eps, st') := get_pertubation args p st in
      eps :: sample_noise args rest st'
  end.

(** [noise(seed)]: the per-sample noise of a seed. *)
Definition noise (args : Args T) (parent_model : model T) (seed : Z)
    : list (list T) :=
  sample_noise args parent_model (manual_seed seed).

End Noise.

(** Safe mutation divides the noise by the sensitivities and by its own
    standard deviation.  Over the reals these divisions have a meaning only
    for non-zero divisors (the code then yields inf or NaN, which its
    assertions reject): [divisors_nonzero] says that, along the draws for
    the given tensors, every sensitivity is non-zero, the tensor has at
    least two elements and the standard deviation is non-zero. *)
Fixpoint divisors_nonzero `{TorchRNG R} (args : Args R) (params : model R)
    (st : rng) : Prop :=
  match params with
  | [] => True
  | p :: rest =>
      let eps := tdiv (normal_ (length (data p)) st).1 (grad p) in
      (Forall (fun g => g <> 0%R) (grad p) /\
       2 <= length eps /\
       tstd eps <> 0%R) /\
      divisors_nonzero args rest (get_pertubation args p st).2
  end.

(** The noise of a seed is a tensor of real numbers: either safe mutation is
    off or no division by zero occurs. *)
Definition noise_is_real `{TorchRNG R} (args : Args R) (params : model R)
    (seed : Z) : Prop :=
  safe_mutation args = true -> divisors_nonzero args params (manual_seed seed).

(** The antithetic sign: [-1] when [is_anti] holds, [+1] otherwise. *)
Definition sign_of (is_anti : bool) : R := if is_anti then (-1)%R else 1%R.

(** The squared norm of a tensor and of a whole noise vector. *)
Definition sq_sum (eps : list R) : R := Rsum (map (fun x => x * x)%R eps).

(** The elementwise sum of a list of tensors of a given size. *)
Definition tensor_sum (size : nat) (ts : list (list R)) : list R :=
  foldl tadd (tzeros size) ts.

(** The scale factors of the two estimators. *)
Definition param_scale (args : Args R) : R :=
  (1 / (INR (agents args) * (sigma args * sigma args)))%R.
Definition beta_scale (args : Args R) (b : R) : R :=
  (1 / (INR (agents args) * Rtrigo_def.exp b))%R.

(** What one parameter tensor of one agent adds to [beta_gradient]. *)
Definition beta_term (args : Args R) (retrn : R) (eps : list R) : R :=
  if optimize_sigma args then
    match beta args with
    | Some b => (beta_scale args b * retrn * (sq_sum eps - 1))%R
    | None => 0%R
    end
  else 0%R.

(** The noise tensors of agent [i] and the factor they are weighted with. *)
Definition agent_noise `{TorchRNG R} (args : Args R) (parent_model : model R)
    (random_seeds : list Z) (i : nat) : list (list R) :=
  noise args parent_model (random_seeds !!! i).
Definition agent_factor (weights : list R) (is_anti_list : list bool)
    (i : nat) : R :=
  (weights !!! i * sign_of (is_anti_list !!! i))%R.

(** The update of one gradient buffer by agent [i]. *)
Definition add_agent (args : Args R) (weights : list R)
    (is_anti_list : list bool) (i : nat) (old eps : list R) : list R :=
  tadd old (tscale (param_scale args)
              (tscale (agent_factor weights is_anti_list i) eps)).

(** What agent [i] adds to [beta_gradient]. *)
Definition agent_beta `{TorchRNG R} (args : Args R) (parent_model : model R)
    (weights : list R) (random_seeds : list Z) (i : nat) : R :=
  Rsum (map (beta_term args (weights !!! i))
            (agent_noise args parent_model random_seeds i)).

(** The accumulated parameter gradient of one tensor, as the estimator
    writes it: the common factor times the sum over the agents. *)
Definition accumulated_gradient `{TorchRNG R} (args : Args R)
    (parent_model : model R) (weights : list R) (random_seeds : list Z)
    (is_anti_list : list bool) (layer size : nat) : list R :=
  tscale (1 / (INR (agents args) * (sigma args * sigma args)))%R
    (tensor_sum size
       (map (fun i =>
               tscale (weights !!! i * sign_of (is_anti_list !!! i))%R
                      (noise args parent_model (random_seeds !!! i) !!! layer))
            (seq 0 (agents args)))).

(** The accumulated log-variance gradient as the loops compute it: one
    term per agent and per parameter tensor. *)
Definition accumulated_beta `{TorchRNG R} (args : Args R)
    (parent_model : model R) (weights : list R) (random_seeds : list Z) : R :=
  Rsum (map (agent_beta args parent_model weights random_seeds)
            (seq 0 (agents args))).


(** ** Mirror images *)

(** [model1] and [model2] mirror each other around the parent: tensor by
    tensor, one is the parent plus a displacement, the other the parent
    minus the same displacement. *)
Definition mirrored (parent_model model1 model2 : model R) : Prop :=
  length model1 = length parent_model /\
  length model2 = length parent_model /\
  forall l p p1 p2,
    parent_model !! l = Some p -> model1 !! l = Some p1 ->
    model2 !! l = Some p2 ->
    exists delta,
      length delta = length (data p) /\
      data p1 = tadd (data p) delta /\
      data p2 = tsub (data p) delta.

(** Gradient buffers have the shape of their tensors. *)
Definition well_shaped (m : model R) : Prop :=
  Forall (fun p => length (grad p) = length (data p)) m.

(** The tensors [es_parameters()] yields, in its order. *)
Definition es_tensors {T : Type} (parent_model : model T) (es : list nat)
    : model T :=
  omap (fun i => parent_model !! i) es.

(** ** Drawn seeds and dispatched jobs *)

(** The contract of [np.random.randint(high)]: an integer in [[0, high)]. *)
Definition randint_in_range `{NumpyRNG} : Prop :=
  forall (high : Z) (st : np_rng),
    (0 < high)%Z -> (0 <= (randint high st).1 < high)%Z.

(** The seeds drawn by [n] iterations of the loop, and the generator after
    them. *)
Fixpoint drawn_seeds `{NumpyRNG} (n : nat) (st : np_rng) : list Z :=
  match n with
  | 0 => []
  | S n' => let '(s, st') := randint (2 ^ 30) st in s :: drawn_seeds n' st'
  end.

Fixpoint np_rng_after `{NumpyRNG} (n : nat) (st : np_rng) : np_rng :=
  match n with
  | 0 => st
  | S n' => let '(_, st') := randint (2 ^ 30) st in np_rng_after n' st'
  end.

(** The two models [perturb_model] returns for a seed. *)
Definition model_plus `{TorchRNG R} (es_parameters : list nat)
    (args : Args R) (parent_model : model R) (seed : Z) : model R :=
  match perturb_model es_parameters args parent_model seed with
  | Ok (model1, _) => model1
  | Raise _ => []
  end.
Definition model_minus `{TorchRNG R} (es_parameters : list nat)
    (args : Args R) (parent_model : model R) (seed : Z) : model R :=
  match perturb_model es_parameters args parent_model seed with
  | Ok (_, model2) => model2
  | Raise _ => []
  end.

(** The two worker processes of a seed, in the order they are started. *)
Definition perturbed_jobs `{TorchRNG R} (es_parameters : list nat)
    (args : Args R) (parent_model : model R) (seed : Z) : list (job R) :=
  [MkJob (model_minus es_parameters args parent_model seed)
         (Seed seed) (Neg true) false;
   MkJob (model_plus es_parameters args parent_model seed)
         (Seed seed) (Neg false) false].

(** The worker process of the unperturbed model. *)
Definition unperturbed_job (parent_model : model R) : job R :=
  MkJob parent_model dummy_seed dummy_neg true.

(** How often a seed value was drawn. *)
Definition times_drawn (s : Z) (seeds : list Z) : nat :=
  length (List.filter (Z.eqb s) seeds).

(** How many jobs carry seed [s] with flag [is_negative], and how many
    carry seed [s] at all. *)
Definition is_job (s : Z) (is_negative : bool) (j : job R) : bool :=
  match job_seed j, job_neg j with
  | Seed z, Neg b => Z.eqb s z && Bool.eqb is_negative b
  | _, _ => false
  end.
Definition count_jobs (s : Z) (is_negative : bool) (jobs : list (job R)) : nat :=
  length (List.filter (is_job s is_negative) jobs).
Definition has_seed (s : Z) (j : job R) : bool :=
  match job_seed j with
  | Seed z => Z.eqb s z
  | dummy_seed => false
  end.
Definition seed_occurrences (s : Z) (jobs : list (job R)) : nat :=
  length (List.filter (has_seed s) jobs).

(** ** Statistics *)

(** Every per-generation series of the statistics has [n] entries. *)
Definition aligned {T : Type} (stats : Stats T) (n : nat) : Prop :=
  length (st_generations stats) = n /\
  length (st_episodes stats) = n /\
  length (st_observations stats) = n /\
  length (st_walltimes stats) = n /\
  length (st_return_avg stats) = n /\
  length (st_return_var stats) = n /\
  length (st_return_max stats) = n /\
  length (st_return_min stats) = n /\
  length (st_return_unp stats) = n /\
  length (st_unp_rank stats) = n /\
  length (st_sigma stats) = n /\
  length (st_lr stats) = n.

(** ** Sigma, sensitivities *)

(** [new_sigma] as computed from [beta]. *)
Definition sigma_of_beta (b : R) : R :=
  R_sqrt.sqrt (0.5 * Rtrigo_def.exp b).

(** The sum over the output units of the squared gradients of parameter
    [pid], and its square root. *)
Definition sum_of_squares {T : Type} `{Scalar T} (dy_dw : nat -> nat -> list T)
    (n_outputs pid : nat) : list T :=
  foldl (fun acc idx => tadd acc (tpow2 (dy_dw idx pid)))
        (tpow2 (dy_dw 0 pid)) (seq 1 (n_outputs - 1)).
Definition root_sum_square {T : Type} `{Scalar T}
    (dy_dw : nat -> nat -> list T) (n_outputs pid : nat) : list T :=
  tsqrt (sum_of_squares dy_dw n_outputs pid).

(** The two masked assignments on one element. *)
Definition clip {T : Type} `{Scalar T} (x : T) : T :=
  let x := if ltb x (frac 1 100000) then of_Z 1 else x in
  if ltb (of_Z 100000) x then of_Z 100000 else x.

(** A finite value within the floor and the ceiling. *)
Definition in_range (x : xfloat) : Prop :=
  exists r, x = Fin r /\ (1 / 100000 <= r <= 100000)%R.

(** ** Concrete collaborators and inputs for the examples *)

(** A deterministic toy generator: the state counts up from the seed and
    each draw returns the state. *)
Definition counter_torch : TorchRNG R := {|
  rng := Z;
  manual_seed := fun seed => seed;
  randn := fun st => (IZR st, (st + 1)%Z);
|}.

(** The same generator for [xfloat] tensors. *)
Definition counter_torch_x : TorchRNG xfloat := {|
  rng := Z;
  manual_seed := fun seed => seed;
  randn := fun st => (Fin (IZR st), (st + 1)%Z);
|}.

(** A generator that replays a recorded sequence of raw draws. *)
Definition replay_numpy : NumpyRNG := {|
  np_rng := list Z;
  randint := fun high st =>
    match st with
    | x :: st' => ((x mod high)%Z, st')
    | [] => (0%Z, [])
    end;
|}.

(** Plain gradient descent with learning rate [lr]. *)
Definition sgd (lr : R) : Optimizer R := {|
  optimizer := unit;
  step_model := fun o m =>
    (o, map (fun p => Param (tsub (data p) (tscale lr (grad p))) (grad p)) m);
  step_beta := fun _ b g => (b - lr * g)%R;
|}.

Definition example_args : Args R :=
  MkArgs 2 (1 / 10)%R (Some 0%R) false true 100.
Definition example_args4 : Args R :=
  MkArgs 4 (1 / 10)%R None false false 100.
(** The same settings with safe mutation switched on. *)
Definition example_safe_args : Args R :=
  MkArgs 2 (1 / 10)%R (Some 0%R) true true 100.
Definition example_model : model R := [Param [1; 2]%R [1; 1]%R].
Definition example_returns : list R := [3; 1]%R.
Definition example_seeds : list Z := [7; 7]%Z.
Definition example_is_anti : list bool := [false; true].

Definition example_stats : Stats R :=
  MkStats [0; 1]%nat [2; 4]%nat [10; 20]%nat [1; 2]%R [1; 1]%R [0; 0]%R
          [2; 2]%R [0; 0]%R [1; 2]%R [1; 1]%nat [0.1; 0.07]%R [1; 1]%R 0%R.
Definition example_checkpoint : Checkpoint R unit :=
  save_checkpoint example_model tt (Some example_model) (Some tt) example_stats.

Definition example_dy_dw : nat -> nat -> list xfloat := fun _ _ => [Fin 1].
Definition example_xmodel : model xfloat := [Param [Fin 0] [Fin 0]].

(** Sigma is optimized and [exp(beta)] is zero. *)
Definition inf_args : Args xfloat :=
  MkArgs 2 (Fin 1) (Some NInf) false true 100.
Definition inf_returns : list xfloat := [Fin 1; Fin 0].
Definition inf_seeds : list Z := [2; 0]%Z.
Definition inf_is_anti : list bool := [false; false].

(** Sigma is optimized and [beta] is NaN. *)
Definition nan_args : Args xfloat :=
  MkArgs 2 (Fin 1) (Some NaN) false true 100.


(** Statistics of one generation, and the same with a [NaN] unperturbed
    return. *)
Definition example_xstats (return_unp : xfloat) : Stats xfloat :=
  MkStats [0] [2] [10] [Fin 1] [Fin 1] [Fin 0] [Fin 1] [Fin 1] [return_unp]
          [1] [Fin 1] [Fin 1] (Fin 0).

(** ** Proof automation *)

(** Unfold the operations of the real instance. *)
Ltac unfold_R :=
  cbn [add sub mul div neg of_Z frac max ltb is_zero isnan isinf sqrt exp
       log R_scalar] in *.

(** Case analysis on a comparison of reals, closing absurd cases. *)
Ltac case_Rlt :=
  match goal with
  | |- context [Rlt_dec ?a ?b] => destruct (Rlt_dec a b)
  end.

Ltac case_R :=
  match goal with
  | |- context [Req_dec_T ?a ?b] =>
      destruct (Req_dec_T a b); try (exfalso; lra)
  | |- context [Rlt_dec ?a ?b] =>
      destruct (Rlt_dec a b); try (exfalso; lra)
  end.
(** * Properties *)

(** ** Lists and sums *)

Section ListFacts.
Context {T : Type} `{Scalar T}.

Lemma insert_key_perm (p : nat * T) (l : list (nat * T)) :
  insert_key p l ≡ₚ p :: l.
Proof.
  induction l as [|q l IH]; simpl; [done|].
  destruct (key_ltb q.2 p.2); [|done].
  rewrite IH. apply Permutation_swap.
Qed.

Lemma sort_keys_perm (l : list (nat * T)) : sort_keys l ≡ₚ l.
Proof.
  induction l as [|p l IH]; simpl; [done|].
  rewrite insert_key_perm. by rewrite IH.
Qed.

Lemma imap_pair_fst {A : Type} (a : list A) (f : nat -> nat) :
  (imap (fun i x => (f i, x)) a).*1 = map f (seq 0 (length a)).
Proof.
  revert f. induction a as [|x a IH]; intros f; simpl; [done|].
  f_equal. rewrite <- seq_shift, map_map. apply (IH (f ∘ S)).
Qed.

Lemma argsort_perm (a : list T) : argsort a ≡ₚ seq 0 (length a).
Proof.
  unfold argsort. rewrite sort_keys_perm.
  pose proof (imap_pair_fst a (fun i => i)) as Hfst. simpl in Hfst.
  change (imap (fun i x => (i, x)) a) with (imap pair a) in Hfst.
  rewrite Hfst. by rewrite map_id.
Qed.

Lemma argsort_length (a : list T) : length (argsort a) = length a.
Proof. rewrite argsort_perm. apply length_seq. Qed.

Lemma argsort_NoDup (a : list T) : NoDup (argsort a).
Proof. rewrite argsort_perm. apply NoDup_seq. Qed.

Lemma argsort_lt (a : list T) (k i : nat) :
  argsort a !! k = Some i -> i < length a.
Proof.
  intros Hk. apply list_elem_of_lookup_2 in Hk.
  rewrite argsort_perm in Hk. apply elem_of_seq in Hk. lia.
Qed.

(** Every entry of the sorted list pairs an index with its key. *)
Lemma sort_keys_entries (a : list T) (k i : nat) (x : T) :
  sort_keys (imap pair a) !! k = Some (i, x) -> a !! i = Some x.
Proof.
  intros Hk. apply list_elem_of_lookup_2 in Hk.
  rewrite sort_keys_perm in Hk.
  apply elem_of_lookup_imap in Hk as (j & y & Heq & Hj).
  by simplify_eq.
Qed.

End ListFacts.

(** ** The real instance: sums *)

Section RealSums.
Local Open Scope R_scope.

Lemma Rltb_true (x y : R) : Rltb x y = true <-> x < y.
Proof. unfold Rltb. destruct (Rlt_dec x y); split; intros; (done || lra). Qed.

Lemma Rltb_false (x y : R) : Rltb x y = false <-> y <= x.
Proof. unfold Rltb. destruct (Rlt_dec x y); split; intros; (done || lra). Qed.

Lemma Reqb_false (x y : R) : Reqb x y = false <-> x <> y.
Proof. unfold Reqb. destruct (Req_dec_T x y); split; intros; done. Qed.

Lemma of_nat_INR (n : nat) : of_nat (T := R) n = INR n.
Proof. unfold of_nat. unfold_R. symmetry. apply INR_IZR_INZ. Qed.

Lemma foldl_Rplus (a : R) (l : list R) : foldl Rplus a l = a + Rsum l.
Proof.
  revert a. induction l as [|x l IH]; intros a; simpl; [lra|].
  rewrite IH. lra.
Qed.

Lemma tsum_Rsum (l : list R) : tsum l = Rsum l.
Proof. unfold tsum, zero. unfold_R. rewrite foldl_Rplus. lra. Qed.

Lemma Rsum_replicate_0 (n : nat) : Rsum (replicate n 0) = 0.
Proof. induction n as [|n IH]; simpl; [done|]. rewrite IH. lra. Qed.

Lemma Rsum_insert (l : list R) (i : nat) (x v : R) :
  l !! i = Some x -> Rsum (<[i := v]> l) = Rsum l - x + v.
Proof.
  revert i. induction l as [|y l IH]; intros i Hi; [done|].
  destruct i as [|i]; simpl in *.
  - simplify_eq. lra.
  - rewrite (IH i Hi). lra.
Qed.

Lemma Rsum_map_affine (c d : R) (l : list R) :
  Rsum (map (fun x => x / c - d) l) = Rsum l / c - INR (length l) * d.
Proof.
  induction l as [|x l IH]; [simpl; lra|].
  rewrite length_cons, S_INR. simpl. rewrite IH. lra.
Qed.



Lemma Rsum_map_ext {A : Type} (f g : A -> R) (l : list A) :
  (forall a, a ∈ l -> f a = g a) -> Rsum (map f l) = Rsum (map g l).
Proof.
  induction l as [|x l IH]; intros Hfg; simpl; [done|].
  rewrite Hfg by left. rewrite IH; [done|].
  intros a Ha. apply Hfg. by right.
Qed.

Lemma Rsum_nonneg (l : list R) : Forall (fun x => 0 <= x) l -> 0 <= Rsum l.
Proof. induction 1; simpl; lra. Qed.


End RealSums.

(** ** Fitness shaping *)

Section FitnessShaping.
Local Open Scope R_scope.

Lemma utility_rank_utility (n k : nat) : utility (T := R) n k = rank_utility n k.
Proof.
  unfold utility, rank_utility, zero, one. rewrite !of_nat_INR. unfold_R.
  by rewrite Nat.add_1_r, S_INR.
Qed.

Lemma rank_utility_nonneg (n k : nat) : 0 <= rank_utility n k.
Proof. apply Rmax_l. Qed.

Lemma rank_utility_first (n : nat) : (1 <= n)%nat -> 0 < rank_utility n 0.
Proof.
  intros Hn. unfold rank_utility. simpl INR.
  apply Rlt_le_trans with (ln (INR n / 2 + 1) - ln (0 + 1)); [|apply Rmax_r].
  assert (1 <= INR n) by (apply (le_INR 1); lia).
  replace (0 + 1) with 1 by lra. rewrite ln_1.
  assert (0 < ln (INR n / 2 + 1)); [|lra].
  rewrite <- ln_1. apply ln_increasing; lra.
Qed.

Lemma utility_total_pos (n : nat) : (1 <= n)%nat -> 0 < utility_total n.
Proof.
  intros Hn. unfold utility_total.
  destruct n as [|n]; [lia|].
  rewrite <- cons_seq. simpl.
  pose proof (rank_utility_first (S n) Hn).
  assert (0 <= Rsum (map (rank_utility (S n)) (seq 1 n))); [|lra].
  apply Rsum_nonneg, List.Forall_forall. intros x Hx.
  apply list_elem_of_In in Hx. apply list_elem_of_fmap in Hx as (k & -> & _).
  apply rank_utility_nonneg.
Qed.

(** The assignment loop writes the utility of rank [k] at position
    [sorted_indices[k]] and adds it to the sum, as long as the positions
    are distinct and still hold zero. *)
Lemma assign_utilities_spec (n : nat) (si ks : list nat) (u : list R) :
  NoDup si -> NoDup ks ->
  (forall k, k ∈ ks -> exists i, si !! k = Some i /\ u !! i = Some 0) ->
  exists u',
    assign_utilities n si ks u = Ok u' /\
    length u' = length u /\
    Rsum u' = Rsum u + Rsum (map (rank_utility n) ks) /\
    (forall k i, k ∈ ks -> si !! k = Some i -> u' !! i = Some (rank_utility n k)) /\
    (forall j, (forall k, k ∈ ks -> si !! k <> Some j) -> u' !! j = u !! j).
Proof.
  intros Hsi. revert u. induction ks as [|k ks IH]; intros u Hks Hzero.
  { exists u. simpl. split; [done|]. split; [done|]. split; [lra|].
    split; [|done]. intros k i Hk. by apply elem_of_nil in Hk. }
  apply NoDup_cons in Hks as [Hk Hks].
  destruct (Hzero k) as (i & Hki & Hui); [left|].
  assert (Hlt : (i < length u)%nat) by (by eapply lookup_lt_Some).
  assert (Hother : forall k', k' ∈ ks -> si !! k' <> Some i).
  { intros k' Hk' Hk'i. pose proof (NoDup_lookup _ _ _ _ Hsi Hki Hk'i).
    by subst. }
  destruct (IH (<[i := utility n k]> u) Hks) as (u' & Hrun & Hlen & Hsum & Hset & Hkeep).
  { intros k' Hk'. destruct (Hzero k') as (i' & Hk'i' & Hui'); [by right|].
    exists i'. split; [done|]. rewrite list_lookup_insert_ne; [done|].
    intros ->. by apply (Hother k'). }
  exists u'. simpl. unfold getitem. rewrite Hki. simpl.
  rewrite decide_True by done. split; [done|].
  split; [by rewrite Hlen, length_insert|].
  split.
  { rewrite Hsum, (Rsum_insert _ _ _ _ Hui), utility_rank_utility. lra. }
  split.
  - intros k0 i0 Hk0 Hk0i0. apply elem_of_cons in Hk0 as [->|Hk0].
    + rewrite Hki in Hk0i0. simplify_eq.
      rewrite Hkeep by done.
      rewrite list_lookup_insert_eq by done. by rewrite utility_rank_utility.
    + by apply Hset.
  - intros j Hj. rewrite Hkeep.
    + apply list_lookup_insert_ne. intros ->. apply (Hj k); [left|done].
    + intros k' Hk'. apply Hj. by right.
Qed.

(** [fitness_shaping] in closed form: it succeeds on a non-empty list, the
    weights sum to zero, and position [sorted_indices[k]] holds the shaped
    weight of rank [k]. *)
Lemma fitness_shaping_closed_form (returns : list R) :
  let n := length returns in
  (1 <= n)%nat ->
  exists weights,
    fitness_shaping returns = Ok weights /\
    length weights = n /\
    Rsum weights = 0 /\
    (forall k i, argsort (tneg returns) !! k = Some i ->
                 weights !! i = Some (shaped_weight n k)).
Proof.
  intros n Hn. unfold fitness_shaping. fold n.
  set (si := argsort (tneg returns)).
  assert (Hsilen : length si = n).
  { unfold si. rewrite argsort_length. apply length_map. }
  destruct (assign_utilities_spec n si (seq 0 n) (tzeros n))
    as (u & Hrun & Hlen & Hsum & Hset & _).
  { apply argsort_NoDup. }
  { apply NoDup_seq. }
  { intros k Hk. apply elem_of_seq in Hk.
    destruct (lookup_lt_is_Some_2 si k) as [i Hi]; [lia|].
    exists i. split; [done|]. apply lookup_replicate_2.
    apply argsort_lt in Hi. unfold tneg in Hi. rewrite length_map in Hi.
    done. }
  rewrite Hrun. simpl. rewrite decide_False by lia. simpl.
  unfold tzeros in Hlen, Hsum. rewrite length_replicate in Hlen.
  unfold zero in Hsum. unfold_R. rewrite Rsum_replicate_0 in Hsum.
  fold (utility_total n) in Hsum. rewrite Rplus_0_l in Hsum.
  pose proof (utility_total_pos n Hn) as Hpos.
  assert (HnR : 1 <= INR n) by (apply (le_INR 1); lia).
  unfold tsub_scalar, tdiv_scalar. rewrite map_map. unfold_R.
  rewrite tsum_Rsum, Hsum, <- INR_IZR_INZ.
  eexists. split; [done|]. split; [by rewrite length_map|]. split.
  - rewrite (Rsum_map_affine (utility_total n) (1 / INR n)), Hsum, Hlen.
    field. split; lra.
  - intros k i Hk.
    assert (Hkn : k ∈ seq 0 n).
    { apply elem_of_seq. apply lookup_lt_Some in Hk. lia. }
    pose proof (Hset k i Hkn Hk) as Hui.
    apply (list_lookup_fmap_Some_2 (fun x => x / utility_total n - 1 / INR n)) in Hui.
    exact Hui.
Qed.

(** No real number is NaN: on reals the comparison of [argsort] is [<]. *)
Lemma key_ltb_R (x y : R) : key_ltb x y = Rltb x y.
Proof. unfold key_ltb. unfold_R. apply orb_false_r. Qed.

Lemma insert_key_HdRel (a p : nat * R) (l : list (nat * R)) :
  key_le a p -> HdRel key_le a l -> HdRel key_le a (insert_key p l).
Proof.
  intros Hap Hal. destruct l as [|q l]; cbn [insert_key]; [by constructor|].
  rewrite key_ltb_R. destruct (Rltb q.2 p.2); constructor; [|done].
  by inversion Hal.
Qed.

Lemma insert_key_sorted (p : nat * R) (l : list (nat * R)) :
  Sorted key_le l -> Sorted key_le (insert_key p l).
Proof.
  induction 1 as [|q l Hl IH Hq]; cbn [insert_key]; [by repeat constructor|].
  rewrite key_ltb_R. destruct (Rltb q.2 p.2) eqn:Hlt.
  - apply Rltb_true in Hlt. constructor; [done|].
    apply insert_key_HdRel; [unfold key_le; lra|done].
  - apply Rltb_false in Hlt. constructor; [by constructor|].
    by constructor.
Qed.

Lemma sort_keys_sorted (l : list (nat * R)) : Sorted key_le (sort_keys l).
Proof.
  induction l as [|p l IH]; simpl; [constructor|].
  by apply insert_key_sorted.
Qed.

Lemma Sorted_adjacent {A : Type} (rel : A -> A -> Prop) (l : list A)
    (k : nat) (x y : A) :
  Sorted rel l -> l !! k = Some x -> l !! S k = Some y -> rel x y.
Proof.
  intros Hl. revert k. induction Hl as [|a l Hl IH Ha]; intros k Hx Hy; [done|].
  destruct k as [|k]; simpl in *.
  - simplify_eq. destruct l as [|b l]; [done|]. simpl in Hy. simplify_eq.
    by inversion Ha.
  - by eapply IH.
Qed.

(** [argsort] of the negated returns lists the indices by descending return. *)
Lemma argsort_descending (returns : list R) (k i j : nat) :
  argsort (tneg returns) !! k = Some i ->
  argsort (tneg returns) !! S k = Some j ->
  returns !!! j <= returns !!! i.
Proof.
  unfold argsort. rewrite !list_lookup_fmap.
  destruct (sort_keys _ !! k) as [[i' x]|] eqn:Hk; [|done].
  destruct (sort_keys _ !! S k) as [[j' y]|] eqn:HSk; [|done].
  simpl. intros ? ?. simplify_eq.
  pose proof (Sorted_adjacent _ _ _ _ _ (sort_keys_sorted _) Hk HSk) as Hle.
  apply sort_keys_entries in Hk, HSk. unfold tneg in Hk, HSk.
  rewrite list_lookup_fmap in Hk, HSk.
  destruct (returns !! i) as [ri|] eqn:Hi; [|done].
  destruct (returns !! j) as [rj|] eqn:Hj; [|done].
  simpl in Hk, HSk. simplify_eq.
  rewrite (list_lookup_total_correct _ _ _ Hi).
  rewrite (list_lookup_total_correct _ _ _ Hj).
  unfold key_le in Hle. simpl in Hle. unfold_R. lra.
Qed.

End FitnessShaping.

(** ** The gradient estimator *)

Section Noise.
Context {T : Type} `{Scalar T} `{TorchRNG T}.

Lemma sample_noise_length (args : Args T) (params : model T) (st : rng) :
  length (sample_noise args params st) = length params.
Proof.
  revert st. induction params as [|p rest IH]; intros st; simpl; [done|].
  destruct (get_pertubation args p st) as [eps st']. simpl. by rewrite IH.
Qed.

End Noise.

Lemma bind_Ok {A B : Type} (f : A -> result B) (a : A) : mbind f (Ok a) = f a.
Proof. reflexivity. Qed.

Section GradientFacts.
Context `{TorchRNG R}.
Local Open Scope R_scope.

Lemma tsum_tpow2 (eps : list R) : tsum (tpow2 eps) = sq_sum eps.
Proof. by rewrite tsum_Rsum. Qed.

Lemma py_div_param_scale (args : Args R) :
  agents args <> 0%nat -> sigma args <> 0 ->
  py_div one (mul (of_nat (agents args)) (pow2 (sigma args)))
  = Ok (param_scale args).
Proof.
  intros HN Hs. unfold py_div, param_scale, pow2, one. rewrite of_nat_INR.
  unfold_R.
  assert (INR (agents args) <> 0) by (by apply not_0_INR).
  assert (INR (agents args) * (sigma args * sigma args) <> 0).
  { repeat apply Rmult_integral_contrapositive_currified; done. }
  by rewrite (proj2 (Reqb_false _ _)).
Qed.

Lemma layer_loop_spec (args : Args R) (retrn mult : R) (params : model R) :
  agents args <> 0%nat -> sigma args <> 0 ->
  (optimize_sigma args = true -> is_Some (beta args)) ->
  forall (done todo : list (list R)) (st : rng) (bg : R),
  length todo = length params ->
  layer_loop args retrn mult (length done) params st (done ++ todo) bg
  = Ok (done ++ zip_with
                  (fun old eps =>
                     tadd old (tscale (param_scale args)
                                 (tscale (retrn * mult) eps)))
                  todo (sample_noise args params st),
        bg + Rsum (map (beta_term args retrn) (sample_noise args params st))).
Proof.
  intros HN Hs Hbeta.
  induction params as [|p rest IH]; intros done todo st bg Hlen.
  { destruct todo; [|done]. simpl. do 2 f_equal. lra. }
  destruct todo as [|old todo]; [done|]. simpl in Hlen.
  cbn [layer_loop sample_noise].
  destruct (get_pertubation args p st) as [eps st'].
  unfold getitem. rewrite list_lookup_middle by done. rewrite bind_Ok.
  rewrite py_div_param_scale by done. rewrite bind_Ok.
  rewrite insert_app_r_alt by apply Nat.le_refl.
  rewrite Nat.sub_diag. cbn [insert list_insert].
  set (new := tadd old _).
  assert (Hbg : (if optimize_sigma args
                 then match beta args with
                      | Some b =>
                          Ok (add bg (mul (mul (div one (mul (of_nat (agents args)) (exp b))) retrn)
                                          (sub (tsum (tpow2 eps)) one)))
                      | None => Raise AttributeError
                      end
                 else Ok bg) = Ok (bg + beta_term args retrn eps)).
  { unfold beta_term. destruct (optimize_sigma args).
    - destruct Hbeta as [b Hb]; [done|]. rewrite Hb.
      unfold beta_scale, one. rewrite of_nat_INR, tsum_tpow2. unfold_R. done.
    - f_equal. lra. }
  rewrite Hbg, bind_Ok.
  pose proof (IH (done ++ [new]) todo st' (bg + beta_term args retrn eps)) as IH'.
  rewrite length_app, Nat.add_1_r, <- app_assoc in IH'.
  cbn [app length] in IH'. rewrite IH' by lia.
  rewrite <- app_assoc. cbn [app zip_with map]. unfold Rsum. cbn [foldr].
  f_equal. f_equal. lra.
Qed.

End GradientFacts.

Section GradientLoop.
Context `{TorchRNG R}.
Local Open Scope R_scope.

Variables (args : Args R) (parent_model : model R).
Variables (weights : list R) (random_seeds : list Z) (is_anti_list : list bool).

(** Each gradient buffer on its own: the fold over the agents. *)
Lemma agent_fold_lookup (agent_ids : list nat) (wg : list (list R))
    (layer : nat) (old : list R) :
  length wg = length parent_model ->
  wg !! layer = Some old ->
  foldl (fun wg i => zip_with (add_agent args weights is_anti_list i) wg
                                (agent_noise args parent_model random_seeds i)) wg agent_ids
    !! layer
  = Some (foldl (fun t i =>
                 add_agent args weights is_anti_list i t
                   (agent_noise args parent_model random_seeds i !!! layer))
              old agent_ids).
Proof.
  revert wg old. induction agent_ids as [|i ids IH]; intros wg old Hlen Hold;
    [done|].
  cbn [foldl].
  assert (Hnoise : length (agent_noise args parent_model random_seeds i)
                   = length parent_model).
  { unfold agent_noise, noise. apply sample_noise_length. }
  apply IH.
  - rewrite length_zip_with. lia.
  - rewrite lookup_zip_with, Hold. cbn.
    assert (Hl : (layer < length (agent_noise args parent_model random_seeds i))%nat).
    { rewrite Hnoise, <- Hlen. by eapply lookup_lt_Some. }
    by rewrite (list_lookup_lookup_total_lt _ _ Hl).
Qed.

Lemma tscale_tadd (c : R) (a b : list R) :
  tscale c (tadd a b) = tadd (tscale c a) (tscale c b).
Proof.
  unfold tscale, tadd. revert b.
  induction a as [|x a IH]; intros [|y b]; [done..|].
  cbn [zip_with map]. f_equal; [unfold_R; lra | apply IH].
Qed.

Lemma tscale_tzeros (c : R) (n : nat) : tscale c (tzeros n) = tzeros n.
Proof.
  unfold tscale, tzeros, zero. induction n as [|n IH]; [done|].
  cbn [replicate map]. f_equal; [unfold_R; lra | exact IH].
Qed.

(** The common factor leaves the sum. *)
Lemma agent_fold_factor (agent_ids : list nat) (layer : nat) (acc : list R) :
  foldl (fun t i =>
           add_agent args weights is_anti_list i t
             (agent_noise args parent_model random_seeds i !!! layer))
        (tscale (param_scale args) acc) agent_ids
  = tscale (param_scale args)
      (foldl tadd acc
         (map (fun i =>
                 tscale (agent_factor weights is_anti_list i)
                   (agent_noise args parent_model random_seeds i !!! layer))
              agent_ids)).
Proof.
  revert acc. induction agent_ids as [|i ids IH]; intros acc; [done|].
  cbn [foldl map]. unfold add_agent at 2. rewrite <- tscale_tadd. apply IH.
Qed.

(** With exact reals no assertion of the storing loop can fail. *)
Lemma set_gradients_R (params : model R) (layer : nat) (wg : list (list R)) :
  (layer + length params <= length wg)%nat ->
  set_gradients layer params wg
  = Ok (imap (fun l p => Param (data p) (tneg (wg !!! (layer + l)%nat))) params).
Proof.
  revert layer. induction params as [|p rest IH]; intros layer Hlen; [done|].
  cbn [set_gradients length] in *. unfold getitem.
  rewrite (list_lookup_lookup_total_lt wg layer) by lia. rewrite bind_Ok.
  assert (Hnan : forall a : list R, tany isnan a = false)
    by (intros a; induction a; done).
  assert (Hinf : forall a : list R, tany isinf a = false)
    by (intros a; induction a; done).
  rewrite Hnan, Hinf. cbn [negb assert]. rewrite !bind_Ok.
  rewrite IH by lia. rewrite bind_Ok. cbn [imap]. rewrite Nat.add_0_r.
  do 2 f_equal. apply imap_ext. intros l q _. cbn.
  by rewrite Nat.add_succ_r.
Qed.

Hypothesis agents_pos : agents args <> 0%nat.
Hypothesis sigma_nonzero : sigma args <> 0.
Hypothesis beta_present : optimize_sigma args = true -> is_Some (beta args).

Lemma agent_loop_spec (agent_ids : list nat) :
  (forall i, i ∈ agent_ids ->
     (i < length weights /\ i < length random_seeds /\ i < length is_anti_list)%nat) ->
  forall (wg : list (list R)) (bg : R),
  length wg = length parent_model ->
  agent_loop args parent_model weights random_seeds is_anti_list agent_ids wg bg
  = Ok (foldl (fun wg i => zip_with (add_agent args weights is_anti_list i) wg
                                (agent_noise args parent_model random_seeds i)) wg agent_ids,
        bg + Rsum (map (agent_beta args parent_model weights random_seeds) agent_ids)).
Proof.
  induction agent_ids as [|i ids IH]; intros Hids wg bg Hlen.
  { simpl. do 2 f_equal. lra. }
  destruct (Hids i) as (Hw & Hs & Ha); [left|].
  cbn [agent_loop foldl]. unfold getitem.
  rewrite (list_lookup_lookup_total_lt is_anti_list i Ha), bind_Ok.
  rewrite (list_lookup_lookup_total_lt weights i Hw), bind_Ok.
  rewrite (list_lookup_lookup_total_lt random_seeds i Hs), bind_Ok.
  pose proof (layer_loop_spec args (weights !!! i)
                (if (is_anti_list !!! i : bool) then of_Z (-1) else of_Z 1)
                parent_model agents_pos sigma_nonzero beta_present
                [] wg (manual_seed (random_seeds !!! i)) bg Hlen) as Hlayer.
  cbn [app length] in Hlayer. rewrite Hlayer, bind_Ok. clear Hlayer.
  replace (weights !!! i * (if (is_anti_list !!! i : bool) then of_Z (-1) else of_Z 1))
    with (agent_factor weights is_anti_list i)
    by (unfold agent_factor, sign_of; by destruct (is_anti_list !!! i)).
  fold (noise args parent_model (random_seeds !!! i)).
  fold (agent_noise args parent_model random_seeds i).
  fold (agent_beta args parent_model weights random_seeds i).
  change (fun old eps => tadd old _)
    with (add_agent args weights is_anti_list i).
  rewrite IH.
  - cbn [map]. unfold Rsum. cbn [foldr]. do 2 f_equal. lra.
  - intros j Hj. apply Hids. by right.
  - rewrite length_zip_with. unfold agent_noise, noise.
    rewrite sample_noise_length. lia.
Qed.

End GradientLoop.

Section GradientClosedForm.
Context `{TorchRNG R}.
Local Open Scope R_scope.

Lemma agent_fold_length (args : Args R) (parent_model : model R)
    (weights : list R) (random_seeds : list Z) (is_anti_list : list bool)
    (agent_ids : list nat) (wg : list (list R)) :
  length wg = length parent_model ->
  length (foldl (fun wg i =>
                   zip_with (add_agent args weights is_anti_list i) wg
                            (agent_noise args parent_model random_seeds i))
                wg agent_ids)
  = length parent_model.
Proof.
  revert wg. induction agent_ids as [|i ids IH]; intros wg Hwg; [done|].
  cbn [foldl]. apply IH. rewrite length_zip_with. unfold agent_noise, noise.
  rewrite sample_noise_length. lia.
Qed.

Lemma compute_gradients_closed_form (args : Args R) (parent_model : model R)
    (returns : list R) (random_seeds : list Z) (is_anti_list : list bool) :
  agents args <> 0%nat ->
  length returns = agents args ->
  length random_seeds = agents args ->
  (agents args <= length is_anti_list)%nat ->
  sigma args <> 0 ->
  (optimize_sigma args = true -> is_Some (beta args)) ->
  exists weights,
    fitness_shaping returns = Ok weights /\
    length weights = agents args /\
    Rsum weights = 0 /\
    compute_gradients args parent_model returns random_seeds is_anti_list
    = Ok (imap (fun layer p =>
                  Param (data p)
                    (tneg (accumulated_gradient args parent_model weights
                             random_seeds is_anti_list layer (length (data p)))))
               parent_model,
          if optimize_sigma args
          then Some (- accumulated_beta args parent_model weights random_seeds)
          else None).
Proof.
  intros HN Hret Hseeds Hanti Hsigma Hbeta.
  destruct (fitness_shaping_closed_form returns) as (weights & Hfs & Hlen & Hsum & _);
    [lia|].
  rewrite Hret in Hlen.
  exists weights. repeat split; [done..|].
  unfold compute_gradients.
  rewrite !bool_decide_eq_true_2 by congruence.
  cbn [assert]. rewrite !bind_Ok, Hfs, bind_Ok.
  set (wg0 := map (fun p => tzeros (length (data p))) parent_model).
  assert (Hwg0 : length wg0 = length parent_model) by apply length_map.
  rewrite (agent_loop_spec args parent_model weights random_seeds is_anti_list
             HN Hsigma Hbeta (seq 0 (agents args))).
  2:{ intros i Hi. apply elem_of_seq in Hi. lia. }
  2:{ done. }
  rewrite bind_Ok. cbn beta iota.
  set (wg := foldl _ wg0 _).
  assert (Hwg : forall layer p, parent_model !! layer = Some p ->
            wg !! layer
            = Some (accumulated_gradient args parent_model weights random_seeds
                      is_anti_list layer (length (data p)))).
  { intros layer p Hp. unfold wg.
    rewrite (agent_fold_lookup args parent_model weights random_seeds
               is_anti_list _ wg0 layer (tzeros (length (data p))) Hwg0).
    2:{ unfold wg0.
        apply (list_lookup_fmap_Some_2 (fun p => tzeros (length (data p)))).
        exact Hp. }
    f_equal.
    rewrite <- (tscale_tzeros (param_scale args) (length (data p))).
    apply agent_fold_factor. }
  rewrite set_gradients_R.
  2:{ unfold wg. rewrite agent_fold_length by done. simpl. lia. }
  rewrite bind_Ok.
  assert (Hgrads :
    imap (fun l p => Param (data p) (tneg (wg !!! (0 + l)%nat))) parent_model
    = imap (fun layer p =>
              Param (data p)
                (tneg (accumulated_gradient args parent_model weights
                         random_seeds is_anti_list layer (length (data p)))))
           parent_model).
  { apply imap_ext. intros l p Hp. cbn.
    by rewrite (list_lookup_total_correct _ _ _ (Hwg l p Hp)). }
  rewrite Hgrads. unfold set_beta_gradient.
  destruct (optimize_sigma args); [|done].
  destruct Hbeta as [b Hb]; [done|]. rewrite Hb.
  cbn. do 3 f_equal. unfold accumulated_beta, zero. unfold_R. lra.
Qed.




End GradientClosedForm.

(** The accumulated log-variance gradient, written three ways. *)
Section BetaForms.
Context `{TorchRNG R}.
Local Open Scope R_scope.




End BetaForms.

(** ** Antithetic perturbations *)

Section Mirror.
Context `{TorchRNG R}.
Local Open Scope R_scope.

Lemma lookup_map {A B : Type} (f : A -> B) (l : list A) (i : nat) :
  map f l !! i = f <$> l !! i.
Proof. apply list_lookup_fmap. Qed.

Lemma normal_length (n : nat) (st : rng) : length (normal_ n st).1 = n.
Proof.
  revert st. induction n as [|n IH]; intros st; [done|].
  cbn [normal_]. destruct (randn st) as [x st1].
  specialize (IH st1). destruct (normal_ n st1) as [xs st2].
  cbn in *. by rewrite IH.
Qed.

Lemma get_pertubation_length (args : Args R) (p : param R) (st : rng) :
  (safe_mutation args = true -> length (grad p) = length (data p)) ->
  length (get_pertubation args p st).1 = length (data p).
Proof.
  intros Hshape. unfold get_pertubation.
  pose proof (normal_length (length (data p)) st) as Hn.
  destruct (normal_ (length (data p)) st) as [eps st']. cbn in Hn.
  destruct (safe_mutation args); [|done].
  cbn. unfold tdiv_scalar, tdiv.
  rewrite length_map, length_zip_with, Hn, Hshape by done. lia.
Qed.

Lemma no_nan_inf_R (a : list R) : no_nan_inf a = Ok tt.
Proof.
  unfold no_nan_inf.
  assert (Hnan : tany isnan a = false) by (induction a; done).
  assert (Hinf : tany isinf a = false) by (induction a; done).
  by rewrite Hnan, Hinf.
Qed.

Lemma tadd_tzeros (d : list R) : tadd d (tzeros (length d)) = d.
Proof.
  unfold tadd, tzeros, zero. induction d as [|x d IH]; [done|].
  cbn [length replicate zip_with]. f_equal; [unfold_R; lra | exact IH].
Qed.

Lemma tsub_tzeros (d : list R) : tsub d (tzeros (length d)) = d.
Proof.
  unfold tsub, tzeros, zero. induction d as [|x d IH]; [done|].
  cbn [length replicate zip_with]. f_equal; [unfold_R; lra | exact IH].
Qed.

Lemma tadd_assoc (a b c : list R) : tadd (tadd a b) c = tadd a (tadd b c).
Proof.
  unfold tadd. revert b c.
  induction a as [|x a IH]; intros [|y b] [|z c]; try done.
  cbn [zip_with]. f_equal; [unfold_R; lra | apply IH].
Qed.

Lemma tsub_tsub (a b c : list R) : tsub (tsub a b) c = tsub a (tadd b c).
Proof.
  unfold tsub, tadd. revert b c.
  induction a as [|x a IH]; intros [|y b] [|z c]; try done.
  cbn [zip_with]. f_equal; [unfold_R; lra | apply IH].
Qed.

Lemma copy_model_mirrored (parent_model : model R) :
  mirrored parent_model (copy_model parent_model) (copy_model parent_model).
Proof.
  unfold mirrored, copy_model. rewrite !length_map.
  do 2 (split; [done|]). intros l p p1 p2 Hp Hp1 Hp2.
  rewrite lookup_map, Hp in Hp1, Hp2. cbn in Hp1, Hp2. simplify_eq.
  exists (tzeros (length (data p))). cbn.
  rewrite tadd_tzeros, tsub_tzeros. unfold tzeros.
  by rewrite length_replicate.
Qed.

(** One step of the loop keeps the two models mirrored. *)
Lemma mirrored_step (parent_model model1 model2 : model R) (i : nat)
    (step : list R) (pp : param R) :
  parent_model !! i = Some pp -> length step = length (data pp) ->
  mirrored parent_model model1 model2 ->
  mirrored parent_model
    (alter (fun p => Param (tadd (data p) step) (grad p)) i model1)
    (alter (fun p => Param (tsub (data p) step) (grad p)) i model2).
Proof.
  intros Hpp Hstep (Hl1 & Hl2 & Hm). unfold mirrored.
  rewrite !length_alter. do 2 (split; [done|]).
  intros l p p1 p2 Hp Hp1 Hp2.
  destruct (decide (l = i)) as [->|Hne].
  - rewrite list_lookup_alter_eq in Hp1, Hp2.
    destruct (model1 !! i) as [q1|] eqn:Hq1; [|done].
    destruct (model2 !! i) as [q2|] eqn:Hq2; [|done].
    cbn in Hp1, Hp2. simplify_eq.
    destruct (Hm i pp q1 q2 Hpp Hq1 Hq2) as (delta & Hd & Hd1 & Hd2).
    exists (tadd delta step). cbn. rewrite Hd1, Hd2.
    rewrite tadd_assoc, tsub_tsub. split; [|done].
    unfold tadd. rewrite length_zip_with. lia.
  - rewrite list_lookup_alter_ne in Hp1, Hp2 by done. by eapply Hm.
Qed.

Lemma perturb_loop_mirrored (args : Args R) (parent_model : model R)
    (es : list nat) :
  (forall i, i ∈ es -> (i < length parent_model)%nat) ->
  (safe_mutation args = true -> well_shaped parent_model) ->
  forall (st : rng) (model1 model2 : model R),
  mirrored parent_model model1 model2 ->
  exists model1' model2',
    perturb_loop args parent_model es st model1 model2 = Ok (model1', model2') /\
    mirrored parent_model model1' model2'.
Proof.
  intros Hes Hshape. induction es as [|i es IH]; intros st model1 model2 Hm.
  { exists model1, model2. done. }
  cbn [perturb_loop]. unfold getitem.
  destruct (lookup_lt_is_Some_2 parent_model i) as [pp Hpp];
    [apply Hes; left|].
  rewrite Hpp, bind_Ok.
  pose proof (get_pertubation_length args pp st) as Heps.
  destruct (get_pertubation args pp st) as [eps st']. cbn in Heps.
  set (step := tscale (sigma args) eps).
  assert (Hstep : length step = length (data pp)).
  { unfold step, tscale. rewrite length_map. apply Heps. intros Hsafe.
    specialize (Hshape Hsafe). unfold well_shaped in Hshape.
    rewrite List.Forall_forall in Hshape. apply Hshape.
    apply list_elem_of_In. by eapply list_elem_of_lookup_2. }
  pose proof (mirrored_step _ _ _ i step pp Hpp Hstep Hm) as Hm'.
  destruct Hm as (Hl1 & Hl2 & _).
  set (m1 := alter _ i model1) in *. set (m2 := alter _ i model2) in *.
  destruct (lookup_lt_is_Some_2 m1 i) as [q1 Hq1].
  { unfold m1. rewrite length_alter, Hl1. apply Hes. left. }
  destruct (lookup_lt_is_Some_2 m2 i) as [q2 Hq2].
  { unfold m2. rewrite length_alter, Hl2. apply Hes. left. }
  rewrite Hq1, bind_Ok, Hq2, bind_Ok, !no_nan_inf_R, !bind_Ok.
  apply IH; [|done]. intros j Hj. apply Hes. by right.
Qed.

Lemma perturb_model_mirrored (es : list nat) (args : Args R)
    (parent_model : model R) (random_seed : Z) :
  (forall i, i ∈ es -> (i < length parent_model)%nat) ->
  (safe_mutation args = true -> well_shaped parent_model) ->
  exists model1 model2,
    perturb_model es args parent_model random_seed = Ok (model1, model2) /\
    mirrored parent_model model1 model2.
Proof.
  intros Hes Hshape. unfold perturb_model.
  apply perturb_loop_mirrored; [done..|]. apply copy_model_mirrored.
Qed.

End Mirror.

Section SameNoise.
Context `{TorchRNG R}.
Local Open Scope R_scope.

(** The loop adds to (subtracts from) the tensor at position [es[k]] the
    [k]-th noise tensor drawn from the generator, scaled by sigma, and
    leaves the other tensors alone. *)
Lemma perturb_loop_noise (args : Args R) (parent_model : model R)
    (es : list nat) :
  NoDup es ->
  forall (st : rng) (model1 model2 model1' model2' : model R),
  perturb_loop args parent_model es st model1 model2 = Ok (model1', model2') ->
  (forall k i q1 q2,
     es !! k = Some i -> model1 !! i = Some q1 -> model2 !! i = Some q2 ->
     let eps := sample_noise args (es_tensors parent_model es) st !!! k in
     data <$> model1' !! i = Some (tadd (data q1) (tscale (sigma args) eps)) /\
     data <$> model2' !! i = Some (tsub (data q2) (tscale (sigma args) eps))) /\
  (forall i, i ∉ es -> model1' !! i = model1 !! i /\ model2' !! i = model2 !! i).
Proof.
  induction 1 as [|i es Hi Hes IH]; intros st m1 m2 m1' m2' Hrun.
  { cbn in Hrun. simplify_eq. split; [|done]. intros k i q1 q2 Hk. done. }
  cbn [perturb_loop] in Hrun. unfold getitem in Hrun.
  destruct (parent_model !! i) as [pp|] eqn:Hpp; [|done].
  rewrite bind_Ok in Hrun.
  unfold es_tensors. cbn [omap list_omap]. rewrite Hpp.
  fold (es_tensors parent_model es). cbn [sample_noise].
  destruct (get_pertubation args pp st) as [eps st'].
  set (a1 := alter _ i m1) in *. set (a2 := alter _ i m2) in *.
  destruct (a1 !! i) as [r1|] eqn:Hr1; [|done]. rewrite bind_Ok in Hrun.
  destruct (a2 !! i) as [r2|] eqn:Hr2; [|done]. rewrite bind_Ok in Hrun.
  rewrite !no_nan_inf_R, !bind_Ok in Hrun.
  destruct (IH st' a1 a2 m1' m2' Hrun) as [Hnoise Hkeep].
  split.
  - intros k j q1 q2 Hk Hq1 Hq2. destruct k as [|k]; cbn in Hk.
    + simplify_eq. destruct (Hkeep j Hi) as [-> ->].
      unfold a1, a2 in *. rewrite !list_lookup_alter_eq, Hq1, Hq2. done.
    + assert (Hne : i <> j).
      { intros ->. apply Hi. by eapply list_elem_of_lookup_2. }
      apply (Hnoise k j q1 q2 Hk).
      * unfold a1. by rewrite list_lookup_alter_ne.
      * unfold a2. by rewrite list_lookup_alter_ne.
  - intros j Hj. apply not_elem_of_cons in Hj as [Hne Hj].
    destruct (Hkeep j Hj) as [-> ->]. unfold a1, a2.
    by rewrite !list_lookup_alter_ne.
Qed.

End SameNoise.

(** ** Seeds and dispatch *)

Section DispatchSpec.
Context `{TorchRNG R} `{NumpyRNG}.
Variable es_parameters : list nat.
Variables (args : Args R) (parent_model : model R).

Hypothesis es_in_range : forall i, i ∈ es_parameters -> i < length parent_model.
Hypothesis shapes : safe_mutation args = true -> well_shaped parent_model.

Lemma perturb_model_total (seed : Z) :
  perturb_model es_parameters args parent_model seed
  = Ok (model_plus es_parameters args parent_model seed,
        model_minus es_parameters args parent_model seed).
Proof.
  unfold model_plus, model_minus.
  destruct (perturb_model_mirrored es_parameters args parent_model seed
              es_in_range shapes) as (m1 & m2 & -> & _).
  done.
Qed.

Lemma generate_pairs_spec (n : nat) (st : np_rng) (seeds : list Z)
    (models : list (model R)) :
  generate_pairs es_parameters n args parent_model st seeds models
  = Ok (np_rng_after n st,
        seeds ++ flat_map (fun s => [s; s]) (drawn_seeds n st),
        models ++ flat_map (fun s => [model_plus es_parameters args parent_model s;
                                     model_minus es_parameters args parent_model s])
                           (drawn_seeds n st)).
Proof.
  revert st seeds models. induction n as [|n IH]; intros st seeds models.
  { cbn. by rewrite !app_nil_r. }
  cbn [generate_pairs drawn_seeds np_rng_after].
  destruct (randint (2 ^ 30) st) as [s st'].
  rewrite perturb_model_total, bind_Ok. cbn beta iota. rewrite IH.
  cbn [flat_map]. by rewrite <- !app_assoc.
Qed.

Lemma start_workers_spec (seeds : list Z) (processes : list (job R)) :
  start_workers (flat_map (fun s => [model_minus es_parameters args parent_model s;
                                     model_plus es_parameters args parent_model s]) seeds)
                (flat_map (fun s => [s; s]) seeds) true processes
  = Ok (processes ++ flat_map (perturbed_jobs es_parameters args parent_model) seeds).
Proof.
  revert processes. induction seeds as [|s seeds IH]; intros processes.
  { cbn. by rewrite app_nil_r. }
  cbn [flat_map app start_workers negb]. rewrite IH.
  by rewrite <- !app_assoc.
Qed.

Lemma rev_flat_map_pair {A B : Type} (f g : A -> B) (l : list A) :
  rev (flat_map (fun a => [f a; g a]) l)
  = flat_map (fun a => [g a; f a]) (rev l).
Proof.
  induction l as [|a l IH]; [done|].
  cbn [flat_map app rev]. rewrite flat_map_app, <- IH. cbn.
  by rewrite <- app_assoc.
Qed.

Lemma flat_map_pair_length {A B : Type} (f g : A -> B) (l : list A) :
  length (flat_map (fun a => [f a; g a]) l) = 2 * length l.
Proof. induction l as [|a l IH]; cbn in *; lia. Qed.

Lemma drawn_seeds_length (n : nat) (st : np_rng) :
  length (drawn_seeds n st) = n.
Proof.
  revert st. induction n as [|n IH]; intros st; [done|].
  cbn [drawn_seeds]. destruct (randint (2 ^ 30) st) as [s st'].
  cbn. by rewrite IH.
Qed.

Lemma drawn_seeds_range (n : nat) (st : np_rng) :
  randint_in_range ->
  Forall (fun s => (0 <= s < 2 ^ 30)%Z) (drawn_seeds n st).
Proof.
  intros Hrange. revert st. induction n as [|n IH]; intros st; [constructor|].
  cbn [drawn_seeds]. pose proof (Hrange (2 ^ 30)%Z st eq_refl) as Hs.
  destruct (randint (2 ^ 30) st) as [s st']. constructor; [done|apply IH].
Qed.

Lemma dispatch_spec (st : np_rng) :
  dispatch es_parameters args parent_model st
  = Ok (np_rng_after (agents args / 2) st,
        flat_map (perturbed_jobs es_parameters args parent_model) (rev (drawn_seeds (agents args / 2) st))
        ++ [unperturbed_job parent_model]).
Proof.
  unfold dispatch. rewrite generate_pairs_spec, bind_Ok. cbn beta iota.
  cbn [app]. rewrite bool_decide_eq_true_2
    by (by rewrite !flat_map_pair_length).
  cbn [assert]. rewrite bind_Ok, !rev_flat_map_pair.
  by rewrite start_workers_spec, bind_Ok.
Qed.

Lemma count_jobs_perturbed (s : Z) (b : bool) (seeds : list Z) :
  count_jobs s b (flat_map (perturbed_jobs es_parameters args parent_model) seeds)
  = times_drawn s seeds.
Proof.
  unfold count_jobs, times_drawn, perturbed_jobs.
  induction seeds as [|z seeds IH]; [done|].
  cbn [flat_map app List.filter is_job job_seed job_neg].
  destruct (Z.eqb s z), b; cbn; by rewrite IH.
Qed.

Lemma seed_occurrences_perturbed (s : Z) (seeds : list Z) :
  seed_occurrences s
    (flat_map (perturbed_jobs es_parameters args parent_model) seeds)
  = 2 * times_drawn s seeds.
Proof.
  unfold seed_occurrences, times_drawn, perturbed_jobs.
  induction seeds as [|z seeds IH]; [done|].
  cbn [flat_map app List.filter has_seed job_seed].
  destruct (Z.eqb s z); cbn [length]; rewrite IH; lia.
Qed.

Lemma times_drawn_rev (s : Z) (seeds : list Z) :
  times_drawn s (rev seeds) = times_drawn s seeds.
Proof.
  unfold times_drawn. induction seeds as [|z seeds IH]; [done|].
  cbn [rev List.filter]. rewrite List.filter_app, length_app, IH.
  cbn. destruct (Z.eqb s z); cbn; lia.
Qed.

Lemma times_drawn_NoDup (s : Z) (seeds : list Z) :
  NoDup seeds -> s ∈ seeds -> times_drawn s seeds = 1.
Proof.
  unfold times_drawn. induction 1 as [|z seeds Hz Hnd IH]; intros Hs.
  { by apply elem_of_nil in Hs. }
  cbn [List.filter]. destruct (Z.eqb_spec s z) as [->|Hne].
  - cbn. f_equal. clear IH Hnd Hs. induction seeds as [|y seeds IH]; [done|].
    apply not_elem_of_cons in Hz as [Hne Hz]. cbn.
    destruct (Z.eqb_spec z y); [congruence|]. by apply IH.
  - apply elem_of_cons in Hs as [?|Hs]; [congruence|]. by apply IH.
Qed.

End DispatchSpec.

(** ** The sigma controller *)

Section SigmaController.
Local Open Scope R_scope.

Lemma sigma_of_beta_pos (b : R) : 0 < sigma_of_beta b.
Proof.
  unfold sigma_of_beta. apply sqrt_lt_R0.
  pose proof (exp_pos b). lra.
Qed.

Lemma sigma_controller_sigma (args : Args R) (b : R) :
  beta args = Some b ->
  sigma (sigma_controller args)
  = if Rlt_dec (sigma args * 1.2) (sigma_of_beta b) then sigma args * 1.2
    else if Rlt_dec (sigma_of_beta b) (sigma args * 0.8) then sigma args * 0.8
    else sigma_of_beta b.
Proof.
  intros Hb. unfold sigma_controller, sigma_of_beta. rewrite Hb. unfold_R.
  replace (5 / 10) with 0.5 by lra.
  replace (12 / 10) with 1.2 by lra.
  replace (8 / 10) with 0.8 by lra.
  unfold Rltb.
  destruct (Rlt_dec (sigma args * 1.2) _); [done|].
  destruct (Rlt_dec _ (sigma args * 0.8)); done.
Qed.

Lemma sigma_controller_beta (args : Args R) (b : R) :
  beta args = Some b ->
  beta (sigma_controller args)
  = Some (ln (2 * (sigma (sigma_controller args) * sigma (sigma_controller args)))).
Proof.
  intros Hb. unfold sigma_controller. rewrite Hb. unfold_R. unfold pow2.
  unfold Rltb.
  destruct (Rlt_dec _ _); [done|]. destruct (Rlt_dec _ _); done.
Qed.

(** For a positive sigma, [beta = log(2 sigma^2)] maps back to sigma. *)
Lemma sigma_of_beta_log (s : R) :
  0 < s -> sigma_of_beta (ln (2 * (s * s))) = s.
Proof.
  intros Hs. unfold sigma_of_beta.
  rewrite exp_ln by nra.
  replace (0.5 * (2 * (s * s))) with (s * s) by lra.
  apply sqrt_square. lra.
Qed.

(** A positive sigma stays positive. *)
Lemma sigma_controller_pos (args : Args R) (b : R) :
  beta args = Some b -> 0 < sigma args -> 0 < sigma (sigma_controller args).
Proof.
  intros Hb Hs. rewrite (sigma_controller_sigma args b Hb).
  pose proof (sigma_of_beta_pos b).
  destruct (Rlt_dec _ _); [lra|]. destruct (Rlt_dec _ _); lra.
Qed.

End SigmaController.

(** The controller on reals extended with the special values. *)
Section SigmaControllerExtended.
Local Open Scope R_scope.

(** The sigma the controller stores, for any scalar type. *)
Lemma sigma_controller_stored {T : Type} `{Scalar T} (args : Args T) (b : T) :
  beta args = Some b ->
  let new_sigma := sqrt (mul (frac 5 10) (exp b)) in
  sigma (sigma_controller args)
  = if ltb (mul (sigma args) (frac 12 10)) new_sigma
    then mul (sigma args) (frac 12 10)
    else if ltb new_sigma (mul (sigma args) (frac 8 10))
         then mul (sigma args) (frac 8 10)
         else new_sigma.
Proof.
  intros Hb new_sigma. unfold sigma_controller. rewrite Hb. fold new_sigma.
  destruct (ltb (mul (sigma args) (frac 12 10)) new_sigma); [done|].
  by destruct (ltb new_sigma (mul (sigma args) (frac 8 10))).
Qed.

(** [new_sigma] for a [beta] that is not NaN: a non-negative number, or
    infinite when [beta] is. *)
Lemma new_sigma_cases (b : xfloat) :
  isnan b = false ->
  let new_sigma := sqrt (mul (frac 5 10) (exp b)) in
  (exists n, new_sigma = Fin n /\ 0 <= n /\
             (forall x, b = Fin x -> n = sigma_of_beta x) /\
             (b = NInf -> n = 0)) \/
  (b = PInf /\ new_sigma = PInf).
Proof.
  intros Hb new_sigma. unfold new_sigma.
  destruct b as [x| | |]; [| | |done].
  - left. exists (sigma_of_beta x).
    cbn [sqrt mul frac exp xfloat_scalar xexp xmul xsqrt].
    pose proof (exp_pos x).
    destruct (Rlt_dec (IZR 5 / IZR 10 * Rtrigo_def.exp x) 0) as [Hlt|_];
      [exfalso; lra|].
    split; [unfold sigma_of_beta; do 2 f_equal; lra|].
    split; [apply Rlt_le, sigma_of_beta_pos|].
    split; [by intros ? [= ->]|done].
  - right. split; [done|].
    cbn [sqrt mul frac exp xfloat_scalar xexp xmul xsqrt]. unfold signed_inf.
    destruct (Req_dec_T (IZR 5 / IZR 10) 0) as [He|_]; [exfalso; lra|].
    by destruct (Rlt_dec 0 (IZR 5 / IZR 10)) as [_|Hn]; [|exfalso; lra].
  - left. exists 0.
    cbn [sqrt mul frac exp xfloat_scalar xexp xmul xsqrt].
    destruct (Rlt_dec (IZR 5 / IZR 10 * 0) 0) as [Hlt|_]; [exfalso; lra|].
    split; [|split; [lra|done]].
    f_equal. replace (IZR 5 / IZR 10 * 0) with 0 by lra. apply sqrt_0.
Qed.

End SigmaControllerExtended.

(** ** Sensitivities *)

Section SensitivityLoops.
Context {T : Type} `{Scalar T}.
Variable dy_dw : nat -> nat -> list T.

Lemma accumulate_first (params : model T) (pid : nat) (sens : list (list T)) :
  accumulate_params dy_dw 0 pid params sens
  = Ok (sens ++ map (fun pid => tpow2 (dy_dw 0 pid)) (seq pid (length params))).
Proof.
  revert pid sens. induction params as [|p rest IH]; intros pid sens.
  { cbn. by rewrite app_nil_r. }
  cbn [accumulate_params length seq map]. rewrite decide_True by done.
  rewrite IH. by rewrite <- app_assoc.
Qed.

Lemma accumulate_next (idx : nat) (params : model T) :
  idx <> 0 ->
  forall (done todo : list (list T)),
  length todo = length params ->
  accumulate_params dy_dw idx (length done) params (done ++ todo)
  = Ok (done ++ imap (fun k old => tadd old (tpow2 (dy_dw idx (length done + k))))
                     todo).
Proof.
  intros Hidx. induction params as [|p rest IH]; intros done todo Hlen.
  { by destruct todo. }
  destruct todo as [|old todo]; [done|]. cbn in Hlen.
  cbn [accumulate_params]. rewrite decide_False by done.
  unfold getitem. rewrite list_lookup_middle by done. rewrite bind_Ok.
  rewrite insert_app_r_alt by apply Nat.le_refl.
  rewrite Nat.sub_diag. cbn [insert list_insert].
  set (new := tadd old _).
  pose proof (IH (done ++ [new]) todo) as IH'.
  rewrite length_app, Nat.add_1_r, <- app_assoc in IH'. cbn [app length] in IH'.
  rewrite IH' by lia. rewrite <- app_assoc. cbn [app imap].
  rewrite Nat.add_0_r. do 3 f_equal.
  apply imap_ext. intros k x _. cbn. do 3 f_equal. lia.
Qed.

Lemma accumulate_outputs_next (idxs : list nat) (params : model T)
    (sens : list (list T)) :
  Forall (fun idx => idx <> 0) idxs ->
  length sens = length params ->
  accumulate_outputs dy_dw idxs params sens
  = Ok (imap (fun pid old =>
                foldl (fun acc idx => tadd acc (tpow2 (dy_dw idx pid))) old idxs)
             sens).
Proof.
  intros Hidxs. revert sens.
  induction Hidxs as [|idx idxs Hidx _ IH]; intros sens Hlen.
  { cbn. f_equal. apply list_eq. intros i. rewrite list_lookup_imap.
    by destruct (sens !! i). }
  cbn [accumulate_outputs].
  pose proof (accumulate_next idx params Hidx [] sens Hlen) as Hnext.
  cbn [app length] in Hnext. rewrite Hnext, bind_Ok.
  rewrite IH by (by rewrite length_imap).
  f_equal. apply list_eq. intros i. rewrite !list_lookup_imap.
  by destruct (sens !! i).
Qed.

(** After the accumulation loops, entry [pid] is the sum of squares. *)
Lemma accumulate_outputs_spec (n_outputs : nat) (params : model T) :
  n_outputs <> 0 ->
  accumulate_outputs dy_dw (seq 0 n_outputs) params []
  = Ok (map (sum_of_squares dy_dw n_outputs) (seq 0 (length params))).
Proof.
  intros Hn. destruct n_outputs as [|n]; [done|].
  cbn [seq accumulate_outputs]. rewrite accumulate_first, bind_Ok.
  cbn [app]. rewrite accumulate_outputs_next.
  - f_equal. unfold sum_of_squares. cbn [Nat.sub]. rewrite Nat.sub_0_r.
    clear Hn. generalize (seq 1 n). intros idxs.
    apply list_eq. intros i. rewrite list_lookup_imap, !lookup_map.
    destruct (seq 0 (length params) !! i) as [pid|] eqn:Hpid; [|done].
    cbn. apply lookup_seq in Hpid as [-> _]. done.
  - apply Forall_forall. intros idx Hidx. apply elem_of_seq in Hidx. lia.
  - by rewrite length_map, length_seq.
Qed.

Lemma mapM_Ok {A B : Type} (f : A -> result B) (l : list A) (l' : list B) :
  mapM f l = Ok l' -> Forall2 (fun a b => f a = Ok b) l l'.
Proof.
  revert l'. induction l as [|a l IH]; intros l' Hrun.
  { cbn in Hrun. injection Hrun as <-. constructor. }
  cbn in Hrun. destruct (f a) as [b|] eqn:Hb; [|done].
  cbn in Hrun. destruct (mapM f l) as [k|]; [|done].
  cbn in Hrun. injection Hrun as <-. constructor; [done|]. by apply IH.
Qed.

Lemma set_sensitivities_Ok (params : model T) (pid : nat)
    (sens : list (list T)) (m : model T) :
  set_sensitivities pid params sens = Ok m ->
  length m = length params /\
  forall k p p',
    params !! k = Some p -> m !! k = Some p' ->
    data p' = data p /\
    sens !! (pid + k) = Some (grad p') /\
    tany isnan (grad p') = false /\ tany isinf (grad p') = false.
Proof.
  revert pid m. induction params as [|p rest IH]; intros pid m Hrun.
  { cbn in Hrun. injection Hrun as <-. done. }
  cbn [set_sensitivities] in Hrun. unfold getitem in Hrun.
  destruct (sens !! pid) as [s|] eqn:Hs; [|done]. rewrite bind_Ok in Hrun.
  unfold no_nan_inf, assert in Hrun.
  destruct (tany isnan s) eqn:Hnan; [done|].
  destruct (tany isinf s) eqn:Hinf; [done|].
  cbn [negb] in Hrun. rewrite !bind_Ok in Hrun.
  destruct (set_sensitivities (S pid) rest sens) as [rest'|] eqn:Hrest; [|done].
  rewrite bind_Ok in Hrun. injection Hrun as <-.
  destruct (IH _ _ Hrest) as [Hlen Hall]. split; [cbn; by rewrite Hlen|].
  intros k q q' Hq Hq'. destruct k as [|k]; cbn in Hq, Hq'.
  - simplify_eq. cbn. by rewrite Nat.add_0_r.
  - destruct (Hall k q q' Hq Hq') as (? & Hk & ? & ?).
    rewrite Nat.add_succ_r. by rewrite Nat.add_succ_l in Hk.
Qed.

(** The structure of a successful run: every stored gradient is the
    root-sum-square tensor of its parameter, divided by its own maximum,
    after the two masked assignments; and it passed both assertions. *)
Lemma compute_sensitivities_Ok (n_outputs : nat) (parent_model m : model T) :
  n_outputs <> 0 ->
  compute_sensitivities dy_dw n_outputs parent_model = Ok m ->
  length m = length parent_model /\
  forall pid p p',
    parent_model !! pid = Some p -> m !! pid = Some p' ->
    data p' = data p /\
    (exists mx,
       tmax (root_sum_square dy_dw n_outputs pid) = Ok mx /\
       grad p' = numerical (tdiv_scalar (root_sum_square dy_dw n_outputs pid) mx)) /\
    tany isnan (grad p') = false /\ tany isinf (grad p') = false.
Proof.
  intros Hn Hrun. unfold compute_sensitivities in Hrun.
  rewrite accumulate_outputs_spec, bind_Ok in Hrun by done.
  destruct (mapM normalize _) as [normalized|] eqn:Hnorm; [|done].
  rewrite bind_Ok in Hrun. apply mapM_Ok in Hnorm.
  destruct (set_sensitivities_Ok _ _ _ _ Hrun) as [Hlen Hall].
  split; [done|]. intros pid p p' Hp Hp'.
  destruct (Hall pid p p' Hp Hp') as (Hdata & Hsens & Hnan & Hinf).
  split; [done|]. split; [|done].
  cbn [Nat.add] in Hsens. rewrite lookup_map in Hsens.
  destruct (normalized !! pid) as [s|] eqn:Hs; [|done].
  cbn in Hsens. injection Hsens as <-.
  destruct (Forall2_lookup_r _ _ _ _ _ Hnorm Hs) as (raw & Hraw & Hnormalize).
  rewrite !lookup_map in Hraw.
  assert (Hpid : seq 0 (length parent_model) !! pid = Some pid).
  { apply lookup_seq. split; [done|]. by eapply lookup_lt_Some. }
  rewrite Hpid in Hraw. cbn in Hraw. injection Hraw as <-.
  unfold normalize in Hnormalize. fold (root_sum_square dy_dw n_outputs pid) in *.
  destruct (tmax (root_sum_square dy_dw n_outputs pid)) as [mx|]; [|done].
  rewrite bind_Ok in Hnormalize. injection Hnormalize as <-.
  by exists mx.
Qed.

End SensitivityLoops.

(** Without output units nothing is accumulated, and only a model without
    parameters passes the storing loop. *)
Lemma compute_sensitivities_no_outputs {T : Type} `{Scalar T}
    (dy_dw : nat -> nat -> list T) (parent_model m : model T) :
  compute_sensitivities dy_dw 0 parent_model = Ok m -> m = [].
Proof.
  unfold compute_sensitivities. cbn. destruct parent_model as [|p rest].
  - cbn. by intros [= <-].
  - cbn. done.
Qed.

Section SensitivityRange.
Local Open Scope R_scope.

Lemma numerical_clip {T : Type} `{Scalar T} (s : list T) :
  numerical s = map clip s.
Proof. unfold numerical, set_where_gt, set_where_lt. by rewrite map_map. Qed.

Lemma clip_finite (r : R) :
  clip (Fin r)
  = Fin (if Rlt_dec r (1 / 100000) then 1
         else if Rlt_dec 100000 r then 100000 else r).
Proof.
  unfold clip. cbn. unfold Rltb.
  destruct (Rlt_dec r (1 / 100000)).
  - cbn. unfold Rltb. destruct (Rlt_dec 100000 1); [lra|done].
  - cbn. unfold Rltb. destruct (Rlt_dec 100000 r); done.
Qed.

Lemma clip_range (x : xfloat) : isnan (clip x) = false -> in_range (clip x).
Proof.
  destruct x as [r| | |].
  - intros _. rewrite clip_finite. eexists. split; [done|].
    destruct (Rlt_dec r (1 / 100000)); [lra|].
    destruct (Rlt_dec 100000 r); lra.
  - intros _. exists 100000. split; [done|lra].
  - intros _. exists 1. unfold clip. cbn. unfold Rltb.
    destruct (Rlt_dec 100000 1); [lra|]. split; [done|lra].
  - done.
Qed.

End SensitivityRange.

Lemma tany_false {T : Type} (f : T -> bool) (l : list T) :
  tany f l = false -> Forall (fun x => f x = false) l.
Proof.
  unfold tany. induction l as [|x l IH]; intros Hl; [constructor|].
  cbn in Hl. apply orb_false_iff in Hl as [Hx Hl]. constructor; auto.
Qed.

(** ** The assertions of [compute_gradients] *)

Section GradientChecks.
Context {T : Type} `{Scalar T} `{TorchRNG T}.

(** A successful storing loop has checked every gradient for NaN and Inf. *)
Lemma set_gradients_checked (params : model T) (layer : nat)
    (wg : list (list T)) (m : model T) :
  set_gradients layer params wg = Ok m ->
  Forall (fun p => tany isnan (grad p) = false /\ tany isinf (grad p) = false) m.
Proof.
  revert layer m. induction params as [|p rest IH]; intros layer m Hrun.
  { cbn in Hrun. injection Hrun as <-. constructor. }
  cbn [set_gradients] in Hrun.
  destruct (getitem wg layer) as [g|]; [|done]. rewrite bind_Ok in Hrun.
  unfold assert in Hrun.
  destruct (tany isnan (tneg g)) eqn:Hnan; [done|].
  destruct (tany isinf (tneg g)) eqn:Hinf; [done|].
  cbn [negb] in Hrun. rewrite !bind_Ok in Hrun.
  destruct (set_gradients (S layer) rest wg) as [rest'|] eqn:Hrest; [|done].
  rewrite bind_Ok in Hrun. injection Hrun as <-.
  constructor; [done|]. by eapply IH.
Qed.

(** A stored [beta] gradient has been checked for NaN. *)
Lemma set_beta_gradient_checked (args : Args T) (beta_gradient g : T) :
  set_beta_gradient args beta_gradient = Ok (Some g) ->
  g = neg beta_gradient /\ isnan g = false.
Proof.
  unfold set_beta_gradient. destruct (optimize_sigma args); [|done].
  destruct (beta args); [|done]. unfold assert.
  destruct (isnan (neg beta_gradient)) eqn:Hnan; [done|].
  cbn. intros [= <-]. done.
Qed.

(** The stages of a successful [compute_gradients]. *)
Lemma compute_gradients_Ok (args : Args T) (parent_model m : model T)
    (returns : list T) (random_seeds : list Z) (is_anti_list : list bool)
    (beta_grad : option T) :
  compute_gradients args parent_model returns random_seeds is_anti_list
  = Ok (m, beta_grad) ->
  exists shaped_returns weight_gradients beta_gradient,
    fitness_shaping returns = Ok shaped_returns /\
    agent_loop args parent_model shaped_returns random_seeds is_anti_list
      (seq 0 (agents args))
      (map (fun p => tzeros (length (data p))) parent_model) zero
    = Ok (weight_gradients, beta_gradient) /\
    set_gradients 0 parent_model weight_gradients = Ok m /\
    set_beta_gradient args beta_gradient = Ok beta_grad.
Proof.
  unfold compute_gradients. intros Hrun.
  destruct (assert (bool_decide (length returns = agents args))); [|done].
  rewrite bind_Ok in Hrun.
  destruct (assert (bool_decide (length random_seeds = length returns)));
    [|done].
  rewrite bind_Ok in Hrun.
  destruct (fitness_shaping returns) as [shaped|] eqn:Hfs; [|done].
  rewrite bind_Ok in Hrun.
  destruct (agent_loop _ _ _ _ _ _ _ _) as [[wg bg]|] eqn:Hloop; [|done].
  rewrite bind_Ok in Hrun.
  destruct (set_gradients 0 parent_model wg) as [m'|] eqn:Hset; [|done].
  rewrite bind_Ok in Hrun.
  destruct (set_beta_gradient args bg) as [bgrad|] eqn:Hbeta; [|done].
  rewrite bind_Ok in Hrun. injection Hrun as <- <-.
  by exists shaped, wg, bg.
Qed.

Lemma set_beta_gradient_enabled (args : Args T) (beta_gradient : T)
    (beta_grad : option T) :
  optimize_sigma args = true ->
  set_beta_gradient args beta_gradient = Ok beta_grad ->
  exists b g, beta args = Some b /\ beta_grad = Some g.
Proof.
  unfold set_beta_gradient. intros ->. destruct (beta args) as [b|]; [|done].
  destruct (assert _); [|done]. rewrite bind_Ok. intros [= <-]. eauto.
Qed.

(** What the assertions do guarantee: a successful [compute_gradients]
    stores parameter gradients without NaN or Inf, and a [beta] gradient
    that is not NaN. *)
Lemma compute_gradients_checked (args : Args T) (parent_model m : model T)
    (returns : list T) (random_seeds : list Z) (is_anti_list : list bool)
    (beta_grad : option T) :
  compute_gradients args parent_model returns random_seeds is_anti_list
  = Ok (m, beta_grad) ->
  Forall (fun p => tany isnan (grad p) = false /\ tany isinf (grad p) = false) m /\
  (forall g, beta_grad = Some g -> isnan g = false).
Proof.
  intros Hrun.
  apply compute_gradients_Ok in Hrun as (_ & wg & bg & _ & _ & Hset & Hbeta).
  split; [by eapply set_gradients_checked|].
  intros g ->. by apply set_beta_gradient_checked in Hbeta as [_ ?].
Qed.

End GradientChecks.

(** ** Resuming from statistics *)

Section ResumeFacts.
Context {T : Type} `{Scalar T} {O : Type}.

Lemma last_item_Ok {A : Type} (l : list A) (a : A) :
  last l = Some a -> last_item l = Ok a.
Proof. unfold last_item. by intros ->. Qed.

Lemma last_item_nonempty {A : Type} (l : list A) :
  l <> [] -> exists a, last_item l = Ok a /\ last l = Some a.
Proof.
  intros Hl. unfold last_item. destruct (last l) as [a|] eqn:Ha; [eauto|].
  by apply last_None in Ha.
Qed.

Lemma np_max_nonempty (l : list T) : l <> [] -> exists x, np_max l = Ok x.
Proof. destruct l; [done|]. cbn. eauto. Qed.

End ResumeFacts.

(** ** Elementwise reading of the tensor sums *)

Section Elementwise.
Context `{TorchRNG R}.
Local Open Scope R_scope.

Lemma tadd_lookup (a b : list R) (j : nat) (x : R) :
  tadd a b !! j = Some x ->
  exists y z, a !! j = Some y /\ b !! j = Some z /\ x = y + z.
Proof.
  unfold tadd. rewrite lookup_zip_with.
  destruct (a !! j) as [y|]; [|done]. destruct (b !! j) as [z|]; [|done].
  cbn. intros [= <-]. eauto.
Qed.

Lemma foldl_tadd_lookup (ts : list (list R)) (acc : list R) (j : nat) (x : R) :
  foldl tadd acc ts !! j = Some x ->
  exists y, acc !! j = Some y /\ x = y + Rsum (map (fun t => t !!! j) ts).
Proof.
  revert acc x. induction ts as [|t ts IH]; intros acc x Hx.
  { exists x. cbn. split; [done|lra]. }
  cbn [foldl] in Hx. apply IH in Hx as (y & Hy & ->).
  apply tadd_lookup in Hy as (y1 & z & Hy1 & Hz & ->).
  exists y1. split; [done|]. cbn [map]. unfold Rsum. cbn [foldr].
  rewrite (list_lookup_total_correct _ _ _ Hz). lra.
Qed.

Lemma foldl_tadd_lookup_bound (ts : list (list R)) (acc : list R) (j : nat)
    (x : R) :
  foldl tadd acc ts !! j = Some x -> Forall (fun t => (j < length t)%nat) ts.
Proof.
  revert acc x. induction ts as [|t ts IH]; intros acc x Hx; [constructor|].
  cbn [foldl] in Hx. constructor; [|by eapply IH].
  apply foldl_tadd_lookup in Hx as (y & Hy & _).
  apply tadd_lookup in Hy as (_ & z & _ & Hz & _).
  by eapply lookup_lt_Some.
Qed.

Lemma tensor_sum_lookup (n : nat) (ts : list (list R)) (j : nat) (x : R) :
  tensor_sum n ts !! j = Some x -> x = Rsum (map (fun t => t !!! j) ts).
Proof.
  unfold tensor_sum. intros Hx.
  apply foldl_tadd_lookup in Hx as (y & Hy & ->).
  unfold tzeros, zero in Hy. apply lookup_replicate in Hy as [-> _].
  unfold_R. lra.
Qed.

Lemma foldl_tadd_length (ts : list (list R)) (acc : list R) (n : nat) :
  length acc = n -> Forall (fun t => length t = n) ts ->
  length (foldl tadd acc ts) = n.
Proof.
  intros Hacc Hts. revert acc Hacc.
  induction Hts as [|t ts Ht _ IH]; intros acc Hacc; [done|].
  cbn [foldl]. apply IH. unfold tadd. rewrite length_zip_with. lia.
Qed.

Lemma tscale_lookup_total (c : R) (a : list R) (j : nat) :
  (j < length a)%nat -> tscale c a !!! j = c * a !!! j.
Proof.
  intros Hj. unfold tscale. apply list_lookup_total_correct.
  rewrite lookup_map, (list_lookup_lookup_total_lt a j Hj). done.
Qed.

Lemma sample_noise_layer_length (args : Args R) (params : model R)
    (st : rng) (layer : nat) (p : param R) :
  (safe_mutation args = true -> well_shaped params) ->
  params !! layer = Some p ->
  length (sample_noise args params st !!! layer) = length (data p).
Proof.
  intros Hshape. revert st layer.
  induction params as [|q rest IH]; intros st layer Hp; [done|].
  assert (Hq : safe_mutation args = true -> length (grad q) = length (data q)).
  { intros Hs. specialize (Hshape Hs). by inversion Hshape. }
  assert (Hrest : safe_mutation args = true -> well_shaped rest).
  { intros Hs. specialize (Hshape Hs). by inversion Hshape. }
  cbn [sample_noise]. pose proof (get_pertubation_length args q st Hq) as Hlen.
  destruct (get_pertubation args q st) as [eps st'].
  destruct layer as [|layer]; cbn in Hp |- *.
  - by simplify_eq.
  - by apply IH.
Qed.

(** The accumulated gradient, element by element, is the common factor
    times the sum over the agents; with gradient buffers of the right shape
    it has the shape of its parameter tensor. *)
Lemma accumulated_gradient_lookup (args : Args R) (parent_model : model R)
    (weights : list R) (random_seeds : list Z) (is_anti_list : list bool)
    (layer size j : nat) (x : R) :
  accumulated_gradient args parent_model weights random_seeds is_anti_list
    layer size !! j = Some x ->
  x = 1 / (INR (agents args) * (sigma args * sigma args))
      * Rsum (map (fun i =>
                     weights !!! i * sign_of (is_anti_list !!! i)
                     * ((noise args parent_model (random_seeds !!! i)
                           !!! layer) !!! j))
                  (seq 0 (agents args))).
Proof.
  unfold accumulated_gradient, tscale at 1. rewrite lookup_map.
  destruct (tensor_sum _ _ !! j) as [y|] eqn:Hy; [|done].
  cbn. intros [= <-]. unfold_R. f_equal.
  rewrite (tensor_sum_lookup _ _ _ _ Hy). unfold tensor_sum in Hy.
  rewrite map_map. apply Rsum_map_ext. intros i Hi.
  apply tscale_lookup_total.
  apply foldl_tadd_lookup_bound in Hy. rewrite List.Forall_forall in Hy.
  assert (Hin : List.In
            (tscale (weights !!! i * sign_of (is_anti_list !!! i))
               (noise args parent_model (random_seeds !!! i) !!! layer))
            (map (fun i => tscale (weights !!! i * sign_of (is_anti_list !!! i))
                    (noise args parent_model (random_seeds !!! i) !!! layer))
                 (seq 0 (agents args)))).
  { apply list_elem_of_In. apply list_elem_of_fmap. by exists i. }
  apply Hy in Hin. unfold tscale in Hin. by rewrite length_map in Hin.
Qed.

Lemma accumulated_gradient_length (args : Args R) (parent_model : model R)
    (weights : list R) (random_seeds : list Z) (is_anti_list : list bool)
    (layer : nat) (p : param R) :
  (safe_mutation args = true -> well_shaped parent_model) ->
  parent_model !! layer = Some p ->
  length (accumulated_gradient args parent_model weights random_seeds
            is_anti_list layer (length (data p)))
  = length (data p).
Proof.
  intros Hshape Hp. unfold accumulated_gradient, tscale at 1, tensor_sum.
  rewrite length_map. apply foldl_tadd_length.
  { unfold tzeros. apply length_replicate. }
  apply Forall_forall. intros t Ht.
  apply list_elem_of_fmap in Ht as (i & -> & _).
  unfold tscale. rewrite length_map.
  by apply sample_noise_layer_length.
Qed.

End Elementwise.

(** ** The examples, evaluated *)

Section Examples.
Local Open Scope R_scope.

(** Operations of [xfloat] on finite values. *)
Lemma xdiv_fin (x y : R) : y <> 0 -> xdiv (Fin x) (Fin y) = Fin (x / y).
Proof. intros Hy. unfold xdiv. by destruct (Req_dec_T y 0). Qed.

Lemma xsqrt_fin (x : R) : 0 <= x -> xsqrt (Fin x) = Fin (R_sqrt.sqrt x).
Proof. intros Hx. unfold xsqrt. destruct (Rlt_dec x 0); [lra|done]. Qed.

Lemma xlog_fin (x : R) : 0 < x -> xlog (Fin x) = Fin (ln x).
Proof.
  intros Hx. unfold xlog. destruct (Rlt_dec x 0); [lra|].
  destruct (Req_dec_T x 0); [lra|done].
Qed.

Lemma xmax_fin (x y : R) : xmax (Fin x) (Fin y) = Fin (Rmax x y).
Proof.
  unfold xmax, xltb, Rltb, Rmax.
  destruct (Rlt_dec x y), (Rle_dec x y); try done; try lra; f_equal; lra.
Qed.

Lemma compute_sensitivities_example :
  compute_sensitivities example_dy_dw 1 example_xmodel
  = Ok [Param [Fin 0] [Fin 1]].
Proof.
  unfold compute_sensitivities, example_xmodel, example_dy_dw.
  cbn [seq accumulate_outputs accumulate_params]. rewrite decide_True by done.
  cbn [accumulate_params app]. rewrite !bind_Ok.
  cbn [map tsqrt tpow2 pow2 mul xfloat_scalar xmul sqrt].
  rewrite xsqrt_fin by lra.
  replace (1 * 1) with 1 by lra. rewrite sqrt_1.
  cbn [mapM]. unfold normalize. cbn [tmax foldl]. rewrite bind_Ok.
  unfold tdiv_scalar. cbn [map div xfloat_scalar].
  rewrite xdiv_fin by lra. replace (1 / 1) with 1 by lra.
  cbn [mret result_ret mbind result_bind map]. rewrite numerical_clip.
  cbn [map]. rewrite clip_finite.
  destruct (Rlt_dec 1 (1 / 100000)); [lra|].
  destruct (Rlt_dec 100000 1); [lra|].
  reflexivity.
Qed.

Lemma replay_randint_in_range : @randint_in_range replay_numpy.
Proof.
  intros high st Hhigh. destruct st as [|x st]; cbn.
  - lia.
  - by apply Z.mod_pos_bound.
Qed.

Lemma seed_occurrences_app (s : Z) (jobs1 jobs2 : list (job R)) :
  seed_occurrences s (jobs1 ++ jobs2)
  = (seed_occurrences s jobs1 + seed_occurrences s jobs2)%nat.
Proof. unfold seed_occurrences. by rewrite List.filter_app, length_app. Qed.

Lemma ln_2_pos : 0 < ln 2.
Proof. rewrite <- ln_1. apply ln_increasing; lra. Qed.

Lemma fitness_shaping_inf_returns :
  fitness_shaping inf_returns = Ok [Fin (1 / 2); Fin (- (1 / 2))].
Proof.
  assert (Hsort : argsort (tneg inf_returns) = [0; 1]%nat).
  { unfold argsort, sort_keys, inf_returns.
    cbn [tneg map neg xneg imap foldr insert_key snd compose
         xfloat_scalar]. unfold key_ltb.
    cbn [ltb isnan xfloat_scalar xltb xisnan andb negb].
    rewrite orb_false_r.
    unfold Rltb. case_Rlt; [exfalso; lra|]. reflexivity. }
  unfold fitness_shaping. rewrite Hsort. unfold inf_returns.
  cbn [length seq assign_utilities]. unfold getitem.
  cbn [lookup list_lookup]. rewrite !bind_Ok.
  cbn [tzeros replicate length insert list_insert].
  destruct (decide (0 < 2)%nat); [|lia].
  destruct (decide (1 < 2)%nat); [|lia]. rewrite bind_Ok.
  assert (Hu0 : utility (T := xfloat) 2 0 = Fin (ln 2)).
  { unfold utility, of_nat, zero, one.
    cbn [of_Z xfloat_scalar add sub div log max Nat.add xadd xsub xneg].
    change (Z.of_nat 2) with 2%Z. change (Z.of_nat 1) with 1%Z.
    rewrite xdiv_fin by lra. cbn [xadd].
    rewrite !xlog_fin by lra. cbn [xneg xadd xsub]. rewrite xmax_fin.
    replace (2 / 2 + 1) with 2 by lra. rewrite ln_1.
    pose proof ln_2_pos. f_equal. rewrite Rmax_right; lra. }
  assert (Hu1 : utility (T := xfloat) 2 1 = Fin 0).
  { unfold utility, of_nat, zero, one.
    cbn [of_Z xfloat_scalar add sub div log max Nat.add xadd xsub xneg].
    change (Z.of_nat 2) with 2%Z.
    rewrite xdiv_fin by lra. cbn [xadd].
    rewrite !xlog_fin by lra. cbn [xneg xadd xsub]. rewrite xmax_fin.
    replace (2 / 2 + 1) with 2 by lra.
    f_equal. rewrite Rmax_left; lra. }
  rewrite Hu0, Hu1. rewrite decide_False by done. rewrite bind_Ok.
  unfold tsub_scalar, tdiv_scalar, tsum, zero.
  unfold of_nat. change (Z.of_nat 2) with 2%Z.
  cbn [map foldl add sub div of_Z xfloat_scalar xadd xsub xneg].
  pose proof ln_2_pos.
  rewrite !xdiv_fin by lra. cbn [xadd xneg].
  unfold xsub. cbn [xneg xadd].
  replace (ln 2 / (0 + ln 2 + 0) + - (1 / 2)) with (1 / 2) by (field; lra).
  replace (0 / (0 + ln 2 + 0) + - (1 / 2)) with (- (1 / 2)) by (field; lra).
  reflexivity.
Qed.

(** With safe mutation the noise of the example model is a real number:
    the sensitivities are ones and the two draws differ. *)
Lemma noise_is_real_example :
  @noise_is_real counter_torch example_safe_args example_model 7.
Proof.
  intros _. cbn [divisors_nonzero example_model data grad].
  split; [|done].
  cbn [normal_ length counter_torch randn manual_seed fst tdiv zip_with].
  unfold_R. split; [|split].
  - repeat constructor; lra.
  - cbn. lia.
  - unfold tstd, tmean, tsub_scalar, tpow2, tsum, pow2, of_nat, zero.
    cbn [length map foldl]. unfold_R.
    change (Z.of_nat 2 - 1)%Z with 1%Z. change (Z.of_nat 2) with 2%Z.
    change (7 + 1)%Z with 8%Z.
    intros H0. apply sqrt_eq_0 in H0; lra.
Qed.

End Examples.

(** A run with [beta] in step with sigma. *)
Section SyncedExample.
Local Open Scope R_scope.


End SyncedExample.

(** ** The claims *)

Section Claims.
Local Open Scope R_scope.

(** C1. With [N] agents, mutation scale sigma, shaped weights, antithetic
    signs and per-sample noise [noise(seed_i)], the gradient accumulated
    for each parameter tensor is [1/(N sigma^2)] times the sum over the
    agents of [weight_i * sign_i * noise(seed_i)], and [compute_gradients]
    stores its negative on the parameter.  (The hypotheses are those under
    which the function runs to its end: at least one agent, lists of [N]
    entries, a non-zero sigma, [beta] present when sigma is optimized, and
    noise that is a real number.) *)
Theorem compute_gradients_parameter_gradient (torch : TorchRNG R)
    (args : Args R) (parent_model : model R) (returns : list R)
    (random_seeds : list Z) (is_anti_list : list bool) :
  let N := agents args in
  (1 <= N)%nat ->
  length returns = N -> length random_seeds = N -> length is_anti_list = N ->
  sigma args <> 0 ->
  (optimize_sigma args = true -> is_Some (beta args)) ->
  (forall i, (i < N)%nat -> noise_is_real args parent_model (random_seeds !!! i)) ->
  exists weights m beta_grad,
    fitness_shaping returns = Ok weights /\
    compute_gradients args parent_model returns random_seeds is_anti_list
    = Ok (m, beta_grad) /\
    length m = length parent_model /\
    forall layer p,
      parent_model !! layer = Some p ->
      exists accumulated,
        accumulated
        = tscale (1 / (INR N * (sigma args * sigma args)))
            (tensor_sum (length (data p))
               (map (fun i =>
                       tscale (weights !!! i * sign_of (is_anti_list !!! i))
                              (noise args parent_model (random_seeds !!! i)
                                 !!! layer))
                    (seq 0 N))) /\
        m !! layer = Some (Param (data p) (tneg accumulated)) /\
        (forall j x,
           accumulated !! j = Some x ->
           x = 1 / (INR N * (sigma args * sigma args))
               * Rsum (map (fun i =>
                              weights !!! i * sign_of (is_anti_list !!! i)
                              * ((noise args parent_model (random_seeds !!! i)
                                    !!! layer) !!! j))
                           (seq 0 N))) /\
        ((safe_mutation args = true -> well_shaped parent_model) ->
         length accumulated = length (data p)).
Proof.
  intros N HN Hret Hseeds Hanti Hsigma Hbeta _.
  assert (HN0 : agents args <> 0%nat) by (fold N; lia).
  assert (Hanti' : (agents args <= length is_anti_list)%nat) by (fold N; lia).
  destruct (compute_gradients_closed_form args parent_model returns
              random_seeds is_anti_list HN0 Hret Hseeds Hanti' Hsigma Hbeta)
    as (weights & Hfs & Hlen & Hsum & Hrun).
  exists weights. eexists. eexists. split; [done|]. split; [exact Hrun|].
  split; [by rewrite length_imap|].
  intros layer p Hp.
  exists (accumulated_gradient args parent_model weights random_seeds
            is_anti_list layer (length (data p))).
  split; [done|]. split.
  { by rewrite list_lookup_imap, Hp. }
  split.
  { intros j x. apply accumulated_gradient_lookup. }
  intros Hshape. by apply accumulated_gradient_length.
Qed.

Lemma compute_gradients_parameter_gradient_witness :
  exists weights m beta_grad,
    fitness_shaping example_returns = Ok weights /\
    @compute_gradients R _ counter_torch example_args example_model
      example_returns example_seeds example_is_anti
    = Ok (m, beta_grad) /\
    length m = 1%nat.
Proof.
  destruct (compute_gradients_parameter_gradient counter_torch example_args
              example_model example_returns example_seeds example_is_anti)
    as (weights & m & beta_grad & Hfs & Hrun & Hlen & _).
  - simpl. lia.
  - reflexivity.
  - reflexivity.
  - reflexivity.
  - simpl. lra.
  - intros _. simpl. eauto.
  - intros i _ Hsafe. discriminate Hsafe.
  - exists weights, m, beta_grad. split; [exact Hfs|]. split; [exact Hrun|].
    exact Hlen.
Defined.

(** C2. For every list of returns of length [N >= 2], [fitness_shaping]
    succeeds; the position of descending rank [k] receives the utility
    [max(0, log(N/2+1) - log(k+1))] divided by the sum of all utilities, minus
    [1/N]; and the weights sum to zero, whatever the returns are. *)
Theorem fitness_shaping_centered_rank (returns : list R) :
  let n := length returns in
  (2 <= n)%nat ->
  exists weights sorted_indices,
    fitness_shaping returns = Ok weights /\
    sorted_indices ≡ₚ seq 0 n /\
    (forall k i j,
       sorted_indices !! k = Some i -> sorted_indices !! S k = Some j ->
       returns !!! j <= returns !!! i) /\
    (forall k i,
       sorted_indices !! k = Some i ->
       weights !! i
       = Some (Rmax 0 (ln (INR n / 2 + 1) - ln (INR k + 1))
               / Rsum (map (fun k' => Rmax 0 (ln (INR n / 2 + 1) - ln (INR k' + 1)))
                           (seq 0 n))
               - 1 / INR n)) /\
    Rsum weights = 0.
Proof.
  intros n Hn.
  destruct (fitness_shaping_closed_form returns) as (weights & Hfs & Hlen & Hsum & Hw);
    [fold n; lia|].
  exists weights, (argsort (tneg returns)).
  split; [done|]. split.
  { rewrite argsort_perm. unfold tneg. by rewrite length_map. }
  split; [apply argsort_descending|]. split; [|done].
  intros k i Hk. by rewrite (Hw k i Hk).
Qed.

Lemma fitness_shaping_centered_rank_witness :
  exists weights,
    fitness_shaping example_returns = Ok weights /\ Rsum weights = 0.
Proof.
  destruct (fitness_shaping_centered_rank example_returns)
    as (weights & _ & Hfs & _ & _ & _ & Hsum).
  - simpl. lia.
  - exists weights. split; [exact Hfs | exact Hsum].
Defined.

(** C3. The two models [perturb_model] returns are mirror images of the
    parent: each perturbed tensor is the parent's plus, respectively minus,
    sigma times one and the same noise tensor, drawn once from the generator
    seeded with the given seed; tensors outside [es_parameters()] are
    copied; so every element satisfies [plus + minus = 2 * parent].
    ([es_parameters()] yields positions of the model, each once; with safe
    mutation the gradient buffers have the shape of their tensors and the
    noise is a real number.) *)
Theorem perturb_model_antithetic (torch : TorchRNG R) (es : list nat)
    (args : Args R) (parent_model : model R) (random_seed : Z) :
  (forall i, i ∈ es -> (i < length parent_model)%nat) ->
  NoDup es ->
  (safe_mutation args = true -> well_shaped parent_model) ->
  noise_is_real args (es_tensors parent_model es) random_seed ->
  exists model1 model2,
    perturb_model es args parent_model random_seed = Ok (model1, model2) /\
    (forall k i p,
       es !! k = Some i -> parent_model !! i = Some p ->
       let eps := noise args (es_tensors parent_model es) random_seed !!! k in
       data <$> model1 !! i = Some (tadd (data p) (tscale (sigma args) eps)) /\
       data <$> model2 !! i = Some (tsub (data p) (tscale (sigma args) eps))) /\
    (forall i,
       i ∉ es ->
       data <$> model1 !! i = data <$> parent_model !! i /\
       data <$> model2 !! i = data <$> parent_model !! i) /\
    (forall l p j x,
       parent_model !! l = Some p -> data p !! j = Some x ->
       exists p1 p2 x1 x2,
         model1 !! l = Some p1 /\ model2 !! l = Some p2 /\
         data p1 !! j = Some x1 /\ data p2 !! j = Some x2 /\
         x1 + x2 = 2 * x).
Proof.
  intros Hes Hnd Hshape _.
  destruct (perturb_model_mirrored es args parent_model random_seed Hes Hshape)
    as (model1 & model2 & Hrun & Hl1 & Hl2 & Hm).
  exists model1, model2. split; [done|].
  unfold perturb_model in Hrun.
  destruct (perturb_loop_noise args parent_model es Hnd _ _ _ _ _ Hrun)
    as [Hnoise Hkeep].
  assert (Hcopy : forall i, copy_model parent_model !! i
                  = (fun p => Param (data p) (tzeros (length (data p))))
                      <$> parent_model !! i).
  { intros i. unfold copy_model. apply lookup_map. }
  split; [|split].
  - intros k i p Hk Hp.
    apply (Hnoise k i (Param (data p) (tzeros (length (data p))))
                      (Param (data p) (tzeros (length (data p)))) Hk);
      by rewrite Hcopy, Hp.
  - intros i Hi. destruct (Hkeep i Hi) as [-> ->]. rewrite Hcopy.
    by destruct (parent_model !! i).
  - intros l p j x Hp Hx.
    destruct (lookup_lt_is_Some_2 model1 l) as [p1 Hp1].
    { rewrite Hl1. by eapply lookup_lt_Some. }
    destruct (lookup_lt_is_Some_2 model2 l) as [p2 Hp2].
    { rewrite Hl2. by eapply lookup_lt_Some. }
    destruct (Hm l p p1 p2 Hp Hp1 Hp2) as (delta & Hd & Hd1 & Hd2).
    destruct (lookup_lt_is_Some_2 delta j) as [y Hy].
    { rewrite Hd. by eapply lookup_lt_Some. }
    exists p1, p2, (x + y), (x - y).
    split; [done|]. split; [done|]. rewrite Hd1, Hd2.
    unfold tadd, tsub. rewrite !lookup_zip_with, Hx, Hy. cbn.
    split; [done|]. split; [done|]. lra.
Qed.

Lemma perturb_model_antithetic_witness :
  exists model1 model2,
    @perturb_model R _ counter_torch [0%nat] example_args example_model 7
    = Ok (model1, model2).
Proof.
  destruct (perturb_model_antithetic counter_torch [0%nat] example_args
              example_model 7)
    as (model1 & model2 & Hrun & _).
  - intros i Hi. apply list_elem_of_singleton in Hi. subst i. simpl. lia.
  - apply NoDup_singleton.
  - intros Hsafe. discriminate Hsafe.
  - intros Hsafe. discriminate Hsafe.
  - exists model1, model2. exact Hrun.
Defined.

(** C4 (amended). For a previous sigma that is a finite number and a [beta]
    after the updater step that is not NaN (a number or an infinity),
    [new_sigma = sqrt(0.5 exp(beta))] is a non-negative number or [+inf];
    the controller sets sigma to [new_sigma] when it lies within
    [[0.8, 1.2]] times the previous sigma, to [1.2] times the previous sigma
    when it is above (as it is for an infinite [new_sigma]), and to [0.8]
    times the previous sigma when it is below; so the new sigma is the
    previous one times a factor between [0.8] and [1.2]. *)
Theorem sigma_controller_clamps (args : Args xfloat) (b : xfloat)
    (sigma_prev : R) :
  beta args = Some b -> isnan b = false -> sigma args = Fin sigma_prev ->
  let new_sigma := sqrt (mul (frac 5 10) (exp b)) in
  let sigma' := sigma (sigma_controller args) in
  (forall x, b = Fin x ->
             new_sigma = Fin (R_sqrt.sqrt (0.5 * Rtrigo_def.exp x))) /\
  ((exists n, new_sigma = Fin n /\ 0 <= n) \/ new_sigma = PInf) /\
  (forall n, new_sigma = Fin n ->
             0.8 * sigma_prev <= n <= 1.2 * sigma_prev -> sigma' = Fin n) /\
  (forall n, new_sigma = Fin n ->
             n > 1.2 * sigma_prev -> sigma' = Fin (1.2 * sigma_prev)) /\
  (new_sigma = PInf -> sigma' = Fin (1.2 * sigma_prev)) /\
  (forall n, new_sigma = Fin n ->
             n < 0.8 * sigma_prev -> sigma' = Fin (0.8 * sigma_prev)) /\
  (exists f, 0.8 <= f <= 1.2 /\ sigma' = Fin (f * sigma_prev)).
Proof.
  intros Hb Hnan Hs new_sigma sigma'.
  unfold sigma'. rewrite (sigma_controller_stored args b Hb), Hs.
  fold new_sigma.
  destruct (new_sigma_cases b Hnan) as [(n & Hn & Hpos & Hfin & _)|[-> Hinf]];
    fold new_sigma in Hn || fold new_sigma in Hinf.
  - rewrite Hn.
    cbn [ltb mul frac xfloat_scalar xmul xltb]. unfold Rltb.
    split.
    { intros x ->. f_equal. rewrite (Hfin x eq_refl). unfold sigma_of_beta.
      done. }
    split; [left; eauto|].
    destruct (Rlt_dec (sigma_prev * (IZR 12 / IZR 10)) n) as [Hhi|Hhi].
    { split; [intros ? [= <-] ?; exfalso; lra|].
      split; [intros ? [= <-] ?; f_equal; lra|].
      split; [done|].
      split; [intros ? [= <-] ?; exfalso; lra|].
      exists 1.2. split; [lra|f_equal; lra]. }
    destruct (Rlt_dec n (sigma_prev * (IZR 8 / IZR 10))) as [Hlo|Hlo].
    { split; [intros ? [= <-] ?; exfalso; lra|].
      split; [intros ? [= <-] ?; exfalso; lra|].
      split; [done|].
      split; [intros ? [= <-] ?; f_equal; lra|].
      exists 0.8. split; [lra|f_equal; lra]. }
    split; [by intros ? [= <-] ?|].
    split; [intros ? [= <-] ?; exfalso; lra|].
    split; [done|].
    split; [intros ? [= <-] ?; exfalso; lra|].
    assert (Hsp : 0 <= sigma_prev) by lra.
    destruct (Req_dec_T sigma_prev 0) as [H0|H0].
    { exists 1. split; [lra|f_equal; lra]. }
    exists (n / sigma_prev). split; [|f_equal; field; lra].
    assert (Hf : n / sigma_prev * sigma_prev = n) by (field; lra).
    split.
    + apply Rnot_lt_le. intros Hc.
      assert (n / sigma_prev * sigma_prev < 0.8 * sigma_prev)
        by (apply Rmult_lt_compat_r; lra).
      lra.
    + apply Rnot_lt_le. intros Hc.
      assert (1.2 * sigma_prev < n / sigma_prev * sigma_prev)
        by (apply Rmult_lt_compat_r; lra).
      lra.
  - rewrite Hinf. cbn [ltb mul frac xfloat_scalar xmul xltb].
    split; [done|]. split; [by right|].
    split; [done|]. split; [done|].
    split; [intros _; f_equal; lra|].
    split; [done|].
    exists 1.2. split; [lra|f_equal; lra].
Qed.

Lemma sigma_controller_clamps_witness :
  exists f, 0.8 <= f <= 1.2 /\
            sigma (sigma_controller inf_args) = Fin (f * 1).
Proof.
  destruct (sigma_controller_clamps inf_args NInf 1)
    as (_ & _ & _ & _ & _ & _ & Hf).
  - reflexivity.
  - reflexivity.
  - reflexivity.
  - exact Hf.
Defined.

(** C4, as stated, fails for a [beta] that is NaN: both comparisons are
    false and the controller stores [new_sigma], which is NaN, where the
    previous sigma was [1]; no factor between [0.8] and [1.2] gives it. *)
Lemma sigma_controller_nan_beta :
  sigma nan_args = Fin 1 /\
  beta nan_args = Some NaN /\
  sigma (sigma_controller nan_args) = NaN /\
  ~ (exists f, 0.8 <= f <= 1.2 /\
               sigma (sigma_controller nan_args) = Fin (f * 1)).
Proof.
  assert (Hrun : sigma (sigma_controller nan_args) = NaN) by reflexivity.
  split; [done|]. split; [done|]. split; [done|].
  rewrite Hrun. by intros (f & _ & ?).
Qed.




(** C6 (amended). When [train_loop] starts from restored statistics whose
    last generation is [g], whose last sigma is [s] and whose series of
    episodes, observations and unperturbed returns are not empty, the loop
    starts at generation [g + 1], the working sigma is [s] itself, and the
    best unperturbed return so far is the maximum of the recorded ones; the
    best-so-far snapshot is not restored: its two parts, model and
    optimizer state, start empty. *)
Theorem train_loop_init_resumes {T : Type} `{Scalar T} {O : Type}
    (args : Args T) (stats : Stats T) (now : T) (g : nat) (s : T) :
  last (st_generations stats) = Some g ->
  last (st_sigma stats) = Some s ->
  st_episodes stats <> [] ->
  st_observations stats <> [] ->
  st_return_unp stats <> [] ->
  exists args' vars,
    train_loop_init (O := O) args (Some stats) now = Ok (args', stats, vars) /\
    start_generation vars = (g + 1)%nat /\
    sigma args' = s /\
    np_max (st_return_unp stats) = Ok (max_unperturbed_return vars) /\
    best_model_stdct vars = None /\
    best_optimizer_stdct vars = None.
Proof.
  intros Hg Hs Hep Hobs Hunp. unfold train_loop_init.
  destruct (last_item_nonempty _ Hep) as (ne & -> & _).
  destruct (last_item_nonempty _ Hobs) as (no & -> & _).
  rewrite (last_item_Ok _ _ Hg), (last_item_Ok _ _ Hs).
  destruct (np_max_nonempty _ Hunp) as (mx & Hmx). rewrite Hmx.
  rewrite !bind_Ok. eexists. eexists. split; [reflexivity|]. done.
Qed.

Lemma train_loop_init_resumes_witness :
  exists args' vars,
    train_loop_init (O := unit) example_args (Some example_stats) 0
    = Ok (args', example_stats, vars) /\
    start_generation vars = 2%nat /\ sigma args' = 0.07.
Proof.
  destruct (train_loop_init_resumes (O := unit) example_args example_stats 0
              1%nat 0.07)
    as (args' & vars & Hrun & Hgen & Hsigma & _).
  - reflexivity.
  - reflexivity.
  - discriminate.
  - discriminate.
  - discriminate.
  - exists args', vars. split; [exact Hrun|]. split; [exact Hgen | exact Hsigma].
Defined.

(** C6, as stated, fails: the checkpoint holds a best-so-far snapshot, and
    the loop restarted from it holds none. *)
Lemma resume_resets_best_snapshot :
  exists args' stats vars,
    resume example_args example_checkpoint false 0 = Ok (args', stats, vars) /\
    best_model_state_dict example_checkpoint = Some example_model /\
    best_optimizer_state_dict example_checkpoint = Some tt /\
    best_model_stdct vars = None /\
    best_optimizer_stdct vars = None.
Proof.
  eexists. eexists. eexists. split; [reflexivity|]. done.
Qed.

(** C7. Whenever [compute_sensitivities] succeeds (no assertion fails, so
    no NaN arose), every stored sensitivity tensor is the root-sum-square
    tensor of its parameter divided by that tensor's own maximum and then
    passed through the two masked assignments: a value below [1e-5] becomes
    exactly [1], a value above [1e5] becomes [1e5], any other value is kept;
    so every element is a finite number in [[1e-5, 1e5]], hence
    non-negative. *)
Theorem compute_sensitivities_range (dy_dw : nat -> nat -> list xfloat)
    (n_outputs : nat) (parent_model m : model xfloat) :
  compute_sensitivities dy_dw n_outputs parent_model = Ok m ->
  forall pid p',
    m !! pid = Some p' ->
    (exists mx,
       tmax (root_sum_square dy_dw n_outputs pid) = Ok mx /\
       grad p'
       = map clip (tdiv_scalar (root_sum_square dy_dw n_outputs pid) mx)) /\
    (forall r,
       clip (Fin r)
       = Fin (if Rlt_dec r (1 / 100000) then 1
              else if Rlt_dec 100000 r then 100000 else r)) /\
    Forall (fun x => exists r, x = Fin r /\ 1 / 100000 <= r <= 100000)
           (grad p').
Proof.
  intros Hrun pid p' Hp'.
  destruct (decide (n_outputs = 0%nat)) as [->|Hn].
  { apply compute_sensitivities_no_outputs in Hrun. by subst m. }
  destruct (compute_sensitivities_Ok dy_dw n_outputs parent_model m Hn Hrun)
    as [Hlen Hall].
  destruct (lookup_lt_is_Some_2 parent_model pid) as [p Hp].
  { rewrite <- Hlen. by eapply lookup_lt_Some. }
  destruct (Hall pid p p' Hp Hp') as (_ & (mx & Hmx & Hgrad) & Hnan & _).
  rewrite numerical_clip in Hgrad.
  split; [by exists mx|]. split; [apply clip_finite|].
  apply tany_false in Hnan. rewrite Hgrad in Hnan |- *.
  rewrite List.Forall_forall in Hnan. apply List.Forall_forall.
  intros x Hx. specialize (Hnan x Hx).
  apply list_elem_of_In, list_elem_of_fmap in Hx as (y & -> & _).
  by apply clip_range.
Qed.

Lemma compute_sensitivities_range_witness :
  compute_sensitivities example_dy_dw 1 example_xmodel
  = Ok [Param [Fin 0] [Fin 1]] /\
  Forall (fun x => exists r, x = Fin r /\ 1 / 100000 <= r <= 100000) [Fin 1].
Proof.
  split; [exact compute_sensitivities_example|].
  destruct (compute_sensitivities_range example_dy_dw 1 example_xmodel
              [Param [Fin 0] [Fin 1]] compute_sensitivities_example
              0%nat (Param [Fin 0] [Fin 1]) eq_refl)
    as (_ & _ & Hrange).
  exact Hrange.
Defined.

(** C8 (amended). In a generation with an even number [N] of agents,
    [N/2] seeds are drawn, each in [[0, 2^30)]; every drawn seed is handed
    to two worker processes, first with the negatively perturbed model and
    [is_negative = True], then with the positively perturbed model and
    [is_negative = False]; a seed value drawn [c] times therefore appears
    [2c] times among the [N] perturbed jobs, [c] times with each sign, and
    exactly twice when the drawn seeds are pairwise distinct. *)
Theorem dispatch_antithetic_pairs (torch : TorchRNG R) (numpy : NumpyRNG)
    (es : list nat) (args : Args R) (parent_model : model R) (st : np_rng) :
  randint_in_range ->
  Nat.Even (agents args) ->
  (forall i, i ∈ es -> (i < length parent_model)%nat) ->
  (safe_mutation args = true -> well_shaped parent_model) ->
  (forall s, noise_is_real args (es_tensors parent_model es) s) ->
  let seeds := drawn_seeds (agents args / 2) st in
  exists st' jobs,
    dispatch es args parent_model st
    = Ok (st', jobs ++ [unperturbed_job parent_model]) /\
    length seeds = (agents args / 2)%nat /\
    Forall (fun s => (0 <= s < 2 ^ 30)%Z) seeds /\
    length jobs = agents args /\
    (forall s,
       perturb_model es args parent_model s
       = Ok (model_plus es args parent_model s,
             model_minus es args parent_model s)) /\
    jobs
    = flat_map
        (fun s =>
           [MkJob (model_minus es args parent_model s) (Seed s) (Neg true) false;
            MkJob (model_plus es args parent_model s) (Seed s) (Neg false) false])
        (rev seeds) /\
    (forall s b, count_jobs s b jobs = times_drawn s seeds) /\
    (forall s, seed_occurrences s jobs = (2 * times_drawn s seeds)%nat) /\
    (NoDup seeds -> forall s, s ∈ seeds -> seed_occurrences s jobs = 2%nat).
Proof.
  intros Hrange [h Hh] Hes Hshape _ seeds.
  exists (np_rng_after (agents args / 2) st).
  exists (flat_map (perturbed_jobs es args parent_model) (rev seeds)).
  split; [by apply dispatch_spec|].
  split; [apply drawn_seeds_length|].
  split; [by apply drawn_seeds_range|].
  split.
  { unfold perturbed_jobs. rewrite flat_map_pair_length, length_rev.
    unfold seeds. rewrite drawn_seeds_length.
    assert (Hdiv : (agents args / 2)%nat = h).
    { rewrite Hh, Nat.mul_comm. by apply Nat.div_mul. }
    lia. }
  split; [intros s; by apply perturb_model_total|].
  split; [done|].
  split.
  { intros s b. by rewrite count_jobs_perturbed, times_drawn_rev. }
  split.
  { intros s. by rewrite seed_occurrences_perturbed, times_drawn_rev. }
  intros Hnd s Hs.
  rewrite seed_occurrences_perturbed, times_drawn_rev.
  by rewrite (times_drawn_NoDup s seeds Hnd Hs).
Qed.

Lemma dispatch_antithetic_pairs_witness :
  exists st' jobs,
    @dispatch R _ counter_torch replay_numpy [0%nat] example_args4
      example_model [5; 9]%Z
    = Ok (st', jobs ++ [unperturbed_job example_model]) /\
    length jobs = 4%nat /\
    seed_occurrences 9 jobs = 2%nat.
Proof.
  destruct (dispatch_antithetic_pairs counter_torch replay_numpy [0%nat]
              example_args4 example_model [5; 9]%Z)
    as (st' & jobs & Hrun & _ & _ & Hlen & _ & _ & _ & Hocc & _).
  - exact replay_randint_in_range.
  - exists 2%nat. reflexivity.
  - intros i Hi. apply list_elem_of_singleton in Hi. subst i. simpl. lia.
  - intros Hsafe. discriminate Hsafe.
  - intros s Hsafe. discriminate Hsafe.
  - exists st', jobs. split; [exact Hrun|]. split; [exact Hlen|].
    rewrite Hocc. reflexivity.
Defined.

(** C8, as stated, fails: when the generator returns the same value twice
    in one generation, that seed is dispatched four times, not twice. *)
Lemma dispatch_repeated_seed :
  exists st' jobs,
    @dispatch R _ counter_torch replay_numpy [0%nat] example_args4
      example_model [5; 5]%Z
    = Ok (st', jobs) /\
    seed_occurrences 5 jobs = 4%nat.
Proof.
  eexists. eexists. split.
  - apply (@dispatch_spec counter_torch replay_numpy [0%nat] example_args4
             example_model).
    + intros i Hi. apply list_elem_of_singleton in Hi. subst i. simpl. lia.
    + intros Hsafe. discriminate Hsafe.
  - rewrite seed_occurrences_app, seed_occurrences_perturbed. reflexivity.
Qed.

(** C9 fails for the [beta] gradient.  Here sigma is optimized and
    [exp(beta)] is zero, so the factor [1/(N exp(beta))] is infinite and
    every agent adds [+inf] to [beta_gradient]; [compute_gradients] stores
    [args.beta.grad = -inf] and returns normally: only NaN is asserted for
    [beta], whereas the parameter gradients are asserted against both. *)
Theorem compute_gradients_infinite_beta_gradient :
  exists m,
    @compute_gradients xfloat _ counter_torch_x inf_args example_xmodel
      inf_returns inf_seeds inf_is_anti
    = Ok (m, Some NInf) /\
    isinf NInf = true.
Proof.
  eexists. split; [|reflexivity].
  unfold compute_gradients. rewrite fitness_shaping_inf_returns.
  rewrite !bool_decide_eq_true_2 by reflexivity.
  unfold of_nat, inf_args. cbn [agents]. change (Z.of_nat 2) with 2%Z.
  repeat first
    [ progress cbn -[Req_dec_T Rlt_dec IZR Rmult Rplus Rdiv Ropp Rminus]
    | progress unfold py_div, signed_inf, Reqb, Rltb, of_nat
    | progress change (Z.of_nat 2) with 2%Z
    | case_R ].
  reflexivity.
Qed.

(** C10. After a generation with sigma self-adaptation enabled, [beta] holds
    [log(2 sigma^2)] of the (possibly clamped) sigma the controller stored;
    and for a positive sigma that [beta] maps back to the stored sigma, so
    the clamped value is what the next generation starts from. *)
Theorem update_step_resyncs_beta (torch : TorchRNG R) (updater : Optimizer R)
    (args : Args R) (parent_model : model R) (opt : optimizer)
    (returns : list R) (random_seeds : list Z) (is_anti_list : list bool)
    (args' : Args R) (parent_model' : model R) (opt' : optimizer) :
  optimize_sigma args = true ->
  update_step args parent_model opt returns random_seeds is_anti_list
  = Ok (args', parent_model', opt') ->
  exists b',
    beta args' = Some b' /\
    b' = ln (2 * (sigma args' * sigma args')) /\
    (0 < sigma args ->
     0 < sigma args' /\ R_sqrt.sqrt (0.5 * Rtrigo_def.exp b') = sigma args').
Proof.
  intros Hopt Hrun. unfold update_step in Hrun.
  destruct (compute_gradients _ _ _ _ _) as [[m beta_grad]|] eqn:Hcg; [|done].
  rewrite bind_Ok in Hrun.
  apply compute_gradients_Ok in Hcg as (_ & _ & bg & _ & _ & _ & Hbeta).
  destruct (set_beta_gradient_enabled _ _ _ Hopt Hbeta) as (b & g & Hb & ->).
  destruct (step_model opt m) as [o m']. rewrite Hb in Hrun.
  injection Hrun as <- <- <-.
  set (args1 := set_beta args (step_beta opt b g)).
  assert (Hb1 : beta args1 = Some (step_beta opt b g)) by done.
  eexists. split; [apply (sigma_controller_beta args1 _ Hb1)|].
  split; [done|]. intros Hs.
  assert (Hpos : 0 < sigma (sigma_controller args1))
    by (by apply (sigma_controller_pos args1 _ Hb1)).
  split; [done|]. by apply sigma_of_beta_log.
Qed.

Lemma update_step_resyncs_beta_witness :
  exists args' parent_model' opt',
    @update_step R _ counter_torch (sgd (1 / 100)) example_args example_model
      tt example_returns example_seeds example_is_anti
    = Ok (args', parent_model', opt') /\
    exists b', beta args' = Some b' /\
               b' = ln (2 * (sigma args' * sigma args')).
Proof.
  destruct (@compute_gradients_closed_form counter_torch example_args
              example_model example_returns example_seeds example_is_anti)
    as (weights & _ & _ & _ & Hcg).
  - simpl. lia.
  - reflexivity.
  - reflexivity.
  - simpl. lia.
  - simpl. lra.
  - intros _. simpl. eauto.
  - assert (Hupd : exists a m o,
              @update_step R _ counter_torch (sgd (1 / 100)) example_args
                example_model tt example_returns example_seeds example_is_anti
              = Ok (a, m, o)).
    { unfold update_step. rewrite Hcg. cbn -[sigma_controller]. eauto. }
    destruct Hupd as (a & m & o & Hupd).
    exists a, m, o. split; [exact Hupd|].
    destruct (update_step_resyncs_beta counter_torch (sgd (1 / 100))
                example_args example_model tt example_returns example_seeds
                example_is_anti a m o eq_refl Hupd)
      as (b' & Hb' & Heq & _).
    exists b'. split; [exact Hb' | exact Heq].
Defined.

End Claims.

(** * Auxiliary facts for the rest of the loop *)

(** ** The rank of the unperturbed model *)

Section RankFacts.
Context {T : Type} `{Scalar T}.

Lemma count_greater_cons (r : T) (returns : list T) (u : T) :
  count_greater (r :: returns) u
  = (if ltb u r then 1 else 0) + count_greater returns u.
Proof. done. Qed.

Lemma count_greater_le (returns : list T) (u : T) :
  count_greater returns u <= length returns.
Proof.
  induction returns as [|r returns IH]; [done|].
  rewrite count_greater_cons, length_cons. destruct (ltb u r); lia.
Qed.

Lemma count_greater_perm (returns returns' : list T) (u : T) :
  returns ≡ₚ returns' -> count_greater returns u = count_greater returns' u.
Proof.
  induction 1 as [|r l l' _ IH|r r' l|l l' l'' _ IH1 _ IH2];
    rewrite ?count_greater_cons; [done|by rewrite IH|lia|congruence].
Qed.

Lemma count_greater_none (returns : list T) (u : T) :
  count_greater returns u = 0 <-> Forall (fun r => ltb u r = false) returns.
Proof.
  induction returns as [|r returns IH]; [by split; [constructor|]|].
  rewrite count_greater_cons, Forall_cons. destruct (ltb u r) eqn:Hr.
  - split; [lia|]. by intros [? _].
  - rewrite <- IH. simpl. split; [done|]. by intros [_ ?].
Qed.

Lemma count_greater_all (returns : list T) (u : T) :
  count_greater returns u = length returns
  <-> Forall (fun r => ltb u r = true) returns.
Proof.
  induction returns as [|r returns IH]; [by split; [constructor|]|].
  rewrite count_greater_cons, Forall_cons, length_cons.
  pose proof (count_greater_le returns u).
  destruct (ltb u r) eqn:Hr.
  - rewrite <- IH. split; [intros; split; [done|lia]|intros [_ ?]; lia].
  - split; [lia|]. by intros [? _].
Qed.

End RankFacts.

Section Outputs.
Context {T : Type}.

Lemma index_app_r {A : Type} `{EqDecision A} (x : A) (pre post : list A) :
  Forall (fun y => y <> x) pre ->
  index x (pre ++ x :: post) = Ok (length pre).
Proof.
  induction 1 as [|y pre Hy _ IH]; simpl.
  - by rewrite decide_True.
  - rewrite decide_False by done. by rewrite IH.
Qed.

Lemma index_absent {A : Type} `{EqDecision A} (x : A) (l : list A) :
  Forall (fun y => y <> x) l -> index x l = Raise ValueError.
Proof.
  induction 1 as [|y l Hy _ IH]; simpl; [done|].
  rewrite decide_False by done. by rewrite IH.
Qed.

Lemma pop_middle {A : Type} (pre post : list A) (x : A) :
  pop (pre ++ x :: post) (length pre) = Ok (x, pre ++ post).
Proof.
  unfold pop. rewrite list_lookup_middle by done.
  by rewrite delete_middle.
Qed.

End Outputs.
(** ** Statistics and the best model *)

Section BookkeepingFacts.
Context {T : Type} `{Scalar T} `{ScalarOrder T} {O : Type}.

Lemma last_item_snoc {A : Type} (l : list A) (a : A) :
  last_item (l ++ [a]) = Ok a.
Proof. apply last_item_Ok, last_snoc. Qed.

Lemma np_max_snoc (l : list T) (u : T) :
  np_max (l ++ [u])
  = match l with
    | [] => Ok u
    | x :: l' => Ok (max (foldl max x l') u)
    end.
Proof. destruct l as [|x l']; [done|]. cbn. by rewrite foldl_app. Qed.

Lemma store_statistics_Ok (args : Args T) (stats stats' : Stats T)
    (vars vars' : LoopVars T O) (g : nat) (returns : list T)
    (obs : list nat) (u : T) (rank : nat) (now : T) :
  store_statistics args stats vars g returns obs u rank now = Ok (stats', vars') ->
  exists return_max return_min,
    np_max returns = Ok return_max /\
    np_min returns = Ok return_min /\
    stats' = MkStats (st_generations stats ++ [g])
               (st_episodes stats ++ [n_episodes vars + length returns])
               (st_observations stats ++ [n_observations vars + sum_list obs])
               (st_walltimes stats ++ [sub now (st_start_time stats)])
               (st_return_avg stats ++ [tmean returns])
               (st_return_var stats ++ [np_var returns])
               (st_return_max stats ++ [return_max])
               (st_return_min stats ++ [return_min])
               (st_return_unp stats ++ [u])
               (st_unp_rank stats ++ [rank])
               (st_sigma stats ++ [sigma args])
               (st_lr stats)
               (st_start_time stats) /\
    vars' = MkLoopVars (n_episodes vars + length returns)
              (n_observations vars + sum_list obs) (start_generation vars)
              (max_unperturbed_return vars) (best_model_stdct vars)
              (best_optimizer_stdct vars).
Proof.
  unfold store_statistics.
  destruct (np_max returns) as [mx|e]; [|done].
  destruct (np_min returns) as [mn|e]; [|done].
  rewrite !bind_Ok. intros [= <- <-]. by exists mx, mn.
Qed.

Lemma keep_best_counters (m : model T) (opt : O) (u : T) (vars : LoopVars T O) :
  n_episodes (keep_best m opt u vars) = n_episodes vars /\
  n_observations (keep_best m opt u vars) = n_observations vars /\
  start_generation (keep_best m opt u vars) = start_generation vars.
Proof. unfold keep_best. by destruct (geb _ _). Qed.

End BookkeepingFacts.

Section XfloatMax.

Lemma xmax_NaN_r (a : xfloat) : xmax a NaN = NaN.
Proof. by destruct a. Qed.

Lemma foldl_xmax_NaN (l : list xfloat) : foldl xmax NaN l = NaN.
Proof. induction l as [|x l IH]; [done|]. simpl. exact IH. Qed.

Lemma foldl_xmax_elem_NaN (l : list xfloat) (x : xfloat) :
  NaN ∈ l -> foldl xmax x l = NaN.
Proof.
  revert x. induction l as [|y l IH]; intros x Hin.
  - by apply elem_of_nil in Hin.
  - simpl. apply elem_of_cons in Hin as [<-|Hin].
    + rewrite xmax_NaN_r. apply foldl_xmax_NaN.
    + by apply IH.
Qed.

Lemma np_max_NaN (l : list xfloat) : NaN ∈ l -> np_max l = Ok NaN.
Proof.
  destruct l as [|x l]; intros Hin; [by apply elem_of_nil in Hin|].
  cbn. f_equal. apply elem_of_cons in Hin as [<-|Hin].
  - apply foldl_xmax_NaN.
  - by apply foldl_xmax_elem_NaN.
Qed.

End XfloatMax.
(** ** Paths *)

Section Paths.

Lemma split_nonempty (sep : ascii) (s : string) : split sep s <> [].
Proof.
  destruct s as [|c s]; simpl; [done|].
  destruct (Ascii.eqb c sep); [done|]. by destruct (split sep s).
Qed.

Lemma join_cons (sep x : string) (l : list string) :
  l <> [] -> join sep (x :: l) = x +:+ sep +:+ join sep l.
Proof. by destruct l. Qed.

Lemma join_split (sep : ascii) (s : string) :
  join (String sep EmptyString) (split sep s) = s.
Proof.
  induction s as [|c s IH]; [done|].
  cbn [split]. destruct (Ascii.eqb c sep) eqn:Hc.
  - apply Ascii.eqb_eq in Hc as ->.
    rewrite join_cons by apply split_nonempty. by rewrite IH.
  - pose proof (split_nonempty sep s) as Hne.
    destruct (split sep s) as [|x xs]; [done|].
    destruct xs as [|y xs]; cbn in *; by rewrite <- IH.
Qed.

Lemma split_app (sep : ascii) (a b : string) :
  split sep (a +:+ String sep b) = split sep a ++ split sep b.
Proof.
  induction a as [|c a IH]; simpl.
  - by rewrite Ascii.eqb_refl.
  - rewrite IH. destruct (Ascii.eqb c sep); [done|].
    pose proof (split_nonempty sep a) as Hne.
    by destruct (split sep a).
Qed.

(** A component holds no separator: splitting it gives back itself. *)
Lemma split_component (sep : ascii) (s c : string) :
  c ∈ split sep s -> split sep c = [c].
Proof.
  revert c. induction s as [|x s IH]; intros c; cbn [split].
  - intros ->%list_elem_of_singleton. done.
  - destruct (Ascii.eqb x sep) eqn:Hx.
    + intros [->|Hin]%elem_of_cons; [done|]. by apply IH.
    + pose proof (split_nonempty sep s) as Hne.
      destruct (split sep s) as [|y ys] eqn:Hs; [done|].
      intros [->|Hin]%elem_of_cons.
      * cbn [split]. rewrite Hx. rewrite (IH y) by left. done.
      * apply IH. by right.
Qed.

Lemma filter_all {A : Type} (f : A -> bool) (l : list A) :
  (forall x, x ∈ l -> f x = true) -> List.filter f l = l.
Proof.
  induction l as [|x l IH]; intros Hf; [done|].
  simpl. rewrite Hf by left. f_equal. apply IH. intros y Hy. apply Hf. by right.
Qed.

Lemma filter_none {A : Type} (f : A -> bool) (l : list A) :
  (forall x, x ∈ l -> f x = false) -> List.filter f l = [].
Proof.
  induction l as [|x l IH]; intros Hf; [done|].
  simpl. rewrite Hf by left. apply IH. intros y Hy. apply Hf. by right.
Qed.

End Paths.
(** ** Ranks and shaped weights *)

Section RankedWeights.
Local Open Scope R_scope.

(** The returns in the order [argsort] puts them. *)
Lemma sorted_returns_perm (returns : list R) :
  map (fun p : nat * R => - p.2) (sort_keys (imap pair (tneg returns)))
  ≡ₚ returns.
Proof.
  rewrite sort_keys_perm.
  replace (map (fun p : nat * R => - p.2) (imap pair (tneg returns)))
    with returns; [done|].
  apply list_eq. intros i. rewrite lookup_map, list_lookup_imap.
  unfold tneg. rewrite lookup_map.
  destruct (returns !! i) as [r|]; [|done]. cbn. unfold_R.
  by rewrite Ropp_involutive.
Qed.

Lemma key_le_trans : Transitive key_le.
Proof. intros p q r. unfold key_le. lra. Qed.

Lemma sorted_returns_descending (returns : list R) :
  StronglySorted (fun a b => b <= a)
    (map (fun p : nat * R => - p.2) (sort_keys (imap pair (tneg returns)))).
Proof.
  pose proof (Sorted_StronglySorted key_le_trans
                (sort_keys_sorted (imap pair (tneg returns)))) as Hs.
  induction Hs as [|p l Hl IH Hp]; [constructor|].
  cbn. constructor; [done|].
  apply Forall_fmap. eapply Forall_impl; [exact Hp|].
  intros q Hq. unfold key_le in Hq. cbn. lra.
Qed.

(** Position [k] of [argsort] holds the index of the [k]-th sorted return. *)
Lemma sorted_returns_lookup (returns : list R) (k i : nat) (r : R) :
  argsort (tneg returns) !! k = Some i -> returns !! i = Some r ->
  map (fun p : nat * R => - p.2) (sort_keys (imap pair (tneg returns))) !! k
  = Some r.
Proof.
  unfold argsort. rewrite list_lookup_fmap, lookup_map.
  destruct (sort_keys _ !! k) as [[i' x]|] eqn:Hk; [|done].
  cbn. intros [= ->] Hr. apply sort_keys_entries in Hk.
  unfold tneg in Hk. rewrite lookup_map, Hr in Hk. cbn in Hk.
  injection Hk as <-. unfold_R. by rewrite Ropp_involutive.
Qed.

Lemma count_greater_R_cons (x : R) (l : list R) (v : R) :
  count_greater (x :: l) v
  = ((if Rlt_dec v x then 1 else 0) + count_greater l v)%nat.
Proof. rewrite count_greater_cons. unfold_R. unfold Rltb. by destruct (Rlt_dec v x). Qed.

Lemma count_greater_zero (l : list R) (v : R) :
  Forall (fun y => y <= v) l -> count_greater l v = 0%nat.
Proof.
  intros Hl. apply count_greater_none. eapply Forall_impl; [exact Hl|].
  intros y Hy. unfold_R. by apply Rltb_false.
Qed.

(** In a descending list the element at position [k] has at most [k]
    greater elements, and exactly [k] when no value is repeated. *)
Lemma count_greater_sorted (l : list R) (k : nat) (v : R) :
  StronglySorted (fun a b => b <= a) l -> l !! k = Some v ->
  (count_greater l v <= k)%nat /\ (NoDup l -> count_greater l v = k).
Proof.
  intros Hs. revert k. induction Hs as [|x l Hl IH Hx]; intros k Hk; [done|].
  rewrite count_greater_R_cons. destruct k as [|k]; cbn in Hk.
  - injection Hk as ->. rewrite (count_greater_zero l v Hx).
    destruct (Rlt_dec v v); [lra|]. done.
  - destruct (IH k Hk) as [Hle Heq].
    assert (Hv : v <= x).
    { rewrite Forall_forall in Hx. apply Hx. by eapply list_elem_of_lookup_2. }
    split; [destruct (Rlt_dec v x); lia|].
    intros [Hnin Hnd]%NoDup_cons. rewrite (Heq Hnd).
    destruct (Rlt_dec v x); [done|].
    exfalso. apply Hnin. replace x with v by lra.
    by eapply list_elem_of_lookup_2.
Qed.

(** In a descending list a smaller value stands at a later position. *)
Lemma sorted_position_lt (l : list R) (k k' : nat) (v v' : R) :
  StronglySorted (fun a b => b <= a) l ->
  l !! k = Some v -> l !! k' = Some v' -> v' < v -> (k < k')%nat.
Proof.
  intros Hs. revert k k'.
  induction Hs as [|x l Hl IH Hx]; intros k k' Hk Hk' Hlt; [done|].
  rewrite Forall_forall in Hx.
  destruct k as [|k], k' as [|k']; cbn in Hk, Hk'.
  - simplify_eq. lra.
  - lia.
  - simplify_eq. pose proof (Hx v (list_elem_of_lookup_2 _ _ _ Hk)). lra.
  - pose proof (IH k k' Hk Hk' Hlt). lia.
Qed.

Lemma rank_utility_antitone (n k k' : nat) :
  (k <= k')%nat -> rank_utility n k' <= rank_utility n k.
Proof.
  intros Hk. unfold rank_utility.
  assert (Hln : ln (INR k + 1) <= ln (INR k' + 1)).
  { pose proof (pos_INR k). apply le_INR in Hk.
    destruct (Req_dec (INR k) (INR k')) as [->|Hne]; [lra|].
    left. apply ln_increasing; lra. }
  apply Rmax_lub; [apply Rmax_l|].
  eapply Rle_trans; [|apply Rmax_r]. lra.
Qed.

Lemma shaped_weight_antitone (n k k' : nat) :
  (1 <= n)%nat -> (k <= k')%nat -> shaped_weight n k' <= shaped_weight n k.
Proof.
  intros Hn Hk. unfold shaped_weight.
  pose proof (utility_total_pos n Hn) as Hpos.
  pose proof (rank_utility_antitone n k k' Hk) as Hle.
  assert (rank_utility n k' / utility_total n
          <= rank_utility n k / utility_total n); [|lra].
  apply Rmult_le_compat_r; [|done].
  left. by apply Rinv_0_lt_compat.
Qed.

Lemma rank_utility_zero (n k : nat) :
  (n <= 2 * k)%nat -> rank_utility n k = 0.
Proof.
  intros Hk. unfold rank_utility. apply Rmax_left.
  assert (HR : INR n <= 2 * INR k).
  { apply le_INR in Hk. by rewrite mult_INR in Hk. }
  pose proof (pos_INR n).
  assert (ln (INR n / 2 + 1) <= ln (INR k + 1)); [|lra].
  destruct (Req_dec (INR n / 2 + 1) (INR k + 1)) as [->|Hne]; [lra|].
  left. apply ln_increasing; lra.
Qed.

Lemma shaped_weight_floor (n k : nat) :
  (1 <= n)%nat ->
  - (1 / INR n) <= shaped_weight n k /\
  ((n <= 2 * k)%nat -> shaped_weight n k = - (1 / INR n)).
Proof.
  intros Hn. unfold shaped_weight.
  pose proof (utility_total_pos n Hn) as Hpos.
  pose proof (rank_utility_nonneg n k) as Hnn.
  split.
  - assert (0 <= rank_utility n k / utility_total n); [|lra].
    apply Rmult_le_pos; [done|]. left. by apply Rinv_0_lt_compat.
  - intros Hk. rewrite (rank_utility_zero n k Hk). lra.
Qed.

(** The weight of a return is the shaped weight of its position in the
    descending order; the position is at least the number of greater
    returns, and equal to it when the returns are pairwise distinct. *)
Lemma fitness_shaping_by_rank (returns : list R) :
  let n := length returns in
  (1 <= n)%nat ->
  exists weights,
    fitness_shaping returns = Ok weights /\
    length weights = n /\
    Rsum weights = 0 /\
    forall i r,
      returns !! i = Some r ->
      exists k,
        (k < n)%nat /\
        weights !! i = Some (shaped_weight n k) /\
        map (fun p : nat * R => - p.2)
            (sort_keys (imap pair (tneg returns))) !! k = Some r /\
        (count_greater returns r <= k)%nat /\
        (NoDup returns -> k = count_greater returns r).
Proof.
  intros n Hn.
  destruct (fitness_shaping_closed_form returns Hn)
    as (weights & Hfs & Hlen & Hsum & Hw).
  exists weights. split; [done|]. split; [done|]. split; [done|].
  intros i r Hr.
  assert (Hi : i ∈ argsort (tneg returns)).
  { rewrite argsort_perm. apply elem_of_seq. unfold tneg.
    rewrite length_map. apply lookup_lt_Some in Hr. lia. }
  apply list_elem_of_lookup_1 in Hi as [k Hk].
  exists k.
  assert (Hkn : (k < n)%nat).
  { apply lookup_lt_Some in Hk. rewrite argsort_length in Hk.
    unfold tneg in Hk. by rewrite length_map in Hk. }
  split; [done|]. split; [by apply Hw|].
  pose proof (sorted_returns_lookup returns k i r Hk Hr) as HD.
  split; [done|].
  destruct (count_greater_sorted _ k r (sorted_returns_descending returns) HD)
    as [Hle Heq].
  rewrite (count_greater_perm _ _ r (sorted_returns_perm returns)) in Hle, Heq.
  split; [done|]. intros Hnd. symmetry. apply Heq.
  by rewrite (sorted_returns_perm returns).
Qed.

(** [argsort] makes the same comparisons on keys transformed by an
    increasing map. *)
Lemma insert_key_increasing (h : R -> R) (p : nat * R) (l : list (nat * R)) :
  (forall x y, x < y <-> h x < h y) ->
  insert_key (p.1, h p.2) (map (fun q : nat * R => (q.1, h q.2)) l)
  = map (fun q : nat * R => (q.1, h q.2)) (insert_key p l).
Proof.
  intros Hh. induction l as [|q l IH]; cbn [map insert_key fst snd]; [done|].
  rewrite !key_ltb_R.
  assert (Rltb (h q.2) (h p.2) = Rltb q.2 p.2) as ->.
  { unfold Rltb. destruct (Rlt_dec q.2 p.2) as [Hlt|Hge];
      destruct (Rlt_dec (h q.2) (h p.2)) as [Hlt'|Hge']; try done.
    - exfalso. apply Hge'. by apply (proj1 (Hh _ _)).
    - exfalso. apply Hge. by apply (proj2 (Hh _ _)). }
  destruct (Rltb q.2 p.2); [|done]. cbn. by rewrite <- IH.
Qed.

Lemma sort_keys_increasing (h : R -> R) (l : list (nat * R)) :
  (forall x y, x < y <-> h x < h y) ->
  sort_keys (map (fun q : nat * R => (q.1, h q.2)) l)
  = map (fun q : nat * R => (q.1, h q.2)) (sort_keys l).
Proof.
  intros Hh. unfold sort_keys. induction l as [|p l IH]; [done|].
  cbn. rewrite IH. by apply (insert_key_increasing h p).
Qed.

Lemma argsort_increasing (f : R -> R) (returns : list R) :
  (forall x y, x < y -> f x < f y) ->
  argsort (tneg (map f returns)) = argsort (tneg returns).
Proof.
  intros Hf. unfold argsort.
  set (h := fun y => - f (- y)).
  assert (Hh : forall x y, x < y <-> h x < h y).
  { intros x y. unfold h. split.
    - intros Hlt. assert (f (- y) < f (- x)) by (apply Hf; lra). lra.
    - intros Hlt. destruct (Rlt_dec x y) as [|Hge]; [done|]. exfalso.
      destruct (Req_dec x y) as [->|Hne]; [lra|].
      assert (f (- x) < f (- y)) by (apply Hf; lra). lra. }
  replace (imap pair (tneg (map f returns)))
    with (map (fun q : nat * R => (q.1, h q.2)) (imap pair (tneg returns))).
  - rewrite (sort_keys_increasing h _ Hh).
    rewrite <- !list_fmap_compose. done.
  - apply list_eq. intros i.
    rewrite lookup_map, !list_lookup_imap. unfold tneg.
    rewrite !lookup_map. destruct (returns !! i) as [r|]; [|done].
    cbn. unfold h. unfold_R. by rewrite Ropp_involutive.
Qed.

End RankedWeights.
(** ** The gradient estimator on a batch in any order *)

Section BatchOrder.
Context `{TorchRNG R}.
Local Open Scope R_scope.

Lemma Rsum_perm (l l' : list R) : l ≡ₚ l' -> Rsum l = Rsum l'.
Proof. induction 1; simpl; lra. Qed.

Lemma map_perm_ext {A B : Type} (f g : A -> B) (l l' : list A) :
  (forall a, f a = g a) -> l ≡ₚ l' -> map f l ≡ₚ map g l'.
Proof.
  intros Hfg Hp. rewrite (map_ext f g Hfg). by apply Permutation_map.
Qed.

Lemma tadd_swap (a x y : list R) : tadd (tadd a x) y = tadd (tadd a y) x.
Proof.
  unfold tadd. revert x y.
  induction a as [|u a IH]; intros [|v x] [|w y]; simpl; try done.
  f_equal; [unfold_R; lra|apply IH].
Qed.

Lemma tensor_sum_perm (size : nat) (ts ts' : list (list R)) :
  ts ≡ₚ ts' -> tensor_sum size ts = tensor_sum size ts'.
Proof.
  unfold tensor_sum. generalize (tzeros (T := R) size). intros acc Hp.
  revert acc.
  induction Hp as [|t l l' _ IH|t t' l|l l' l'' _ IH1 _ IH2]; intros acc; simpl.
  - done.
  - apply IH.
  - by rewrite tadd_swap.
  - by rewrite IH1.
Qed.

(** A map over the positions of a batch, written as a map over its
    entries. *)
Lemma batch_map {B : Type} (outs : list (R * Z * bool)) (weights : list R)
    (W : R -> R) (F : R -> Z -> bool -> B) :
  (forall i o, outs !! i = Some o -> weights !! i = Some (W o.1.1)) ->
  map (fun i => F (weights !!! i) (outs.*1.*2 !!! i) (outs.*2 !!! i))
      (seq 0 (length outs))
  = map (fun o => F (W o.1.1) o.1.2 o.2) outs.
Proof.
  intros Hw. apply list_eq. intros i. rewrite !lookup_map.
  destruct (outs !! i) as [o|] eqn:Ho.
  - rewrite lookup_seq_lt by (by eapply lookup_lt_Some). cbn. f_equal.
    rewrite (list_lookup_total_correct _ _ _ (Hw i o Ho)).
    assert (Hs : outs.*1.*2 !! i = Some o.1.2).
    { by rewrite !list_lookup_fmap, Ho. }
    assert (Ha : outs.*2 !! i = Some o.2).
    { by rewrite list_lookup_fmap, Ho. }
    by rewrite (list_lookup_total_correct _ _ _ Hs),
               (list_lookup_total_correct _ _ _ Ha).
  - rewrite lookup_seq_ge; [done|]. by apply lookup_ge_None.
Qed.

(** The weights of a batch of pairwise distinct returns, by return. *)
Lemma fitness_shaping_distinct (returns : list R) :
  (1 <= length returns)%nat -> NoDup returns ->
  exists weights,
    fitness_shaping returns = Ok weights /\
    length weights = length returns /\
    Rsum weights = 0 /\
    forall i r,
      returns !! i = Some r ->
      weights !! i
      = Some (shaped_weight (length returns) (count_greater returns r)).
Proof.
  intros Hn Hnd.
  destruct (fitness_shaping_by_rank returns Hn)
    as (weights & Hfs & Hlen & Hsum & Hw).
  exists weights. split; [done|]. split; [done|]. split; [done|].
  intros i r Hr. destruct (Hw i r Hr) as (k & _ & Hk & _ & _ & Heq).
  by rewrite <- (Heq Hnd).
Qed.

(** The result of [compute_gradients] on a batch of pairwise distinct
    returns, as sums over the entries of the batch. *)
Lemma compute_gradients_batch (args : Args R) (parent_model : model R)
    (outs : list (R * Z * bool)) :
  agents args <> 0%nat ->
  length outs = agents args ->
  sigma args <> 0 ->
  (optimize_sigma args = true -> is_Some (beta args)) ->
  NoDup (outs.*1.*1) ->
  let W := fun r =>
    shaped_weight (length outs) (count_greater (outs.*1.*1) r) in
  compute_gradients args parent_model (outs.*1.*1) (outs.*1.*2) (outs.*2)
  = Ok (imap (fun layer p =>
                Param (data p)
                  (tneg (tscale (1 / (INR (agents args)
                                      * (sigma args * sigma args)))
                           (tensor_sum (length (data p))
                              (map (fun o =>
                                      tscale (W o.1.1 * sign_of o.2)
                                        (noise args parent_model o.1.2
                                           !!! layer))
                                   outs)))))
             parent_model,
        if optimize_sigma args
        then Some (- Rsum (map (fun o =>
                                  Rsum (map (beta_term args (W o.1.1))
                                            (noise args parent_model o.1.2)))
                               outs))
        else None).
Proof.
  intros HN Hlen Hsigma Hbeta Hnd W.
  assert (Hlr : length (outs.*1.*1) = length outs) by (by rewrite !length_fmap).
  destruct (fitness_shaping_distinct (outs.*1.*1)) as (weights & Hfs & Hwl & _ & Hw).
  { rewrite Hlr. lia. }
  { done. }
  destruct (compute_gradients_closed_form args parent_model (outs.*1.*1)
              (outs.*1.*2) (outs.*2) HN)
    as (weights' & Hfs' & _ & _ & Hrun).
  { by rewrite Hlr. }
  { by rewrite !length_fmap. }
  { rewrite length_fmap. lia. }
  { done. }
  { done. }
  rewrite Hfs in Hfs'. injection Hfs' as <-.
  rewrite Hrun. clear Hrun.
  assert (Hwo : forall i o, outs !! i = Some o -> weights !! i = Some (W o.1.1)).
  { intros i o Ho. unfold W. rewrite <- Hlr. apply Hw.
    by rewrite !list_lookup_fmap, Ho. }
  f_equal. f_equal.
  - apply imap_ext. intros layer p _. cbn. f_equal. f_equal.
    unfold accumulated_gradient. f_equal. f_equal.
    rewrite <- Hlen.
    apply (batch_map outs weights W
             (fun w s a => tscale (w * sign_of a)
                             (noise args parent_model s !!! layer)) Hwo).
  - destruct (optimize_sigma args); [|done]. f_equal. f_equal.
    unfold accumulated_beta. f_equal. rewrite <- Hlen.
    apply (batch_map outs weights W
             (fun w s (_ : bool) =>
                Rsum (map (beta_term args w) (noise args parent_model s)))
             Hwo).
Qed.

End BatchOrder.

(** ** The loops of [compute_gradients] *)

Section GradientLoops.
Context {T : Type} `{Scalar T} `{TorchRNG T}.

Lemma agent_loop_app (args : Args T) (params : model T)
    (shaped_returns : list T) (random_seeds : list Z)
    (is_anti_list : list bool) (ids1 ids2 : list nat)
    (wg : list (list T)) (bg : T) :
  agent_loop args params shaped_returns random_seeds is_anti_list
    (ids1 ++ ids2) wg bg
  = '(wg', bg') ←
      agent_loop args params shaped_returns random_seeds is_anti_list
        ids1 wg bg;
    agent_loop args params shaped_returns random_seeds is_anti_list
      ids2 wg' bg'.
Proof.
  revert wg bg. induction ids1 as [|i ids1 IH]; intros wg bg; [done|].
  cbn [app agent_loop].
  destruct (getitem is_anti_list i) as [a|]; [|done]. rewrite !bind_Ok.
  destruct (getitem shaped_returns i) as [r|]; [|done]. rewrite !bind_Ok.
  destruct (getitem random_seeds i) as [s|]; [|done]. rewrite !bind_Ok.
  destruct (layer_loop _ _ _ _ _ _ _ _) as [[wg1 bg1]|]; [|done].
  rewrite !bind_Ok. apply IH.
Qed.

Lemma set_gradients_data (params : model T) (layer : nat)
    (wg : list (list T)) (m : model T) :
  set_gradients layer params wg = Ok m -> map data m = map data params.
Proof.
  revert layer m. induction params as [|p rest IH]; intros layer m; cbn.
  - by intros [= <-].
  - destruct (getitem wg layer) as [g|]; [|done]. rewrite bind_Ok.
    destruct (assert (negb (tany isnan (tneg g)))); [|done]. rewrite bind_Ok.
    destruct (assert (negb (tany isinf (tneg g)))); [|done]. rewrite bind_Ok.
    destruct (set_gradients (S layer) rest wg) as [rest'|] eqn:Hrest; [|done].
    rewrite bind_Ok. intros [= <-]. cbn. f_equal. by eapply IH.
Qed.

Lemma set_sensitivities_data (params : model T) (pid : nat)
    (sens : list (list T)) (m : model T) :
  set_sensitivities pid params sens = Ok m -> map data m = map data params.
Proof.
  revert pid m. induction params as [|p rest IH]; intros pid m; cbn.
  - by intros [= <-].
  - destruct (getitem sens pid) as [s|]; [|done]. rewrite bind_Ok.
    destruct (no_nan_inf s); [|done]. rewrite bind_Ok.
    destruct (set_sensitivities (S pid) rest sens) as [rest'|] eqn:Hrest; [|done].
    rewrite bind_Ok. intros [= <-]. cbn. f_equal. by eapply IH.
Qed.

End GradientLoops.
(** ** One agent *)

Section OneAgent.
Context `{TorchRNG R}.
Local Open Scope R_scope.

Lemma Rsum_zeros {A : Type} (f : A -> R) (l : list A) :
  (forall a, f a = 0) -> Rsum (map f l) = 0.
Proof.
  intros Hf. induction l as [|a l IH]; [done|]. simpl. rewrite Hf, IH. lra.
Qed.

Lemma beta_term_zero (args : Args R) (eps : list R) :
  beta_term args 0 eps = 0.
Proof.
  unfold beta_term. destruct (optimize_sigma args); [|done].
  destruct (beta args); [|done]. lra.
Qed.

End OneAgent.

(** A run of [compute_gradients] on extended reals. *)
Lemma compute_gradients_xfloat_run :
  exists m beta_grad,
    @compute_gradients xfloat _ counter_torch_x inf_args example_xmodel
      inf_returns inf_seeds inf_is_anti = Ok (m, beta_grad).
Proof.
  eexists _, _.
  unfold compute_gradients. rewrite fitness_shaping_inf_returns.
  rewrite !bool_decide_eq_true_2 by reflexivity.
  unfold of_nat, inf_args. cbn [agents]. change (Z.of_nat 2) with 2%Z.
  repeat first
    [ progress cbn -[Req_dec_T Rlt_dec IZR Rmult Rplus Rdiv Ropp Rminus]
    | progress unfold py_div, signed_inf, Reqb, Rltb, of_nat
    | progress change (Z.of_nat 2) with 2%Z
    | case_R ].
  reflexivity.
Qed.
(** ** Noise with unit deviation *)

Section UnitDeviation.
Local Open Scope R_scope.

Lemma Rsum_map_div (c : R) (l : list R) :
  Rsum (map (fun x => x / c) l) = Rsum l / c.
Proof. induction l as [|x l IH]; simpl; [lra|]. rewrite IH. lra. Qed.

Lemma tmean_tdiv_scalar (a : list R) (c : R) :
  tmean (tdiv_scalar a c) = tmean a / c.
Proof.
  unfold tmean, tdiv_scalar. rewrite !tsum_Rsum, length_map. unfold_R.
  rewrite Rsum_map_div. lra.
Qed.

(** The sum of the squared deviations from the mean. *)
Lemma deviations_tdiv_scalar (a : list R) (c : R) :
  c <> 0 ->
  tsum (tpow2 (tsub_scalar (tdiv_scalar a c) (tmean (tdiv_scalar a c))))
  = tsum (tpow2 (tsub_scalar a (tmean a))) / (c * c).
Proof.
  intros Hc. rewrite tmean_tdiv_scalar, !tsum_Rsum.
  unfold tpow2, tsub_scalar, tdiv_scalar, pow2. rewrite !map_map. unfold_R.
  rewrite <- Rsum_map_div, map_map. apply Rsum_map_ext. intros x _. by field.
Qed.

Lemma tstd_tdiv_scalar_self (a : list R) :
  tstd a <> 0 -> tstd (tdiv_scalar a (tstd a)) = 1.
Proof.
  intros Hc. unfold tstd at 1. rewrite (deviations_tdiv_scalar a _ Hc).
  unfold tdiv_scalar at 1. rewrite length_map.
  set (S := tsum (tpow2 (tsub_scalar a (tmean a)))) in *.
  set (d := of_Z (Z.of_nat (length a) - 1)) in *.
  assert (Hstd : tstd a = R_sqrt.sqrt (S / d)) by done.
  unfold_R.
  assert (Hpos : 0 < S / d).
  { destruct (Rlt_dec 0 (S / d)) as [|Hle]; [done|]. exfalso. apply Hc.
    rewrite Hstd. apply sqrt_neg_0. lra. }
  assert (Hsq : tstd a * tstd a = S / d).
  { rewrite Hstd. apply sqrt_sqrt. lra. }
  rewrite Hsq.
  replace (S / (S / d) / d) with 1.
  - apply sqrt_1.
  - assert (d <> 0).
    { intros Hd. rewrite Hd in Hpos. unfold Rdiv in Hpos.
      rewrite Rinv_0 in Hpos. lra. }
    assert (S <> 0).
    { intros HS. rewrite HS in Hpos. unfold Rdiv in Hpos. lra. }
    by field.
Qed.

End UnitDeviation.

(** ** Assertions on extended reals *)

Section NonFinite.

Lemma normal_length_any {T : Type} `{TorchRNG T} (n : nat) (st : rng) :
  length (normal_ n st).1 = n.
Proof.
  revert st. induction n as [|n IH]; intros st; [done|].
  cbn [normal_]. destruct (randn st) as [x st1].
  specialize (IH st1). destruct (normal_ n st1) as [xs st2].
  cbn in *. by rewrite IH.
Qed.

(** A non-empty tensor without any finite element fails one of the two
    assertions. *)
Lemma no_nan_inf_nonfinite (a : list xfloat) :
  a <> [] -> Forall (fun x => isnan x || isinf x = true) a ->
  no_nan_inf a = Raise AssertionError.
Proof.
  intros Hne Hall. destruct a as [|x a]; [done|].
  apply Forall_cons in Hall as [Hx _].
  unfold no_nan_inf, tany. cbn [existsb].
  destruct (isnan x) eqn:Hxn; [done|]. cbn [orb] in *. rewrite Hx.
  cbn [orb negb]. by destruct (existsb isnan a).
Qed.

Lemma xmul_nonfinite (s e : xfloat) :
  isnan s || isinf s = true ->
  isnan (xmul s e) || isinf (xmul s e) = true.
Proof.
  destruct s as [x| | |]; [done| | |done]; intros _;
    destruct e as [y| | |]; try done; cbn; unfold signed_inf;
    destruct (Req_dec_T y 0); try done; by destruct (Rlt_dec 0 y).
Qed.

Lemma xadd_nonfinite (d t : xfloat) :
  isnan t || isinf t = true ->
  isnan (xadd d t) || isinf (xadd d t) = true /\
  isnan (xsub d t) || isinf (xsub d t) = true.
Proof. destruct t as [x| | |]; [done| | |]; intros _; by destruct d. Qed.

End NonFinite.

(** ** Sensitivities *)

Section SensitivityFacts.
Local Open Scope R_scope.

Lemma xmax_cases (a b : xfloat) :
  xmax a b = NaN \/ xmax a b = a \/ xmax a b = b.
Proof.
  destruct a, b; cbn; auto; destruct (Rltb _ _); auto.
Qed.

(** The maximum is one of the elements, unless it is [NaN]. *)
Lemma foldl_xmax_attained (l : list xfloat) (a : xfloat) :
  foldl xmax a l <> NaN -> foldl xmax a l ∈ a :: l.
Proof.
  revert a. induction l as [|x l IH]; intros a Hne; [left|].
  cbn in *. specialize (IH _ Hne).
  apply elem_of_cons in IH as [Heq|Hin]; [|by do 2 right].
  rewrite Heq. destruct (xmax_cases a x) as [Hm|[Hm|Hm]].
  - rewrite Hm, foldl_xmax_NaN in Hne. done.
  - rewrite Hm. left.
  - rewrite Hm. right. left.
Qed.

(** Below a finite maximum every element is [-inf] or a smaller finite
    number. *)
Lemma xmax_Fin_le (a b : xfloat) (M : R) :
  (xmax a b = NInf \/ exists r, xmax a b = Fin r /\ r <= M) ->
  (a = NInf \/ exists r, a = Fin r /\ r <= M) /\
  (b = NInf \/ exists r, b = Fin r /\ r <= M).
Proof.
  destruct a as [x| | |], b as [y| | |]; cbn;
    try (intros [?|(r & ? & ?)]; done); try (intros _; split; by left).
  - unfold Rltb. destruct (Rlt_dec x y) as [Hlt|Hge].
    + intros [?|(r & [= <-] & Hr)]; [done|].
      split; right; eexists; (split; [done|lra]).
    + intros [?|(r & [= <-] & Hr)]; [done|].
      split; right; eexists; (split; [done|lra]).
  - intros H. split; [done|by left].
  - intros H. split; [by left|done].
Qed.

Lemma foldl_xmax_Fin (l : list xfloat) (a : xfloat) (M : R) :
  foldl xmax a l = Fin M ->
  Forall (fun y => y = NInf \/ exists r, y = Fin r /\ r <= M) (a :: l).
Proof.
  revert a. induction l as [|x l IH]; intros a Hmax.
  - cbn in Hmax. subst a. apply Forall_cons. split; [|constructor].
    right. exists M. split; [done|lra].
  - cbn in Hmax. specialize (IH _ Hmax).
    apply Forall_cons in IH as [Hax Hl].
    destruct (xmax_Fin_le a x M Hax) as [Ha Hx].
    apply Forall_cons. split; [done|]. by apply Forall_cons.
Qed.

Lemma xsqrt_shape (y : xfloat) :
  xsqrt y = NaN \/ xsqrt y = PInf \/ exists r, xsqrt y = Fin r /\ 0 <= r.
Proof.
  destruct y as [x| | |]; cbn; auto.
  destruct (Rlt_dec x 0); auto.
  right. right. eexists. split; [done|]. apply sqrt_pos.
Qed.

Lemma xdiv_NaN_r (a : xfloat) : xdiv a NaN = NaN.
Proof. by destruct a. Qed.

(** One normalized and clipped root: a number between the floor and one,
    whenever it passes the assertions. *)
Lemma clip_normalized (y mx : xfloat) (l : list xfloat) :
  xsqrt y ∈ l -> tmax l = Ok mx ->
  isnan (clip (xdiv (xsqrt y) mx)) = false ->
  exists r, clip (xdiv (xsqrt y) mx) = Fin r /\ 1 / 100000 <= r <= 1.
Proof.
  intros Hin Hmax Hnan.
  destruct l as [|a l]; [done|]. cbn in Hmax. injection Hmax as Hmax.
  assert (Hone : clip (Fin 0) = Fin 1).
  { rewrite clip_finite. destruct (Rlt_dec 0 (1 / 100000)); [done|lra]. }
  destruct mx as [M| | |].
  - pose proof (foldl_xmax_Fin l a M Hmax) as Hall.
    rewrite Forall_forall in Hall. specialize (Hall _ Hin).
    destruct (xsqrt_shape y) as [Hy|[Hy|(r & Hy & Hr)]];
      rewrite Hy in Hall, Hnan |- *.
    + by destruct Hall as [?|(? & ? & _)].
    + by destruct Hall as [?|(? & ? & _)].
    + destruct Hall as [?|(r' & [= <-] & HrM)]; [done|].
      cbn in Hnan |- *. destruct (Req_dec_T M 0) as [->|HM].
      * assert (r = 0) as -> by lra. unfold signed_inf in Hnan.
        destruct (Req_dec_T 0 0); [done|lra].
      * rewrite clip_finite.
        assert (0 < M) by lra.
        assert (0 <= r / M) by (apply Rmult_le_pos; [done|left; by apply Rinv_0_lt_compat]).
        assert (r / M <= 1).
        { apply (Rmult_le_reg_r M); [done|]. field_simplify; lra. }
        destruct (Rlt_dec (r / M) (1 / 100000)); [eexists; split; [done|lra]|].
        destruct (Rlt_dec 100000 (r / M)); [lra|].
        eexists. split; [done|lra].
  - destruct (xsqrt_shape y) as [Hy|[Hy|(r & Hy & Hr)]];
      rewrite Hy in Hnan |- *; try done.
    cbn. rewrite Hone. exists 1. split; [done|lra].
  - destruct (xsqrt_shape y) as [Hy|[Hy|(r & Hy & Hr)]];
      rewrite Hy in Hnan |- *; try done.
    cbn. rewrite Hone. exists 1. split; [done|lra].
  - by rewrite xdiv_NaN_r in Hnan.
Qed.

(** The greatest root is normalized to one. *)
Lemma clip_normalized_max (ys : list xfloat) (mx : xfloat) :
  tmax (map xsqrt ys) = Ok mx ->
  Forall (fun x => isnan x = false)
         (map clip (map (fun x => xdiv x mx) (map xsqrt ys))) ->
  Fin 1 ∈ map clip (map (fun x => xdiv x mx) (map xsqrt ys)).
Proof.
  intros Hmax Hnan.
  destruct (map xsqrt ys) as [|a l] eqn:Hl; [done|].
  cbn in Hmax. injection Hmax as Hmax.
  assert (Hne : mx <> NaN).
  { intros ->. apply Forall_cons in Hnan as [Ha _].
    by rewrite xdiv_NaN_r in Ha. }
  assert (Hin : mx ∈ a :: l).
  { rewrite <- Hmax. apply foldl_xmax_attained. by rewrite Hmax. }
  assert (Hsq : exists y, mx = xsqrt y).
  { rewrite <- Hl in Hin. apply list_elem_of_fmap in Hin as (y & -> & _).
    by exists y. }
  destruct Hsq as [y Hy].
  assert (Hclip : clip (xdiv mx mx) ∈ map clip (map (fun x => xdiv x mx) (a :: l))).
  { apply list_elem_of_fmap. exists (xdiv mx mx). split; [done|].
    apply list_elem_of_fmap. by exists mx. }
  assert (Hcn : isnan (clip (xdiv mx mx)) = false).
  { rewrite Forall_forall in Hnan. by apply Hnan. }
  replace (Fin 1) with (clip (xdiv mx mx)); [done|].
  destruct (xsqrt_shape y) as [Hs|[Hs|(r & Hs & Hr)]];
    rewrite <- Hy in Hs; rewrite Hs in Hcn |- *; try done.
  cbn in Hcn |- *. destruct (Req_dec_T r 0) as [->|Hr0].
  - unfold signed_inf in Hcn. destruct (Req_dec_T 0 0); [done|lra].
  - rewrite clip_finite. replace (r / r) with 1 by (by field).
    destruct (Rlt_dec 1 (1 / 100000)); [lra|].
    destruct (Rlt_dec 100000 1); [lra|done].
Qed.

End SensitivityFacts.
Section SensitivityErrors.
Context {T : Type} `{Scalar T}.

Lemma mapM_normalize_Ok (l : list (list T)) :
  Forall (fun s => s <> []) l -> exists l', mapM normalize l = Ok l'.
Proof.
  induction 1 as [|s l Hs _ [l' IH]]; [by exists []|].
  assert (Hb : exists b, normalize s = Ok b).
  { destruct s as [|x s]; [done|]. cbn. eauto. }
  destruct Hb as [b Hb]. cbn. rewrite Hb. cbn. rewrite IH. cbn. eauto.
Qed.

Lemma mapM_normalize_length (l l' : list (list T)) :
  mapM normalize l = Ok l' -> length l' = length l.
Proof.
  intros Hrun. apply mapM_Ok in Hrun. symmetry. by eapply Forall2_length.
Qed.

(** With a sensitivity for every parameter, the storing loop can only
    fail an assertion. *)
Lemma set_sensitivities_error (params : model T) (pid : nat)
    (sens : list (list T)) (e : exn) :
  pid + length params <= length sens ->
  set_sensitivities pid params sens = Raise e -> e = AssertionError.
Proof.
  revert pid. induction params as [|p rest IH]; intros pid Hlen; [done|].
  cbn in Hlen |- *. unfold getitem.
  destruct (sens !! pid) as [s|] eqn:Hs.
  2:{ apply lookup_ge_None in Hs. lia. }
  rewrite bind_Ok. unfold no_nan_inf, assert.
  destruct (negb (tany isnan s)); [|by intros [= <-]]. rewrite bind_Ok.
  destruct (negb (tany isinf s)); [|by intros [= <-]]. rewrite bind_Ok.
  destruct (set_sensitivities (S pid) rest sens) as [rest'|e'] eqn:Hrest.
  - by rewrite bind_Ok.
  - cbn. intros [= <-]. apply (IH (S pid)); [lia|done].
Qed.

End SensitivityErrors.

Section ZeroTensor.
Local Open Scope R_scope.

Lemma tadd_zeros (k : nat) :
  tadd (replicate k (Fin 0)) (replicate k (Fin 0)) = replicate k (Fin 0).
Proof.
  unfold tadd. induction k as [|k IH]; [done|].
  cbn [replicate zip_with]. rewrite IH. cbn. by rewrite Rplus_0_l.
Qed.

Lemma tpow2_zeros (k : nat) :
  tpow2 (replicate k (Fin 0)) = replicate k (Fin 0).
Proof.
  unfold tpow2. induction k as [|k IH]; [done|].
  cbn [replicate map]. rewrite IH. cbn. by rewrite Rmult_0_l.
Qed.

Lemma sum_of_squares_zeros (dy_dw : nat -> nat -> list xfloat)
    (n_outputs pid k : nat) :
  n_outputs <> 0%nat ->
  (forall idx, (idx < n_outputs)%nat -> dy_dw idx pid = replicate k (Fin 0)) ->
  sum_of_squares dy_dw n_outputs pid = replicate k (Fin 0).
Proof.
  intros Hn Hz. unfold sum_of_squares.
  rewrite (Hz 0%nat) by lia. rewrite tpow2_zeros.
  assert (Hall : Forall (fun idx => (idx < n_outputs)%nat)
                        (seq 1 (n_outputs - 1))).
  { apply Forall_forall. intros idx Hidx%elem_of_seq. lia. }
  induction Hall as [|idx idxs Hidx _ IH]; [done|].
  cbn. by rewrite (Hz idx Hidx), tpow2_zeros, tadd_zeros.
Qed.

Lemma tsqrt_zeros (k : nat) :
  tsqrt (replicate k (Fin 0)) = replicate k (Fin 0).
Proof.
  unfold tsqrt. induction k as [|k IH]; [done|].
  cbn [replicate map]. rewrite IH. cbn. rewrite sqrt_0.
  by destruct (Rlt_dec 0 0); [lra|].
Qed.

Lemma xdiv_zero_zero : xdiv (Fin 0) (Fin 0) = NaN.
Proof.
  cbn. destruct (Req_dec_T 0 0); [|lra]. unfold signed_inf.
  destruct (Req_dec_T 0 0); [done|lra].
Qed.

Lemma foldl_xmax_zeros (k : nat) :
  foldl xmax (Fin 0) (replicate k (Fin 0)) = Fin 0.
Proof.
  induction k as [|k IH]; [done|]. cbn. unfold Rltb.
  destruct (Rlt_dec 0 0); [lra|]. exact IH.
Qed.

End ZeroTensor.
(** ** All parameters as [es_parameters()] *)

Section AllParameters.

Lemma es_tensors_all {T : Type} (parent_model : model T) :
  es_tensors parent_model (seq 0 (length parent_model)) = parent_model.
Proof.
  unfold es_tensors.
  induction parent_model as [|p rest IH] using rev_ind; [done|].
  rewrite length_app. cbn [length]. rewrite seq_app, omap_app.
  cbn [seq Nat.add].
  assert (Hlast : omap (fun i => (rest ++ [p]) !! i) [length rest] = [p]).
  { cbn. by rewrite list_lookup_middle. }
  rewrite Hlast. f_equal. rewrite <- IH at 2. apply list_omap_ext.
  apply Forall_Forall2_diag, Forall_forall. intros i Hi.
  apply elem_of_seq in Hi. apply lookup_app_l. lia.
Qed.

End AllParameters.

(** * Further properties of the generation loop *)

(** ** Perturbations *)

Section PerturbationProperties.
Local Open Scope R_scope.

(** X1. With safe mutation the noise [get_pertubation] returns is the
    raw noise divided by the sensitivities and then by its own standard
    deviation: its standard deviation is one, while its mean is the mean of
    the scaled noise divided by that deviation (the mean is not removed).
    (The divisions are by non-zero numbers: non-zero sensitivities, at
    least two elements, a non-zero deviation.) *)
Theorem get_pertubation_unit_std (torch : TorchRNG R) (args : Args R)
    (p : param R) (st : rng) :
  safe_mutation args = true ->
  let scaled := tdiv (normal_ (length (data p)) st).1 (grad p) in
  let eps := (get_pertubation args p st).1 in
  Forall (fun g => g <> 0) (grad p) ->
  (2 <= length scaled)%nat ->
  tstd scaled <> 0 ->
  eps = tdiv_scalar scaled (tstd scaled) /\
  tstd eps = 1 /\
  tmean eps = tmean scaled / tstd scaled.
Proof.
  intros Hsafe scaled eps _ _ Hstd.
  assert (Heps : eps = tdiv_scalar scaled (tstd scaled)).
  { unfold eps, scaled, get_pertubation.
    destruct (normal_ (length (data p)) st) as [raw st']. by rewrite Hsafe. }
  split; [done|]. rewrite Heps. split.
  - by apply tstd_tdiv_scalar_self.
  - apply tmean_tdiv_scalar.
Qed.

Lemma get_pertubation_unit_std_witness :
  tstd (@get_pertubation R _ counter_torch example_safe_args
          (Param [1; 2] [1; 1]) 7%Z).1 = 1.
Proof.
  apply (get_pertubation_unit_std counter_torch example_safe_args
           (Param [1; 2] [1; 1]) 7%Z).
  - reflexivity.
  - cbn. repeat constructor; lra.
  - cbn. lia.
  - cbn [normal_ length counter_torch randn fst tdiv zip_with data grad].
    unfold tstd, tmean, tsub_scalar, tpow2, tsum, pow2, of_nat, zero.
    cbn [length map foldl]. unfold_R.
    change (Z.of_nat 2 - 1)%Z with 1%Z. change (Z.of_nat 2) with 2%Z.
    change (7 + 1)%Z with 8%Z.
    intros H0. apply sqrt_eq_0 in H0; lra.
Defined.

(** X2. When [es_parameters()] yields all parameters in their order, the
    perturbation [perturb_model] applies for a seed is the noise
    [compute_gradients] draws again from that seed: tensor by tensor, the
    two models are the parent plus and minus sigma times [noise(seed)], the
    per-sample noise of the gradient formula.  (With safe mutation the
    gradient buffers have the shape of their tensors and the noise is a
    real number.) *)
Theorem perturb_model_regenerated_noise (torch : TorchRNG R) (args : Args R)
    (parent_model : model R) (random_seed : Z) :
  (safe_mutation args = true -> well_shaped parent_model) ->
  noise_is_real args parent_model random_seed ->
  exists model1 model2,
    perturb_model (seq 0 (length parent_model)) args parent_model random_seed
    = Ok (model1, model2) /\
    forall layer p,
      parent_model !! layer = Some p ->
      let eps := noise args parent_model random_seed !!! layer in
      data <$> model1 !! layer
      = Some (tadd (data p) (tscale (sigma args) eps)) /\
      data <$> model2 !! layer
      = Some (tsub (data p) (tscale (sigma args) eps)).
Proof.
  intros Hshape _.
  destruct (perturb_model_mirrored (seq 0 (length parent_model)) args
              parent_model random_seed)
    as (model1 & model2 & Hrun & _); [|done|].
  { intros i Hi%elem_of_seq. lia. }
  exists model1, model2. split; [done|].
  unfold perturb_model in Hrun.
  destruct (perturb_loop_noise args parent_model _ (NoDup_seq 0 _)
              _ _ _ _ _ Hrun) as [Hnoise _].
  intros layer p Hp. unfold noise.
  pose proof (Hnoise layer layer (Param (data p) (tzeros (length (data p))))
                (Param (data p) (tzeros (length (data p))))) as Hl.
  rewrite es_tensors_all in Hl. apply Hl.
  - apply lookup_seq_lt. by eapply lookup_lt_Some.
  - unfold copy_model. by rewrite lookup_map, Hp.
  - unfold copy_model. by rewrite lookup_map, Hp.
Qed.

Lemma perturb_model_regenerated_noise_witness :
  exists model1 model2,
    @perturb_model R _ counter_torch [0%nat] example_args example_model 7
    = Ok (model1, model2) /\
    data <$> model1 !! 0%nat
    = Some (tadd [1; 2]
              (tscale (sigma example_args)
                 (@noise R _ counter_torch example_args example_model 7
                    !!! 0%nat))).
Proof.
  destruct (perturb_model_regenerated_noise counter_torch example_args
              example_model 7)
    as (model1 & model2 & Hrun & Hnoise).
  - intros Hsafe. discriminate Hsafe.
  - intros Hsafe. discriminate Hsafe.
  - exists model1, model2. split; [exact Hrun|].
    apply (Hnoise 0%nat (Param [1; 2] [1; 1]) eq_refl).
Defined.

(** X3. A sigma that is [NaN] or infinite never yields perturbed models:
    the first perturbed tensor holds no finite element and [perturb_model]
    fails its assertions.  (Safe mutation is off and the first tensor of
    [es_parameters()] has at least one element.) *)
Theorem perturb_model_nonfinite_sigma (torch : TorchRNG xfloat)
    (args : Args xfloat) (parent_model : model xfloat) (random_seed : Z)
    (i : nat) (es : list nat) (p : param xfloat) :
  parent_model !! i = Some p ->
  data p <> [] ->
  safe_mutation args = false ->
  isnan (sigma args) || isinf (sigma args) = true ->
  perturb_model (i :: es) args parent_model random_seed
  = Raise AssertionError.
Proof.
  intros Hp Hdata Hsafe Hsigma. unfold perturb_model. cbn [perturb_loop].
  unfold getitem. rewrite Hp, bind_Ok.
  unfold get_pertubation. rewrite Hsafe.
  pose proof (normal_length_any (length (data p)) (manual_seed random_seed))
    as Hlen.
  destruct (normal_ (length (data p)) (manual_seed random_seed)) as [eps st'].
  cbn in Hlen.
  rewrite !list_lookup_alter_eq. unfold copy_model.
  rewrite !lookup_map, Hp.
  cbn -[no_nan_inf perturb_loop tadd tsub tscale].
  rewrite (no_nan_inf_nonfinite (tadd (data p) (tscale (sigma args) eps)));
    [reflexivity| |].
  - destruct (data p) as [|d ds]; [done|]. destruct eps as [|e eps]; done.
  - unfold tadd, tscale. apply Forall_forall. intros x Hx.
    apply elem_of_lookup_zip_with in Hx as (j & d & t & -> & _ & Ht).
    rewrite lookup_map in Ht.
    destruct (eps !! j) as [e|]; [|done]. cbn in Ht. injection Ht as <-.
    apply xadd_nonfinite. by apply xmul_nonfinite.
Qed.

Lemma perturb_model_nonfinite_sigma_witness :
  @perturb_model xfloat _ counter_torch_x [0%nat]
    (MkArgs 2 NaN None false false 100) example_xmodel 7
  = Raise AssertionError.
Proof.
  apply (perturb_model_nonfinite_sigma counter_torch_x
           (MkArgs 2 NaN None false false 100) example_xmodel 7 0 []
           (Param [Fin 0] [Fin 0])).
  - reflexivity.
  - discriminate.
  - reflexivity.
  - reflexivity.
Defined.

End PerturbationProperties.

(** ** Sensitivities *)

Section SensitivityProperties.
Local Open Scope R_scope.

(** X4. A parameter tensor that no output depends on (all its output
    gradients are zero) makes [compute_sensitivities] fail: its
    sensitivities are [0/0 = NaN], which neither masked assignment
    replaces, and the assertion on the stored gradients raises
    [AssertionError].  (All tensors have at least one element.) *)
Theorem compute_sensitivities_zero_gradient
    (dy_dw : nat -> nat -> list xfloat) (n_outputs : nat)
    (parent_model : model xfloat) (pid k : nat) :
  n_outputs <> 0%nat ->
  (pid < length parent_model)%nat ->
  k <> 0%nat ->
  (forall idx, (idx < n_outputs)%nat -> dy_dw idx pid = replicate k (Fin 0)) ->
  (forall q, (q < length parent_model)%nat ->
             root_sum_square dy_dw n_outputs q <> []) ->
  compute_sensitivities dy_dw n_outputs parent_model = Raise AssertionError.
Proof.
  intros Hn Hpid Hk Hzero Hne.
  destruct (compute_sensitivities dy_dw n_outputs parent_model)
    as [m|e] eqn:Hrun.
  - exfalso.
    destruct (compute_sensitivities_Ok dy_dw n_outputs parent_model m Hn Hrun)
      as [Hlen Hall].
    destruct (lookup_lt_is_Some_2 parent_model pid Hpid) as [p Hp].
    destruct (lookup_lt_is_Some_2 m pid) as [p' Hp']; [by rewrite Hlen|].
    destruct (Hall pid p p' Hp Hp') as (_ & (mx & Hmx & Hgrad) & Hnan & _).
    unfold root_sum_square in Hmx, Hgrad.
    rewrite (sum_of_squares_zeros dy_dw n_outputs pid k Hn Hzero),
            tsqrt_zeros in Hmx, Hgrad.
    destruct k as [|k]; [done|].
    cbn [replicate tmax] in Hmx. rewrite foldl_xmax_zeros in Hmx.
    injection Hmx as <-. rewrite Hgrad in Hnan.
    unfold tdiv_scalar in Hnan. cbn [replicate map div xfloat_scalar] in Hnan.
    rewrite xdiv_zero_zero in Hnan. done.
  - f_equal. revert Hrun. unfold compute_sensitivities.
    rewrite (accumulate_outputs_spec dy_dw n_outputs parent_model Hn), bind_Ok.
    destruct (mapM_normalize_Ok
                (map tsqrt (map (sum_of_squares dy_dw n_outputs)
                              (seq 0 (length parent_model)))))
      as [s' Hs'].
    { apply Forall_fmap, Forall_fmap, Forall_forall.
      intros q Hq%elem_of_seq. cbn. apply Hne. lia. }
    rewrite Hs', bind_Ok. apply set_sensitivities_error.
    apply mapM_normalize_length in Hs'.
    rewrite length_map, Hs', !length_map, length_seq. done.
Qed.

Lemma compute_sensitivities_zero_gradient_witness :
  compute_sensitivities (fun _ _ => [Fin 0]) 1 example_xmodel
  = Raise AssertionError.
Proof.
  apply (compute_sensitivities_zero_gradient (fun _ _ => [Fin 0]) 1
           example_xmodel 0 1).
  - discriminate.
  - cbn. lia.
  - discriminate.
  - reflexivity.
  - intros q _. discriminate.
Defined.

(** X5. Whenever [compute_sensitivities] returns, every stored
    sensitivity is a number between [1e-5] and [1], and every tensor holds
    a [1]: each tensor is divided by its own maximum, so the ceiling of
    [1e5] is never reached. *)
Theorem compute_sensitivities_unit_max (dy_dw : nat -> nat -> list xfloat)
    (n_outputs : nat) (parent_model m : model xfloat) :
  compute_sensitivities dy_dw n_outputs parent_model = Ok m ->
  forall pid p',
    m !! pid = Some p' ->
    Forall (fun x => exists r, x = Fin r /\ 1 / 100000 <= r <= 1) (grad p') /\
    Fin 1 ∈ grad p'.
Proof.
  intros Hrun pid p' Hp'.
  destruct (decide (n_outputs = 0%nat)) as [->|Hn].
  { apply compute_sensitivities_no_outputs in Hrun. by subst m. }
  destruct (compute_sensitivities_Ok dy_dw n_outputs parent_model m Hn Hrun)
    as [Hlen Hall].
  destruct (lookup_lt_is_Some_2 parent_model pid) as [p Hp].
  { rewrite <- Hlen. by eapply lookup_lt_Some. }
  destruct (Hall pid p p' Hp Hp') as (_ & (mx & Hmx & Hgrad) & Hnan & _).
  rewrite numerical_clip in Hgrad. apply tany_false in Hnan.
  unfold root_sum_square, tsqrt, tdiv_scalar in Hmx, Hgrad.
  rewrite Hgrad in Hnan |- *. split.
  - apply Forall_forall. intros x Hx.
    pose proof (proj1 (Forall_forall _ _) Hnan x Hx) as Hxn.
    apply list_elem_of_fmap in Hx as (z & -> & Hz).
    apply list_elem_of_fmap in Hz as (s & -> & Hs).
    pose proof Hs as Hs'.
    apply list_elem_of_fmap in Hs' as (y & -> & _).
    by eapply clip_normalized.
  - by apply clip_normalized_max.
Qed.

Lemma compute_sensitivities_unit_max_witness :
  Forall (fun x => exists r, x = Fin r /\ 1 / 100000 <= r <= 1) [Fin 1] /\
  Fin 1 ∈ [Fin 1].
Proof.
  apply (compute_sensitivities_unit_max example_dy_dw 1 example_xmodel
           [Param [Fin 0] [Fin 1]] compute_sensitivities_example 0%nat
           (Param [Fin 0] [Fin 1]) eq_refl).
Defined.

End SensitivityProperties.

(** ** Fitness shaping *)

Section ShapingProperties.
Local Open Scope R_scope.



(** X7. [fitness_shaping] is monotone: an agent with a strictly greater
    return never gets a smaller weight, also when other returns are
    equal. *)
Theorem fitness_shaping_monotone (returns : list R) (i j : nat) (ri rj : R) :
  returns !! i = Some ri -> returns !! j = Some rj -> rj < ri ->
  exists weights wi wj,
    fitness_shaping returns = Ok weights /\
    weights !! i = Some wi /\ weights !! j = Some wj /\ wj <= wi.
Proof.
  intros Hi Hj Hlt.
  assert (Hn : (1 <= length returns)%nat).
  { apply lookup_lt_Some in Hi. lia. }
  destruct (fitness_shaping_by_rank returns Hn)
    as (weights & Hfs & Hlen & _ & Hw).
  destruct (Hw i ri Hi) as (ki & _ & Hwi & HDi & _).
  destruct (Hw j rj Hj) as (kj & _ & Hwj & HDj & _).
  exists weights, (shaped_weight (length returns) ki),
         (shaped_weight (length returns) kj).
  split; [done|]. split; [done|]. split; [done|].
  apply shaped_weight_antitone; [done|].
  pose proof (sorted_position_lt _ ki kj ri rj
                (sorted_returns_descending returns) HDi HDj Hlt).
  lia.
Qed.

Lemma fitness_shaping_monotone_witness :
  exists weights wi wj,
    fitness_shaping [1; 3; 1] = Ok weights /\
    weights !! 1%nat = Some wi /\ weights !! 2%nat = Some wj /\ wj <= wi.
Proof.
  apply (fitness_shaping_monotone [1; 3; 1] 1 2 3 1).
  - reflexivity.
  - reflexivity.
  - lra.
Defined.

(** X8. No weight is below [-1/N], and an agent that at least half of the
    batch beats gets exactly [-1/N]: the lower half of the ranking is
    weighted uniformly. *)
Theorem fitness_shaping_floor (returns : list R) :
  let n := length returns in
  (1 <= n)%nat ->
  exists weights,
    fitness_shaping returns = Ok weights /\
    Forall (fun w => - (1 / INR n) <= w) weights /\
    forall i r,
      returns !! i = Some r ->
      (n <= 2 * count_greater returns r)%nat ->
      weights !! i = Some (- (1 / INR n)).
Proof.
  intros n Hn.
  destruct (fitness_shaping_by_rank returns Hn)
    as (weights & Hfs & Hlen & _ & Hw).
  exists weights. split; [done|]. split.
  - apply Forall_lookup. intros i w Hwi.
    destruct (lookup_lt_is_Some_2 returns i) as [r Hr].
    { rewrite <- Hlen. by eapply lookup_lt_Some. }
    destruct (Hw i r Hr) as (k & _ & Hk & _).
    rewrite Hk in Hwi. injection Hwi as <-.
    by apply shaped_weight_floor.
  - intros i r Hr Hhalf.
    destruct (Hw i r Hr) as (k & _ & Hk & _ & Hle & _).
    rewrite Hk. f_equal. apply shaped_weight_floor; [done|]. fold n. lia.
Qed.

Lemma fitness_shaping_floor_witness :
  exists weights,
    fitness_shaping [3; 1] = Ok weights /\
    weights !! 1%nat = Some (- (1 / INR 2)).
Proof.
  destruct (fitness_shaping_floor [3; 1]) as (weights & Hfs & _ & Hw).
  - cbn. lia.
  - exists weights. split; [exact Hfs|].
    apply (Hw 1%nat 1); [reflexivity|].
    rewrite count_greater_R_cons, count_greater_R_cons.
    destruct (Rlt_dec 1 3) as [_|Hn]; [|exfalso; lra].
    cbn. lia.
Defined.

(** X9. [fitness_shaping] sees the returns only through their order: a
    strictly increasing transformation of the returns (a shift, a positive
    scaling, ...) leaves the weights unchanged. *)
Theorem fitness_shaping_increasing_map (f : R -> R) (returns : list R) :
  (forall x y, x < y -> f x < f y) ->
  fitness_shaping (map f returns) = fitness_shaping returns.
Proof.
  intros Hf. unfold fitness_shaping.
  by rewrite (argsort_increasing f returns Hf), length_map.
Qed.

Lemma fitness_shaping_increasing_map_witness :
  fitness_shaping (map (fun x => 2 * x + 5) [3; 1; 2])
  = fitness_shaping [3; 1; 2].
Proof.
  apply (fitness_shaping_increasing_map (fun x => 2 * x + 5)).
  intros x y Hxy. lra.
Defined.

End ShapingProperties.

(** ** The gradient estimator *)

Section GradientProperties.
Local Open Scope R_scope.

(** X10. [compute_gradients] checks its batch before anything else: a list
    of returns whose length is not [args.agents], or a list of seeds of
    another length than the returns, is an [AssertionError]; with zero
    agents and empty lists both checks pass and the division [1/n] of
    [fitness_shaping] raises [ZeroDivisionError]. *)
Theorem compute_gradients_rejects_batch {T : Type} `{Scalar T}
    (torch : TorchRNG T) (args : Args T) (parent_model : model T)
    (returns : list T) (random_seeds : list Z) (is_anti_list : list bool) :
  (length returns <> agents args \/ length random_seeds <> length returns ->
   compute_gradients args parent_model returns random_seeds is_anti_list
   = Raise AssertionError) /\
  (agents args = 0%nat -> returns = [] -> random_seeds = [] ->
   compute_gradients args parent_model returns random_seeds is_anti_list
   = Raise ZeroDivisionError).
Proof.
  split.
  - intros Hbad. unfold compute_gradients.
    destruct (decide (length returns = agents args)) as [Hlen|Hlen].
    + destruct Hbad as [Hbad|Hbad]; [congruence|].
      rewrite (bool_decide_true (length returns = agents args)) by done.
      by rewrite (bool_decide_false (length random_seeds = length returns)).
    + by rewrite (bool_decide_false (length returns = agents args)).
  - intros Hn -> ->. unfold compute_gradients. cbn. by rewrite Hn.
Qed.

Lemma compute_gradients_rejects_batch_witness :
  @compute_gradients R _ counter_torch example_args example_model
    [3; 1; 2] example_seeds example_is_anti = Raise AssertionError.
Proof.
  apply (proj1 (compute_gradients_rejects_batch counter_torch example_args
                  example_model [3; 1; 2] example_seeds example_is_anti)).
  left. cbn. lia.
Defined.

(** X11. The length of [is_anti_list] is not checked: when it is shorter
    than the batch, the loop over the agents runs until the first missing
    entry and raises [IndexError]. *)
Theorem compute_gradients_missing_sign (torch : TorchRNG R) (args : Args R)
    (parent_model : model R) (returns : list R) (random_seeds : list Z)
    (is_anti_list : list bool) :
  length returns = agents args ->
  length random_seeds = agents args ->
  (length is_anti_list < agents args)%nat ->
  sigma args <> 0 ->
  (optimize_sigma args = true -> is_Some (beta args)) ->
  compute_gradients args parent_model returns random_seeds is_anti_list
  = Raise IndexError.
Proof.
  intros Hret Hseeds Hanti Hsigma Hbeta.
  assert (HN : agents args <> 0%nat) by lia.
  unfold compute_gradients.
  rewrite !bool_decide_true by congruence. cbn [assert]. rewrite !bind_Ok.
  destruct (fitness_shaping_closed_form returns)
    as (weights & Hfs & Hlen & _); [lia|].
  rewrite Hfs, bind_Ok.
  replace (agents args)
    with (length is_anti_list + (agents args - length is_anti_list))%nat
    at 1 by lia.
  rewrite seq_app, agent_loop_app.
  rewrite (agent_loop_spec args parent_model weights random_seeds is_anti_list
             HN Hsigma Hbeta).
  2:{ intros i Hi%elem_of_seq. lia. }
  2:{ by rewrite length_map. }
  rewrite bind_Ok.
  destruct (agents args - length is_anti_list)%nat as [|k] eqn:Hk; [lia|].
  cbn [seq agent_loop]. unfold getitem.
  assert (Hnone : is_anti_list !! length is_anti_list = None).
  { apply lookup_ge_None. apply Nat.le_refl. }
  cbn [Nat.add]. by rewrite Hnone.
Qed.

Lemma compute_gradients_missing_sign_witness :
  @compute_gradients R _ counter_torch example_args example_model
    example_returns example_seeds [false] = Raise IndexError.
Proof.
  apply (compute_gradients_missing_sign counter_torch example_args
           example_model example_returns example_seeds [false]).
  - reflexivity.
  - reflexivity.
  - cbn. lia.
  - cbn. lra.
  - intros _. cbn. eauto.
Defined.

(** X12. Neither [compute_sensitivities] nor [compute_gradients] touches
    the weights: when they return, the model has the same tensors, in the
    same order, and only the gradient buffers are new. *)
Theorem gradients_keep_data {T : Type} `{Scalar T} (torch : TorchRNG T)
    (dy_dw : nat -> nat -> list T) (n_outputs : nat) (args : Args T)
    (parent_model m : model T) (returns : list T) (random_seeds : list Z)
    (is_anti_list : list bool) (beta_grad : option T) :
  (compute_sensitivities dy_dw n_outputs parent_model = Ok m ->
   map data m = map data parent_model) /\
  (compute_gradients args parent_model returns random_seeds is_anti_list
   = Ok (m, beta_grad) ->
   map data m = map data parent_model).
Proof.
  split.
  - unfold compute_sensitivities.
    destruct (accumulate_outputs _ _ _ _) as [s|]; [|done]. rewrite bind_Ok.
    destruct (mapM _ _) as [s'|]; [|done]. rewrite bind_Ok.
    apply set_sensitivities_data.
  - intros Hrun. apply compute_gradients_Ok in Hrun
      as (sr & wg & bg & _ & _ & Hset & _).
    by eapply set_gradients_data.
Qed.

Lemma gradients_keep_data_witness :
  map data [Param [Fin 0] [Fin 1]] = map data example_xmodel.
Proof.
  apply (proj1 (gradients_keep_data counter_torch_x example_dy_dw 1 inf_args
                  example_xmodel [Param [Fin 0] [Fin 1]] inf_returns
                  inf_seeds inf_is_anti None)).
  exact compute_sensitivities_example.
Defined.

(** X13. Whenever [compute_gradients] returns, every stored parameter
    gradient is a finite number, and the stored beta gradient, if any, is
    not [NaN]. *)
Theorem compute_gradients_finite (torch : TorchRNG xfloat)
    (args : Args xfloat) (parent_model m : model xfloat)
    (returns : list xfloat) (random_seeds : list Z)
    (is_anti_list : list bool) (beta_grad : option xfloat) :
  compute_gradients args parent_model returns random_seeds is_anti_list
  = Ok (m, beta_grad) ->
  Forall (fun p => Forall (fun g => exists r, g = Fin r) (grad p)) m /\
  beta_grad <> Some NaN.
Proof.
  intros Hrun. apply compute_gradients_checked in Hrun as [Hm Hb].
  split.
  - eapply Forall_impl; [exact Hm|]. intros p [Hnan Hinf].
    apply tany_false in Hnan, Hinf.
    apply Forall_lookup. intros j g Hg.
    pose proof (Forall_lookup_1 _ _ _ _ Hnan Hg) as Hgn.
    pose proof (Forall_lookup_1 _ _ _ _ Hinf Hg) as Hgi.
    destruct g as [r| | |]; try done. by exists r.
  - intros ->. by specialize (Hb NaN eq_refl).
Qed.

Lemma compute_gradients_finite_witness :
  exists m beta_grad,
    @compute_gradients xfloat _ counter_torch_x inf_args example_xmodel
      inf_returns inf_seeds inf_is_anti = Ok (m, beta_grad) /\
    Forall (fun p => Forall (fun g => exists r, g = Fin r) (grad p)) m.
Proof.
  destruct compute_gradients_xfloat_run as (m & beta_grad & Hrun).
  exists m, beta_grad. split; [exact Hrun|].
  apply (compute_gradients_finite counter_torch_x inf_args example_xmodel
           m inf_returns inf_seeds inf_is_anti beta_grad Hrun).
Defined.

(** X14. With a single agent the shaped weight is zero, so
    [compute_gradients] stores zero gradients: every parameter gradient is
    a tensor of zeros and the beta gradient, when sigma is optimized, is
    zero. *)
Theorem compute_gradients_single_agent (torch : TorchRNG R) (args : Args R)
    (parent_model : model R) (retrn : R) (seed : Z) (is_anti : bool) :
  agents args = 1%nat ->
  sigma args <> 0 ->
  (optimize_sigma args = true -> is_Some (beta args)) ->
  noise_is_real args parent_model seed ->
  exists m,
    compute_gradients args parent_model [retrn] [seed] [is_anti]
    = Ok (m, if optimize_sigma args then Some 0 else None) /\
    Forall (fun p => Forall (fun g => g = 0) (grad p)) m.
Proof.
  intros HN Hsigma Hbeta _.
  destruct (compute_gradients_closed_form args parent_model [retrn] [seed]
              [is_anti])
    as (weights & Hfs & Hlen & Hsum & Hrun);
    [lia|by rewrite HN|by rewrite HN|rewrite HN; cbn; lia|done|done|].
  rewrite HN in Hlen. destruct weights as [|w [|? ?]]; try done.
  cbn in Hsum. assert (w = 0) as -> by lra.
  rewrite Hrun. eexists. split.
  - f_equal. f_equal. destruct (optimize_sigma args); [|done]. f_equal.
    unfold accumulated_beta. rewrite HN. cbn. unfold agent_beta. cbn.
    rewrite (Rsum_zeros (beta_term args 0)) by apply beta_term_zero. lra.
  - apply Forall_forall. intros p' Hp'.
    apply elem_of_lookup_imap in Hp' as (layer & p & -> & Hp). cbn.
    apply Forall_lookup. intros j g Hg. unfold tneg in Hg.
    rewrite lookup_map in Hg.
    destruct (accumulated_gradient _ _ _ _ _ _ _ !! j) as [x|] eqn:Hx; [|done].
    cbn in Hg. injection Hg as <-.
    apply accumulated_gradient_lookup in Hx. rewrite Hx, HN. cbn. unfold_R. lra.
Qed.

Lemma compute_gradients_single_agent_witness :
  exists m,
    @compute_gradients R _ counter_torch
      (MkArgs 1 (1 / 10) (Some 0) false true 100) example_model
      [3] [7%Z] [false] = Ok (m, Some 0) /\
    Forall (fun p => Forall (fun g => g = 0) (grad p)) m.
Proof.
  apply (compute_gradients_single_agent counter_torch
           (MkArgs 1 (1 / 10) (Some 0) false true 100) example_model 3 7
           false).
  - reflexivity.
  - cbn. lra.
  - intros _. cbn. eauto.
  - intros Hsafe. discriminate Hsafe.
Defined.

(** X15. The gradients do not depend on the order in which the workers'
    outputs arrive: on a batch of pairwise distinct returns,
    [compute_gradients] returns the same parameter gradients and the same
    beta gradient for every permutation of the (return, seed, sign)
    triples.  (Hypotheses as for the gradient formula: at least one agent,
    a batch of [N] outputs, a non-zero sigma, [beta] present when sigma is
    optimized, noise that is a real number.) *)
Theorem compute_gradients_order_independent (torch : TorchRNG R)
    (args : Args R) (parent_model : model R)
    (outs outs' : list (R * Z * bool)) :
  agents args <> 0%nat ->
  length outs = agents args ->
  sigma args <> 0 ->
  (optimize_sigma args = true -> is_Some (beta args)) ->
  (forall o, o ∈ outs -> noise_is_real args parent_model o.1.2) ->
  NoDup (outs.*1.*1) ->
  outs ≡ₚ outs' ->
  exists m beta_grad,
    compute_gradients args parent_model (outs.*1.*1) (outs.*1.*2) (outs.*2)
    = Ok (m, beta_grad) /\
    compute_gradients args parent_model (outs'.*1.*1) (outs'.*1.*2) (outs'.*2)
    = Ok (m, beta_grad).
Proof.
  intros HN Hlen Hsigma Hbeta _ Hnd Hperm.
  assert (Hlen' : length outs' = agents args).
  { by rewrite <- (Permutation_length Hperm). }
  assert (Hnd' : NoDup (outs'.*1.*1)) by (by rewrite <- Hperm).
  rewrite (compute_gradients_batch args parent_model outs HN Hlen Hsigma
             Hbeta Hnd).
  rewrite (compute_gradients_batch args parent_model outs' HN Hlen' Hsigma
             Hbeta Hnd').
  eexists _, _. split; [reflexivity|].
  assert (HW : forall r,
            shaped_weight (length outs') (count_greater (outs'.*1.*1) r)
            = shaped_weight (length outs) (count_greater (outs.*1.*1) r)).
  { intros r. rewrite Hlen, Hlen'. f_equal.
    apply count_greater_perm. by rewrite Hperm. }
  f_equal. f_equal.
  - apply imap_ext. intros layer p _. cbn. f_equal. f_equal. f_equal.
    apply tensor_sum_perm. apply map_perm_ext; [|done].
    intros o. cbn. by rewrite HW.
  - destruct (optimize_sigma args); [|done]. f_equal. f_equal.
    apply Rsum_perm. apply map_perm_ext; [|done].
    intros o. cbn. by rewrite HW.
Qed.

Lemma compute_gradients_order_independent_witness :
  exists m beta_grad,
    @compute_gradients R _ counter_torch example_args example_model
      [3; 1] [7; 7]%Z [false; true] = Ok (m, beta_grad) /\
    @compute_gradients R _ counter_torch example_args example_model
      [1; 3] [7; 7]%Z [true; false] = Ok (m, beta_grad).
Proof.
  apply (compute_gradients_order_independent counter_torch example_args
           example_model [(3, 7%Z, false); (1, 7%Z, true)]
           [(1, 7%Z, true); (3, 7%Z, false)]).
  - cbn. lia.
  - reflexivity.
  - cbn. lra.
  - intros _. cbn. eauto.
  - intros o _ Hsafe. discriminate Hsafe.
  - cbn. apply NoDup_cons. split.
    + intros Hin%list_elem_of_singleton. lra.
    + apply NoDup_singleton.
  - apply Permutation_swap.
Defined.

End GradientProperties.

(** ** The sigma controller *)

Section SigmaProperties.
Local Open Scope R_scope.

(** X16. A positive sigma with [beta = log(2 sigma^2)], the state every
    generation leaves behind, is a fixed point of the sigma controller:
    without a change of [beta] neither sigma nor [beta] moves. *)
Theorem sigma_controller_fixed_point (args : Args R) :
  0 < sigma args ->
  beta args = Some (ln (2 * (sigma args * sigma args))) ->
  sigma_controller args = args.
Proof.
  intros Hs Hb.
  pose proof (sigma_controller_sigma args _ Hb) as Hsig.
  pose proof (sigma_controller_beta args _ Hb) as Hbeta.
  rewrite (sigma_of_beta_log _ Hs) in Hsig.
  destruct (Rlt_dec (sigma args * 1.2) (sigma args)); [lra|].
  destruct (Rlt_dec (sigma args) (sigma args * 0.8)); [lra|].
  rewrite Hsig in Hbeta.
  assert (Hrest : agents (sigma_controller args) = agents args /\
                  safe_mutation (sigma_controller args) = safe_mutation args /\
                  optimize_sigma (sigma_controller args) = optimize_sigma args /\
                  max_generations (sigma_controller args) = max_generations args).
  { unfold sigma_controller. rewrite Hb.
    destruct (ltb _ _); [done|]. by destruct (ltb _ _). }
  destruct Hrest as (Ha & Hsm & Ho & Hm).
  destruct (sigma_controller args) as [a s b sm o mg].
  destruct args as [a' s' b' sm' o' mg']. cbn in *. by subst.
Qed.

Lemma sigma_controller_fixed_point_witness :
  sigma_controller (MkArgs 2 1 (Some (ln (2 * (1 * 1)))) false true 100)
  = MkArgs 2 1 (Some (ln (2 * (1 * 1)))) false true 100.
Proof.
  apply (sigma_controller_fixed_point
           (MkArgs 2 1 (Some (ln (2 * (1 * 1)))) false true 100)).
  - cbn. lra.
  - reflexivity.
Defined.

(** X17. The controller cannot leave a sigma that is not positive:
    [new_sigma] is positive, hence above [1.2 sigma], and sigma is
    multiplied by [1.2]; a zero sigma stays zero and a negative sigma moves
    away from zero. *)
Theorem sigma_controller_nonpositive (args : Args R) (b : R) :
  beta args = Some b ->
  sigma args <= 0 ->
  sigma (sigma_controller args) = sigma args * 1.2 /\
  sigma (sigma_controller args) <= 0.
Proof.
  intros Hb Hs. rewrite (sigma_controller_sigma args b Hb).
  pose proof (sigma_of_beta_pos b).
  destruct (Rlt_dec (sigma args * 1.2) (sigma_of_beta b)); lra.
Qed.

Lemma sigma_controller_nonpositive_witness :
  sigma (sigma_controller (MkArgs 2 0 (Some 0) false true 100)) = 0 * 1.2.
Proof.
  apply (sigma_controller_nonpositive
           (MkArgs 2 0 (Some 0) false true 100) 0).
  - reflexivity.
  - cbn. lra.
Defined.

End SigmaProperties.

(** ** Worker outputs and the rank of the unperturbed model *)

Section OutputProperties.
Local Open Scope R_scope.

(** X18. When the output of the unperturbed model is among the raw outputs,
    the split takes its first occurrence out and keeps the outputs of the
    perturbed models as they arrived: the four lists are aligned, entry by
    entry, with the remaining outputs. *)
Theorem split_outputs_removes_unperturbed {T : Type}
    (pre post : list (output T)) (unperturbed_out : output T) :
  Forall (fun o => out_seed o <> dummy_seed) pre ->
  out_seed unperturbed_out = dummy_seed ->
  split_outputs (pre ++ unperturbed_out :: post)
  = Ok (unperturbed_out,
        map out_seed (pre ++ post), map out_return (pre ++ post),
        map out_is_anti (pre ++ post), map out_n_observations (pre ++ post)).
Proof.
  intros Hpre Hu. unfold split_outputs.
  rewrite !map_app, !map_cons, Hu.
  rewrite index_app_r.
  2:{ apply Forall_fmap. exact Hpre. }
  rewrite bind_Ok, length_map.
  rewrite pop_middle, bind_Ok. cbn -[pop].
  rewrite Hu, bool_decide_true by done. cbn -[pop].
  rewrite <- (length_map out_seed pre) at 1. rewrite pop_middle. cbn -[pop].
  rewrite <- (length_map out_return pre) at 1. rewrite pop_middle. cbn -[pop].
  rewrite <- (length_map out_is_anti pre) at 1. rewrite pop_middle. cbn -[pop].
  rewrite <- (length_map out_n_observations pre) at 1. rewrite pop_middle.
  done.
Qed.

Lemma split_outputs_removes_unperturbed_witness :
  split_outputs [MkOutput (Seed 5) 1 (Neg true) 10%nat;
                 MkOutput dummy_seed 2 dummy_neg 30%nat;
                 MkOutput (Seed 5) 3 (Neg false) 20%nat]
  = Ok (MkOutput dummy_seed 2 dummy_neg 30%nat,
        [Seed 5; Seed 5], [1; 3], [Neg true; Neg false], [10; 20]%nat).
Proof.
  apply (split_outputs_removes_unperturbed
           [MkOutput (Seed 5) 1 (Neg true) 10%nat]
           [MkOutput (Seed 5) 3 (Neg false) 20%nat]
           (MkOutput dummy_seed 2 dummy_neg 30%nat)).
  - repeat constructor. discriminate.
  - reflexivity.
Defined.

(** X19. When no raw output carries the seed of the unperturbed model (its
    worker's output was not collected), the split raises [ValueError]. *)
Theorem split_outputs_without_unperturbed {T : Type}
    (raw_output : list (output T)) :
  Forall (fun o => out_seed o <> dummy_seed) raw_output ->
  split_outputs raw_output = Raise ValueError.
Proof.
  intros Hraw. unfold split_outputs.
  rewrite index_absent; [done|]. apply Forall_fmap. exact Hraw.
Qed.

Lemma split_outputs_without_unperturbed_witness :
  split_outputs [MkOutput (Seed 5) 1 (Neg true) 10%nat;
                 MkOutput (Seed 5) 3 (Neg false) 20%nat]
  = Raise ValueError.
Proof.
  apply split_outputs_without_unperturbed.
  repeat constructor; discriminate.
Defined.

(** X20. The place [unperturbed_rank] computes lies between [1] and
    [len(returns) + 1]; it is [1] exactly when no perturbed return is
    greater than the unperturbed one and [len(returns) + 1] exactly when
    all of them are. *)
Theorem unperturbed_rank_range (returns : list R) (unperturbed_return : R) :
  let nth_place := (unperturbed_rank returns unperturbed_return).2 in
  (1 <= nth_place <= length returns + 1)%nat /\
  (nth_place = 1%nat
   <-> Forall (fun r => r <= unperturbed_return) returns) /\
  (nth_place = (length returns + 1)%nat
   <-> Forall (fun r => unperturbed_return < r) returns).
Proof.
  cbn [unperturbed_rank snd].
  pose proof (count_greater_le returns unperturbed_return) as Hle.
  split; [lia|]. split.
  - rewrite <- (Forall_iff (fun r => ltb unperturbed_return r = false)).
    + rewrite <- count_greater_none. lia.
    + intros r. unfold_R. apply Rltb_false.
  - rewrite <- (Forall_iff (fun r => ltb unperturbed_return r = true)).
    + rewrite <- count_greater_all. lia.
    + intros r. unfold_R. apply Rltb_true.
Qed.

(** X21. [unperturbed_rank] does not depend on the order in which the
    perturbed returns arrive: on a permutation of the returns it gives the
    same place and the same message. *)
Theorem unperturbed_rank_permutation {T : Type} `{Scalar T}
    (returns returns' : list T) (unperturbed_return : T) :
  returns ≡ₚ returns' ->
  unperturbed_rank returns unperturbed_return
  = unperturbed_rank returns' unperturbed_return.
Proof.
  intros Hperm. unfold unperturbed_rank.
  rewrite (count_greater_perm _ _ _ Hperm).
  by rewrite (Permutation_length Hperm).
Qed.

Lemma unperturbed_rank_permutation_witness :
  unperturbed_rank [1; 3; 2] 2 = unperturbed_rank [3; 1; 2] 2.
Proof.
  apply (unperturbed_rank_permutation [1; 3; 2] [3; 1; 2] 2).
  apply Permutation_swap.
Defined.

(** X22. With [NaN] values every comparison is false: a [NaN] unperturbed
    return is given the first place, and a [NaN] perturbed return never
    counts as greater than the unperturbed one. *)
Theorem unperturbed_rank_nan (returns : list xfloat)
    (unperturbed_return : xfloat) :
  (unperturbed_rank returns NaN).2 = 1%nat /\
  (unperturbed_rank (NaN :: returns) unperturbed_return).2
  = (unperturbed_rank returns unperturbed_return).2.
Proof.
  cbn [unperturbed_rank snd]. split.
  - assert (count_greater returns NaN = 0%nat) as ->; [|done].
    apply count_greater_none, Forall_true. done.
  - rewrite count_greater_cons.
    assert (ltb unperturbed_return NaN = false) as ->; [|done].
    by destruct unperturbed_return.
Qed.

End OutputProperties.

(** ** Statistics, best model and checkpoints *)

Section StatisticsProperties.
Local Open Scope R_scope.

(** X23. The statistics start with empty series, and a generation that
    records its learning rate and reaches the end adds one entry to each
    series: all per-generation series keep one entry per generation. *)
Theorem end_of_generation_aligned {T : Type} `{Scalar T} `{ScalarOrder T}
    {O : Type} (args : Args T) (parent_model : model T) (opt : O)
    (stats stats' : Stats T) (vars vars' : LoopVars T O) (n g : nat)
    (lr : T) (returns : list T) (i_observations : list nat)
    (unperturbed_return now : T) :
  (exists args0 stats0 vars0,
     train_loop_init (O := O) args None now = Ok (args0, stats0, vars0) /\
     aligned stats0 0) /\
  (aligned stats n ->
   end_of_generation args parent_model opt (append_lr stats lr) vars g
     returns i_observations unperturbed_return now = Ok (stats', vars') ->
   aligned stats' (S n)).
Proof.
  split.
  { eexists _, _, _. split; [reflexivity|]. by repeat split. }
  intros Hal Hrun. unfold end_of_generation in Hrun. cbn in Hrun.
  apply store_statistics_Ok in Hrun as (mx & mn & _ & _ & -> & _).
  unfold aligned in *. cbn.
  destruct Hal as (?&?&?&?&?&?&?&?&?&?&?&?).
  rewrite !length_app. cbn. repeat split; lia.
Qed.

Lemma end_of_generation_aligned_witness :
  exists stats' vars',
    end_of_generation (O := unit) example_args example_model tt
      (append_lr example_stats 1) (MkLoopVars 4 20 2 2 None None) 2%nat
      [3; 1] [5; 6]%nat 2 7 = Ok (stats', vars') /\
    aligned stats' 3.
Proof.
  eexists _, _. split; [reflexivity|].
  eapply (end_of_generation_aligned (O := unit) example_args example_model tt
            example_stats _ (MkLoopVars 4 20 2 2 None None) _ 2 2 1
            [3; 1] [5; 6]%nat 2 7).
  - by repeat split.
  - reflexivity.
Defined.

(** X24. Restarting [train_loop] from the statistics a generation has
    stored continues where the loop stood: the next generation index, the
    same episode and observation counters, the sigma that was recorded, and
    as best-return threshold the maximum of the recorded unperturbed
    returns; the best snapshot starts empty. *)
Theorem end_of_generation_resume {T : Type} `{Scalar T} `{ScalarOrder T}
    {O : Type} (args args0 : Args T) (parent_model : model T) (opt : O)
    (stats stats' : Stats T) (vars vars' : LoopVars T O) (g : nat)
    (returns : list T) (i_observations : list nat)
    (unperturbed_return now now' : T) :
  end_of_generation args parent_model opt stats vars g returns
    i_observations unperturbed_return now = Ok (stats', vars') ->
  n_episodes vars' = (n_episodes vars + length returns)%nat /\
  n_observations vars' = (n_observations vars + sum_list i_observations)%nat /\
  exists threshold,
    np_max (st_return_unp stats ++ [unperturbed_return]) = Ok threshold /\
    train_loop_init (O := O) args0 (Some stats') now'
    = Ok (set_sigma args0 (sigma args), stats',
          MkLoopVars (n_episodes vars') (n_observations vars') (g + 1)
                     threshold None None).
Proof.
  intros Hrun. unfold end_of_generation in Hrun. cbn in Hrun.
  apply store_statistics_Ok in Hrun as (mx & mn & _ & _ & -> & ->).
  destruct (keep_best_counters parent_model opt unperturbed_return vars)
    as (-> & -> & _).
  cbn. split; [done|]. split; [done|].
  destruct (np_max_nonempty (st_return_unp stats ++ [unperturbed_return]))
    as [threshold Hmax].
  { by destruct (st_return_unp stats). }
  exists threshold. split; [done|].
  unfold train_loop_init. cbn.
  rewrite !last_item_snoc, Hmax. by rewrite !bind_Ok.
Qed.

Lemma end_of_generation_resume_witness :
  exists stats' vars' threshold,
    end_of_generation (O := unit) example_args example_model tt
      example_stats (MkLoopVars 4 20 2 2 None None) 2%nat
      [3; 1] [5; 6]%nat 2 7 = Ok (stats', vars') /\
    train_loop_init (O := unit) example_args4 (Some stats') 8
    = Ok (set_sigma example_args4 (sigma example_args), stats',
          MkLoopVars (n_episodes vars') (n_observations vars') 3 threshold
                     None None).
Proof.
  eexists _, _.
  destruct (end_of_generation_resume (O := unit) example_args example_args4
              example_model
              tt example_stats _ (MkLoopVars 4 20 2 2 None None) _ 2
              [3; 1] [5; 6]%nat 2 7 8 eq_refl)
    as (_ & _ & threshold & _ & Hinit).
  exists threshold. split; [reflexivity|exact Hinit].
Defined.

(** X25. After a generation the best-return threshold is the larger of the
    previous threshold and the new unperturbed return; a snapshot is taken
    exactly when the new return is at least the previous threshold, ties
    included; and a threshold that is the maximum of the recorded
    unperturbed returns (as after a resume) stays so. *)
Theorem end_of_generation_threshold {O : Type} (args : Args R)
    (parent_model : model R) (opt : O) (stats stats' : Stats R)
    (vars vars' : LoopVars R O) (g : nat) (returns : list R)
    (i_observations : list nat) (unperturbed_return now : R) :
  end_of_generation args parent_model opt stats vars g returns
    i_observations unperturbed_return now = Ok (stats', vars') ->
  max_unperturbed_return vars'
  = Rmax (max_unperturbed_return vars) unperturbed_return /\
  (max_unperturbed_return vars <= unperturbed_return ->
   best_model_stdct vars' = Some parent_model /\
   best_optimizer_stdct vars' = Some opt) /\
  (unperturbed_return < max_unperturbed_return vars ->
   best_model_stdct vars' = best_model_stdct vars /\
   best_optimizer_stdct vars' = best_optimizer_stdct vars) /\
  (np_max (st_return_unp stats) = Ok (max_unperturbed_return vars) ->
   np_max (st_return_unp stats') = Ok (max_unperturbed_return vars')).
Proof.
  intros Hrun. unfold end_of_generation in Hrun. cbn in Hrun.
  apply store_statistics_Ok in Hrun as (mx & mn & _ & _ & -> & ->).
  cbn. unfold keep_best. cbn [geb R_order]. unfold Rgeb.
  destruct (Rle_dec (max_unperturbed_return vars) unperturbed_return) as [Hle|Hlt].
  - cbn. split; [by rewrite Rmax_right|]. split; [done|]. split; [lra|].
    intros Hmax. rewrite np_max_snoc.
    destruct (st_return_unp stats) as [|x l]; [done|].
    cbn in Hmax. injection Hmax as Hmax. f_equal. unfold_R.
    rewrite Hmax. by rewrite Rmax_right.
  - split; [rewrite Rmax_left; [done|lra]|]. split; [lra|]. split; [done|].
    intros Hmax. rewrite np_max_snoc.
    destruct (st_return_unp stats) as [|x l]; [done|].
    cbn in Hmax. injection Hmax as Hmax. f_equal. unfold_R.
    rewrite Hmax. rewrite Rmax_left; [done|lra].
Qed.

Lemma end_of_generation_threshold_witness :
  exists stats' vars',
    end_of_generation (O := unit) example_args example_model tt
      example_stats (MkLoopVars 4 20 2 2 None None) 2%nat
      [3; 1] [5; 6]%nat 3 7 = Ok (stats', vars') /\
    max_unperturbed_return vars' = Rmax 2 3.
Proof.
  eexists _, _. split; [reflexivity|].
  apply (end_of_generation_threshold (O := unit) example_args example_model
           tt example_stats _ (MkLoopVars 4 20 2 2 None None) _ 2
           [3; 1] [5; 6]%nat 3 7 eq_refl).
Defined.

(** X26. A [NaN] among the recorded unperturbed returns makes the
    threshold of a resumed run [NaN]; with a [NaN] threshold no generation
    takes a snapshot, whatever its unperturbed return: threshold and
    snapshot stay as they are. *)
Theorem resume_with_nan_return {O : Type} (args args' : Args xfloat)
    (stats stats' : Stats xfloat) (vars : LoopVars xfloat O) (now : xfloat) :
  NaN ∈ st_return_unp stats ->
  train_loop_init args (Some stats) now = Ok (args', stats', vars) ->
  max_unperturbed_return vars = NaN /\
  best_model_stdct vars = None /\
  forall args1 parent_model opt stats1 stats2 (vars1 vars2 : LoopVars xfloat O)
         g returns i_observations unperturbed_return now',
    max_unperturbed_return vars1 = NaN ->
    end_of_generation args1 parent_model opt stats1 vars1 g returns
      i_observations unperturbed_return now' = Ok (stats2, vars2) ->
    max_unperturbed_return vars2 = NaN /\
    best_model_stdct vars2 = best_model_stdct vars1.
Proof.
  intros Hnan Hinit. unfold train_loop_init in Hinit.
  destruct (last_item (st_episodes stats)) as [ne|]; [|done].
  destruct (last_item (st_observations stats)) as [no|]; [|done].
  destruct (last_item (st_generations stats)) as [lg|]; [|done].
  destruct (last_item (st_sigma stats)) as [s|]; [|done].
  rewrite (np_max_NaN _ Hnan) in Hinit. rewrite !bind_Ok in Hinit.
  injection Hinit as <- <- <-. cbn. split; [done|]. split; [done|].
  intros args1 m opt stats1 stats2 vars1 vars2 g returns obs u now' Hmax Hrun.
  unfold end_of_generation in Hrun. cbn in Hrun.
  apply store_statistics_Ok in Hrun as (mx & mn & _ & _ & _ & ->).
  cbn. unfold keep_best. rewrite Hmax.
  assert (geb u NaN = false) as -> by (by destruct u).
  done.
Qed.

Lemma resume_with_nan_return_witness :
  exists args' stats' (vars : LoopVars xfloat unit),
    train_loop_init inf_args (Some (example_xstats NaN)) (Fin 0)
    = Ok (args', stats', vars) /\
    max_unperturbed_return vars = NaN.
Proof.
  eexists _, _, _. split; [reflexivity|].
  refine (proj1 (resume_with_nan_return (O := unit) inf_args _
                   (example_xstats NaN) _ _ (Fin 0) _ _)).
  - cbn. left.
  - reflexivity.
Defined.

(** X27. After a resume the best snapshot is empty; when the next
    generation's unperturbed return does not reach the restored threshold,
    the checkpoint saved at its end holds no best model: loading it with
    [load_best] fails, loading the latest state gives back what was saved. *)
Theorem checkpoint_after_resume_without_best {T : Type} `{Scalar T}
    `{ScalarOrder T} {O : Type} (args args1 : Args T)
    (parent_model : model T) (opt : O) (stats stats1 stats2 : Stats T)
    (vars1 vars2 : LoopVars T O) (g : nat) (returns : list T)
    (i_observations : list nat) (unperturbed_return now now' : T) :
  train_loop_init args (Some stats) now = Ok (args1, stats1, vars1) ->
  geb unperturbed_return (max_unperturbed_return vars1) = false ->
  end_of_generation args1 parent_model opt stats1 vars1 g returns
    i_observations unperturbed_return now' = Ok (stats2, vars2) ->
  let ck := save_checkpoint parent_model opt (best_model_stdct vars2)
              (best_optimizer_stdct vars2) stats2 in
  best_model_state_dict ck = None /\
  load_checkpoint ck true = Raise AttributeError /\
  load_checkpoint ck false = Ok (parent_model, opt, stats2).
Proof.
  intros Hinit Hlow Hrun.
  assert (Hnone : best_model_stdct vars1 = None).
  { unfold train_loop_init in Hinit.
    destruct (last_item (st_episodes stats)) as [ne|]; [|done].
    destruct (last_item (st_observations stats)) as [no|]; [|done].
    destruct (last_item (st_generations stats)) as [lg|]; [|done].
    destruct (last_item (st_sigma stats)) as [s|]; [|done].
    destruct (np_max (st_return_unp stats)) as [mx|]; [|done].
    rewrite !bind_Ok in Hinit. by injection Hinit as <- <- <-. }
  unfold end_of_generation in Hrun. cbn in Hrun.
  apply store_statistics_Ok in Hrun as (mx & mn & _ & _ & -> & ->).
  unfold keep_best. rewrite Hlow. cbn. rewrite Hnone.
  split; [done|].
  unfold load_checkpoint. cbn. by rewrite last_item_snoc.
Qed.

Lemma checkpoint_after_resume_without_best_witness :
  exists stats2 (vars2 : LoopVars xfloat unit),
    end_of_generation inf_args example_xmodel tt (example_xstats (Fin 5))
      (MkLoopVars 2 10 1 (Fin 5) None None) 1%nat [Fin 1; Fin 2] [3; 4]%nat
      (Fin 4) (Fin 9) = Ok (stats2, vars2) /\
    load_checkpoint
      (save_checkpoint example_xmodel tt (best_model_stdct vars2)
         (best_optimizer_stdct vars2) stats2) true
    = Raise AttributeError.
Proof.
  eexists _, _. split; [reflexivity|].
  eapply (checkpoint_after_resume_without_best (O := unit) inf_args inf_args
            example_xmodel tt (example_xstats (Fin 5)) (example_xstats (Fin 5))
            _ (MkLoopVars 2 10 1 (Fin 5) None None) _ 1 [Fin 1; Fin 2]
            [3; 4]%nat (Fin 4) (Fin 0) (Fin 9)).
  - reflexivity.
  - cbn. unfold Rgeb. destruct (Rle_dec 5 4) as [Hle|_]; [|reflexivity].
    exfalso. lra.
  - reflexivity.
Defined.

End StatisticsProperties.

(** ** Learning rate and checkpoint directory *)

Section UtilityProperties.
Local Open Scope R_scope.

(** X28. The learning rate [print_iter] shows for the rate [get_lr] has just
    recorded is that of the first parameter group, whether [get_lr] returned
    one number or a list; for an optimizer without parameter groups it is an
    [IndexError]. *)
Theorem print_iter_lr_first_group {T : Type} (lrs : list (lr_value T))
    (param_groups : list T) :
  print_iter_lr (lrs ++ [get_lr param_groups]) = getitem param_groups 0.
Proof.
  unfold print_iter_lr. rewrite last_item_snoc, bind_Ok.
  destruct param_groups as [|x [|y l]]; done.
Qed.

(** X29. [load_checkpoint] resolves the checkpoint directory below
    [file_path] from a relative [restore_dir] as well as from one that
    already starts with [file_path]: when no component of the relative part
    is the name of a component of [file_path], both give
    [file_path/relative]. *)
Theorem chkpt_dir_below_file_path (file_path relative : string) :
  (forall c, c ∈ split "/" relative -> c ∉ split "/" file_path) ->
  chkpt_dir relative file_path = file_path +:+ "/" +:+ relative /\
  chkpt_dir (file_path +:+ "/" +:+ relative) file_path
  = file_path +:+ "/" +:+ relative.
Proof.
  intros Hrel. unfold chkpt_dir. split.
  - rewrite filter_all.
    + by rewrite (join_split "/").
    + intros c Hc. apply bool_decide_eq_true. by apply Hrel.
  - change ("/" +:+ relative) with (String "/" relative).
    rewrite (split_app "/"), List.filter_app.
    rewrite filter_none, filter_all.
    + cbn [app]. by rewrite (join_split "/").
    + intros c Hc. apply bool_decide_eq_true. by apply Hrel.
    + intros c Hc. apply bool_decide_eq_false. tauto.
Qed.

Lemma chkpt_dir_below_file_path_witness :
  chkpt_dir "runs/cp1" "/home/es" = "/home/es/runs/cp1"%string /\
  chkpt_dir "/home/es/runs/cp1" "/home/es" = "/home/es/runs/cp1"%string.
Proof.
  apply (chkpt_dir_below_file_path "/home/es" "runs/cp1").
  intros c Hc. change (c ∈ ["runs"; "cp1"]%string) in Hc.
  apply elem_of_cons in Hc as [->|Hc];
    [|apply list_elem_of_singleton in Hc as ->];
    apply (bool_decide_unpack _); reflexivity.
Defined.

(** X30. Directory names are filtered by name, not by position: a leading
    directory of [restore_dir] that has the name of any component of
    [file_path] is dropped from the checkpoint directory. *)
Theorem chkpt_dir_drops_known_names (file_path c rest : string) :
  c ∈ split "/" file_path ->
  chkpt_dir (c +:+ "/" +:+ rest) file_path = chkpt_dir rest file_path.
Proof.
  intros Hc. unfold chkpt_dir.
  change ("/" +:+ rest) with (String "/" rest).
  rewrite (split_app "/"), (split_component _ _ _ Hc), List.filter_app.
  cbn [List.filter]. rewrite bool_decide_false by tauto. done.
Qed.

Lemma chkpt_dir_drops_known_names_witness :
  chkpt_dir "es/cp1" "/home/es" = chkpt_dir "cp1" "/home/es".
Proof.
  apply (chkpt_dir_drops_known_names "/home/es" "es" "cp1").
  apply (bool_decide_unpack _). reflexivity.
Defined.

End UtilityProperties.
